(** * The incremental conversation-sync pipeline, embedded in Rocq

    A shallow embedding of the staged pipeline engine ([pipeline/pipeline.py]),
    the retrying API client ([intercom/api.py]), the bulk loader
    ([database/database_operations.py]) and the conversation pipeline built
    from them ([intercom/conversation/]), followed by the properties of the
    specification that were checked against them.

    Python code is translated function by function.  Mutable state is passed
    explicitly; exceptions are an outcome of every computation. *)

From Stdlib Require Import ZArith Lia.
From stdpp Require Import base strings list gmap pretty.

(** ** Exceptions and the effect monad *)

(** The exception classes the program raises or can meet.  All of them are
    subclasses of Python's [Exception], so [except Exception] catches each.

    Modelled from the spec: [pipeline/exceptions.py] (imported by
    [pipeline/pipeline.py] and the conversation steps) is missing.  The spec
    names its two classes as two distinct non-error signals, the early-stop
    signal and the skip-remaining signal; the code constructs them with one
    message argument and reads it back as [e.msg]. *)
Inductive exn : Type :=
| StopPipelineException (msg : string)
| StopPayloadException (msg : string)
| APIErrorException
| MissingPrimaryKeyException (msg : string)
| TypeError (msg : string)
| KeyError (key : string)
| ValueError (msg : string)
| AttributeError (name : string)
| DatabaseError (condition : string)
| OtherException (what : string).

(** What a call does: return a value, raise, or never return.  The bounded
    loops of the repository are shown below never to take the last branch. *)
Inductive outcome (A : Type) : Type :=
| Ok (a : A)
| Raise (e : exn)
| Diverge.
Arguments Ok {A} a.
Arguments Raise {A} e.
Arguments Diverge {A}.

(** A computation over a mutable state [S].  The state reached when an
    exception is raised is kept: Python does not undo mutations. *)
Definition M (S A : Type) : Type := S -> outcome A * S.

Definition ret {S A} (a : A) : M S A := fun s => (Ok a, s).

Definition raise {S A} (e : exn) : M S A := fun s => (Raise e, s).

Definition bind {S A B} (m : M S A) (k : A -> M S B) : M S B :=
  fun s =>
    match m s with
    | (Ok a, s') => k a s'
    | (Raise e, s') => (Raise e, s')
    | (Diverge, s') => (Diverge, s')
    end.

Notation "'let*' x ':=' m 'in' k" := (bind m (fun x => k))
  (at level 10, x name, m at level 100, k at level 200).
Notation "'let*' ' pat ':=' m 'in' k" :=
  (bind m (fun x => match x with pat => k end))
  (at level 10, pat pattern, m at level 100, k at level 200).
Notation "m ;> k" := (bind m (fun _ => k))
  (at level 100, k at level 200, right associativity).

(** [try: body  except <classes selected by handler>: ...]. *)
Definition try_except {S A} (body : M S A) (handler : exn -> option (M S A))
  : M S A :=
  fun s =>
    match body s with
    | (Raise e, s') =>
        match handler e with
        | Some h => h s'
        | None => (Raise e, s')
        end
    | r => r
    end.

(** The two signals of [pipeline/exceptions.py]: the engine catches them and
    goes on. *)
Definition is_stop (e : exn) : bool :=
  match e with
  | StopPipelineException _ | StopPayloadException _ => true
  | _ => false
  end.

(** [moves R m]: when [m] returns, the state it leaves is related by [R] to
    the one it started from; when it raises, what it raises is an error and
    none of the engine's signals. *)
Definition moves {S A} (R : relation S) (m : M S A) : Prop :=
  forall s, match m s with
            | (Ok _, s') => R s s'
            | (Raise e, _) => is_stop e = false
            | (Diverge, _) => True
            end.

(** The states on which [f] is the same. *)
Definition same {S X} (f : S -> X) : relation S := fun s s' => f s' = f s.

(** [preserves P m]: from a state in [P], [m] returns in [P] or raises an
    error. *)
Definition preserves {S A} (P : S -> Prop) (m : M S A) : Prop :=
  forall s, P s ->
            match m s with
            | (Ok _, s') => P s'
            | (Raise e, _) => is_stop e = false
            | (Diverge, _) => True
            end.

(** [settles R m]: from every state, [m] returns or raises (it does not run
    on for ever), and either way the state it leaves is related by [R] to
    the one it started from. *)
Definition settles {S A} (R : relation S) (m : M S A) : Prop :=
  forall s, (m s).1 <> Diverge /\ R s (m s).2.

(** The same of one state. *)
Definition settles_at {S A} (R : relation S) (m : M S A) (s : S) : Prop :=
  (m s).1 <> Diverge /\ R s (m s).2.

(** The relation that holds of any two states. *)
Definition anywhere {S} : relation S := fun _ _ => True.

(** ** The pipeline engine ([pipeline/pipeline.py]) *)

Module PipelineEngine.

(** Records written to the ['Pipeline'] logger at level info or error, one
    constructor per message template.  The debug-level state dumps are left
    out. *)
Inductive log_record : Type :=
| LogStoppingPipelineEarly (msg : string)
| LogUnexpectedError (e : exn)
| LogPreStepsToExecute (n : nat)
| LogStartingPreStep (name : string)
| LogPreStepsDone
| LogNoPayloads
| LogPayloadsToProcess (n : nat)
| LogAllPayloadsDone
| LogStartingPipelineStep (name : string)
| LogFinishedPipelineStep (name : string)
| LogStoppingPayloadEarly (msg : string)
| LogPayloadDone
| LogPostStepsToExecute (n : nat)
| LogStartingPostStep (name : string)
| LogPostStepsDone
| LogErrorStepsToExecute (n : nat)
| LogStartingErrorStep (name : string)
| LogErrorStepsDone.

(** A step class: its [__name__] and its [execute] method, acting on the
    object it is handed. *)
Record Step (S : Type) : Type := mkStep {
  step_name : string;
  step_execute : M S unit
}.
Arguments mkStep {S} _ _.
Arguments step_name {S} _.
Arguments step_execute {S} _.

Section Engine.
(** [Payload] is the attribute bag of one work unit; [Attrs] is everything
    else a step can reach: the attributes steps add to the pipeline object
    (connection, cursor) and the world behind them. *)
Context {Payload Attrs : Type}.

(** The [Pipeline] object.  [payloads] is only annotated in the class body,
    so the attribute does not exist until a step assigns it. *)
Record Pipeline : Type := mkPipeline {
  payloads : option (list Payload);
  attrs : Attrs
}.

(** A run: the pipeline object and what the logger has received. *)
Record Run : Type := mkRun {
  self : Pipeline;
  logged : list log_record
}.

Definition PreExecutionStep : Type := Step Pipeline.
Definition PostExecutionStep : Type := Step Pipeline.
Definition ErrorHandlingStep : Type := Step Pipeline.
(** A [PipelineStep] receives the payload only; it mutates it in place and
    acts on the world through what the payload references. *)
Definition PipelineStep : Type := Step (Payload * Attrs).

(** The four step lists are class-level configuration, fixed for a run. *)
Context (pre_execution_steps : list PreExecutionStep)
        (pipeline_steps : list PipelineStep)
        (post_execution_steps : list PostExecutionStep)
        (error_handling_steps : list ErrorHandlingStep).

Definition logger (r : log_record) : M Run unit :=
  fun s => (Ok tt, {| self := self s; logged := logged s ++ [r] |}).

(** [step().execute(self)]: the step sees the pipeline object, not the
    logger. *)
Definition execute_on_self (st : Step Pipeline) : M Run unit :=
  fun s =>
    let '(r, p) := step_execute st (self s) in
    (r, {| self := p; logged := logged s |}).

(** [for step in steps: logger.info(Starting ...); step().execute(self)],
    the loop shared by the pre-execution, post-execution and error-handling
    phases. *)
Fixpoint run_steps (starting : string -> log_record)
         (steps : list (Step Pipeline)) : M Run unit :=
  match steps with
  | [] => ret tt
  | st :: rest =>
      logger (starting (step_name st)) ;>
      execute_on_self st ;>
      run_steps starting rest
  end.

Definition run_pre_execution_steps : M Run unit :=
  logger (LogPreStepsToExecute (length pre_execution_steps)) ;>
  run_steps LogStartingPreStep pre_execution_steps ;>
  logger LogPreStepsDone.

(** [pipeline_step().execute(payload)] for [payload = self.payloads[0]]:
    the payload handed to [run_payload] is the object at the head of the
    queue, so the step's mutations show in the queue. *)
Definition execute_on_payload (st : PipelineStep) : M Run unit :=
  fun s =>
    match payloads (self s) with
    | Some (p :: rest) =>
        let '(r, (p', a')) := step_execute st (p, attrs (self s)) in
        (r, {| self := {| payloads := Some (p' :: rest); attrs := a' |};
               logged := logged s |})
    | _ => (Raise (OtherException "IndexError"), s)
    end.

(** The [for] loop of [run_payload]; [break] on [StopPayloadException]. *)
Fixpoint run_payload_steps (steps : list PipelineStep) : M Run unit :=
  match steps with
  | [] => ret tt
  | st :: rest =>
      logger (LogStartingPipelineStep (step_name st)) ;>
      let* continue :=
        try_except
          (execute_on_payload st ;>
           logger (LogFinishedPipelineStep (step_name st)) ;>
           ret true)
          (fun e =>
             match e with
             | StopPayloadException msg =>
                 Some (logger (LogStoppingPayloadEarly msg) ;> ret false)
             | _ => None
             end) in
      if continue then run_payload_steps rest else ret tt
  end.

Definition run_payload : M Run unit :=
  run_payload_steps pipeline_steps ;>
  logger LogPayloadDone.

(** [del self.payloads[0]] *)
Definition del_payloads_0 : M Run unit :=
  fun s =>
    match payloads (self s) with
    | Some (_ :: rest) =>
        (Ok tt, {| self := {| payloads := Some rest; attrs := attrs (self s) |};
                   logged := logged s |})
    | Some [] => (Raise (OtherException "IndexError"), s)
    | None => (Raise (AttributeError "payloads"), s)
    end.

(** [while len(self.payloads) > 0: ...].  The queue is read from the state
    at every iteration; [fuel] bounds the iterations and is the length of
    the queue when the loop is entered. *)
Fixpoint payloads_loop (fuel : nat) : M Run unit :=
  fun s =>
    match payloads (self s) with
    | None => (Raise (AttributeError "payloads"), s)
    | Some [] => (Ok tt, s)
    | Some (p :: rest) =>
        match fuel with
        | O => (Diverge, s)
        | S fuel' =>
            (logger (LogPayloadsToProcess (length (p :: rest))) ;>
             run_payload ;>
             del_payloads_0 ;>
             payloads_loop fuel') s
        end
    end.

Definition run_all_payloads : M Run unit :=
  fun s =>
    match payloads (self s) with
    | None => (Raise (AttributeError "payloads"), s)
    | Some [] => logger LogNoPayloads s
    | Some q => (payloads_loop (length q) ;> logger LogAllPayloadsDone) s
    end.

Definition run_post_execution_steps : M Run unit :=
  logger (LogPostStepsToExecute (length post_execution_steps)) ;>
  run_steps LogStartingPostStep post_execution_steps ;>
  logger LogPostStepsDone.

Definition run_error_handling : M Run unit :=
  logger (LogErrorStepsToExecute (length error_handling_steps)) ;>
  run_steps LogStartingErrorStep error_handling_steps ;>
  logger LogErrorStepsDone.

(** The inner [try] of [execute]: pre-execution and the payloads, with
    [StopPipelineException] caught and logged. *)
Definition execute_guarded : M Run unit :=
  try_except
    (run_pre_execution_steps ;> run_all_payloads)
    (fun e =>
       match e with
       | StopPipelineException msg => Some (logger (LogStoppingPipelineEarly msg))
       | _ => None
       end).

Definition execute : M Run unit :=
  try_except
    (execute_guarded ;> run_post_execution_steps)
    (fun e =>
       Some (logger (LogUnexpectedError e) ;>
             run_error_handling ;>
             raise e)).

(** *** Vocabulary of the engine's contract *)

(** The state [s] after one more record went to the logger. *)
Definition with_record (s : Run) (r : log_record) : Run :=
  {| self := self s; logged := logged s ++ [r] |}.

(** Pre-execution followed by the payloads: the body of the inner [try]. *)
Definition pre_and_payloads : M Run unit :=
  run_pre_execution_steps ;> run_all_payloads.

(** An exception [e] reaches the outer handler of [execute] at state [s1]:
    it left the inner [try] (so it is no [StopPipelineException]), or it
    was raised by the post-execution steps. *)
Definition reaches_handler (s : Run) (e : exn) (s1 : Run) : Prop :=
  execute_guarded s = (Raise e, s1) \/
  exists s0, execute_guarded s = (Ok tt, s0) /\
             run_post_execution_steps s0 = (Raise e, s1).

(** The state [s] with the head of the queue deleted. *)
Definition without_head (s : Run) : Run :=
  {| self := {| payloads := option_map (drop 1) (payloads (self s));
                attrs := attrs (self s) |};
     logged := logged s |}.

(** [units_in_order q s r s']: from state [s], whose queue is [q], the units
    are processed one at a time and in order.  Each unit is processed at the
    head of the queue while the rest of the queue stays as it is, and it is
    deleted before the next one starts; the run of units ends normally with
    the queue empty, or at the first unit whose processing does not return,
    with that unit still at the head. *)
Inductive units_in_order : list Payload -> Run -> outcome unit -> Run -> Prop :=
| units_done s :
    payloads (self s) = Some [] ->
    units_in_order [] s (Ok tt) s
| units_next p rest s p' s1 r s2 :
    payloads (self s) = Some (p :: rest) ->
    run_payload (with_record s (LogPayloadsToProcess (S (length rest))))
    = (Ok tt, s1) ->
    payloads (self s1) = Some (p' :: rest) ->
    units_in_order rest (without_head s1) r s2 ->
    units_in_order (p :: rest) s r s2
| units_stop p rest s r p' s1 :
    payloads (self s) = Some (p :: rest) ->
    run_payload (with_record s (LogPayloadsToProcess (S (length rest))))
    = (r, s1) ->
    r <> Ok tt ->
    payloads (self s1) = Some (p' :: rest) ->
    units_in_order (p :: rest) s r s1.

(** The queue of [s] is [q], and [Inv] holds of it and of the attributes. *)
Definition queued (Inv : list Payload -> Attrs -> Prop) (q : list Payload)
           (s : Run) : Prop :=
  payloads (self s) = Some q /\ Inv q (attrs (self s)).

(** [completes steps s s1]: from [s], each pipeline step of [steps] in turn
    was started on the unit at the head of the queue and returned; [s1] is
    the state when the last one has been logged as finished. *)
Inductive completes : list PipelineStep -> Run -> Run -> Prop :=
| completes_nil s : completes [] s s
| completes_cons st rest s s1 s2 :
    execute_on_payload st (with_record s (LogStartingPipelineStep (step_name st)))
    = (Ok tt, s1) ->
    completes rest (with_record s1 (LogFinishedPipelineStep (step_name st))) s2 ->
    completes (st :: rest) s s2.





(** A relation on the attributes, read on the pipeline object and on a
    run. *)
Definition attrs_related (RA : relation Attrs) : relation Pipeline :=
  fun p p' => RA (attrs p) (attrs p').

Definition run_related (RA : relation Attrs) : relation Run :=
  fun s s' => RA (attrs (self s)) (attrs (self s')).

(** The pipeline step [st], handed a payload in [Good], returns or raises,
    leaves the payload in [Good] and the attributes related by [RA]. *)
Definition unit_settles (Good : Payload -> Prop) (RA : relation Attrs)
           (st : PipelineStep) : Prop :=
  forall p a, Good p ->
    (step_execute st (p, a)).1 <> Diverge /\
    Good (step_execute st (p, a)).2.1 /\
    RA a (step_execute st (p, a)).2.2.

End Engine.

Arguments Pipeline : clear implicits.
Arguments Run : clear implicits.
Arguments PreExecutionStep : clear implicits.
Arguments PostExecutionStep : clear implicits.
Arguments ErrorHandlingStep : clear implicits.
Arguments PipelineStep : clear implicits.

End PipelineEngine.

(** ** Values and row-sets *)

(** A JSON value as [response.json()] returns it and as a DataFrame cell or a
    database field holds it: [JNull] is Python's [None] and SQL's NULL.
    Numbers are integers (timestamps, counters); floats are not modelled. *)
#[local] Unset Elimination Schemes.
Inductive json : Type :=
| JNull
| JBool (b : bool)
| JNum (n : Z)
| JStr (s : string)
| JArr (items : list json)
| JObj (fields : list (string * json)).
#[local] Set Elimination Schemes.

Fixpoint json_eqb (a b : json) {struct a} : bool :=
  match a, b with
  | JNull, JNull => true
  | JBool x, JBool y => Bool.eqb x y
  | JNum x, JNum y => Z.eqb x y
  | JStr x, JStr y => String.eqb x y
  | JArr xs, JArr ys =>
      (fix go (xs ys : list json) {struct xs} : bool :=
         match xs, ys with
         | [], [] => true
         | x :: xs', y :: ys' => json_eqb x y && go xs' ys'
         | _, _ => false
         end) xs ys
  | JObj xs, JObj ys =>
      (fix go (xs ys : list (string * json)) {struct xs} : bool :=
         match xs, ys with
         | [], [] => true
         | (k, x) :: xs', (k', y) :: ys' =>
             String.eqb k k' && json_eqb x y && go xs' ys'
         | _, _ => false
         end) xs ys
  | _, _ => false
  end.

Lemma json_eqb_eq : forall a b, json_eqb a b = true <-> a = b.
Proof.
  fix IH 1. intros a b.
  destruct a, b; simpl;
    try (split; [discriminate | congruence]); try (split; congruence).
  - split; [intros H; apply Bool.eqb_prop in H; congruence
           | intros [= ->]; apply Bool.eqb_reflx].
  - rewrite Z.eqb_eq. split; congruence.
  - rewrite String.eqb_eq. split; congruence.
  - revert items0.
    induction items as [|x xs IHxs]; intros [|y ys];
      try (split; [discriminate | congruence]); [split; congruence|].
    rewrite andb_true_iff, IH, IHxs.
    split; [intros [-> [= ->]]; reflexivity | intros [= -> ->]; auto].
  - revert fields0.
    induction fields as [|[k x] xs IHxs]; intros [|[k' y] ys];
      try (split; [discriminate | congruence]); [split; congruence|].
    rewrite !andb_true_iff, String.eqb_eq, IH, IHxs.
    split; [intros [[-> ->] [= ->]]; reflexivity | intros [= -> -> ->]; auto].
Qed.

#[global] Instance json_eq_dec : EqDecision json.
Proof.
  intros a b. unfold Decision.
  destruct (json_eqb a b) eqn:E.
  - left. apply json_eqb_eq, E.
  - right. intros H. apply json_eqb_eq in H. congruence.
Defined.

(** SQL's [=] in a join or a [where]: never true when a side is NULL. *)
Definition sql_eq (a b : json) : bool :=
  match a, b with
  | JNull, _ | _, JNull => false
  | _, _ => bool_decide (a = b)
  end.

(** A row-set: a pandas DataFrame, its header and its records in order. *)
Record DataFrame : Type := mkDataFrame {
  df_columns : list string;
  df_records : list (list json)
}.

(** [len(df)] *)
Definition len (df : DataFrame) : nat := length (df_records df).

(** [pd.DataFrame(records)] for a list of dicts that all have the keys of the
    first one, in its order (every list the transformer builds is so);
    [pd.DataFrame([])] has no column and no row. *)
Definition pd_DataFrame (records : list (list (string * json))) : DataFrame :=
  match records with
  | [] => {| df_columns := []; df_records := [] |}
  | r :: _ => {| df_columns := map fst r; df_records := map (map snd) records |}
  end.

(** The field of [row] under column [c] of the header [cols]; NULL when the
    header has no such column. *)
Fixpoint cell (cols : list string) (row : list json) (c : string) : json :=
  match cols, row with
  | k :: cols', v :: row' => if bool_decide (k = c) then v else cell cols' row' c
  | _, _ => JNull
  end.

(** ** The destination store

    A model of the PostgreSQL server behind the cursor, as far as the
    statements the program issues go: tables with named columns, NOT NULL
    columns and primary-key constraints, the two catalog views the loader
    reads (with the rows the foreign keys of a schema have in the second),
    session-local temporary tables, the driver that writes the rows of a
    copy, and one statement at a time. *)

Module Postgres.

Record table : Type := mkTable {
  t_columns : list string;
  t_not_null : list string;
  t_rows : list (list json)
}.

(** A primary-key constraint, as [information_schema] shows it: the table it
    is on and its columns by ordinal position, of which there is at least
    one.  Constraints are keyed by schema and constraint name below. *)
Record primary_key : Type := mkPrimaryKey {
  pk_table : string;
  pk_column : string;
  pk_more : list string
}.

Definition pk_columns (pk : primary_key) : list string :=
  pk_column pk :: pk_more pk.

(** A foreign-key constraint, as [information_schema.key_column_usage] shows
    it: its schema and name, the table it is on and its columns by ordinal
    position.  The server wants the name of a constraint to be unique among
    the constraints of its table only, so that a foreign key of one table
    can bear the name of the primary key of another table of the schema.
    The query that lists key columns orders its rows by position alone:
    [fk_first] says whether, among rows of equal position, those of this
    constraint come before those of the primary key.  Of a foreign key only
    these catalog rows are modelled. *)
Record foreign_key : Type := mkForeignKey {
  fk_schema : string;
  fk_name : string;
  fk_table : string;
  fk_columns : list string;
  fk_first : bool
}.

(** The database as a session reaches it: the permanent tables, the
    catalog of their keys, the temporary tables of the session, and the
    driver in between.  [adapts rows] says whether the driver can write the
    rows of a dataframe: [cp.write_row] raises on a value it cannot adapt
    (a dict, [pd.NA]), and which values
    [df.convert_dtypes().to_records(index=False)] hands it depends on the
    versions of pandas and psycopg in use. *)
Record Database : Type := mkDatabase {
  relations : gmap (string * string) table;
  primary_keys : gmap (string * string) primary_key;
  foreign_keys : list foreign_key;
  temporary : gmap string table;
  adapts : list (list json) -> bool
}.

(** The statements of the program, by what their SQL text is built from. *)
Inductive statement : Type :=
(** [select count( * ), max(constraint_name) from
    information_schema.table_constraints where constraint_type =
    'PRIMARY KEY' and table_schema = %s and table_name = %s] *)
| SelectPrimaryKeyCount (schema table_name : string)
(** [select column_name from information_schema.key_column_usage where
    table_schema = %s and constraint_name = %s order by ordinal_position] *)
| SelectKeyColumns (schema : string) (key_name : json)
(** [create temporary table if not exists tmp (like schema.table) on commit
    drop] *)
| CreateTemporaryTableLike (tmp schema table_name : string)
(** [copy [schema.]table (columns) from STDIN], with the rows written *)
| Copy (schema : option string) (table_name : string) (columns : list string)
       (rows : list (list json))
(** [merge into schema.table t using tmp s on (s.k = t.k AND ...) when
    matched then update set c = s.c, ... when not matched then insert
    (columns) values (s.c, ...)] *)
| MergeInto (schema table_name tmp : string)
            (on_columns update_columns insert_columns : list string)
(** [truncate table tmp] *)
| TruncateTable (tmp : string)
(** [delete from schema.table where column = %s] *)
| DeleteWhere (schema table_name column : string) (value : json)
(** [select coalesce(max(updated_at), 0) from schema.conversations] *)
| SelectMaxUpdatedAt (schema : string).

(** A statement that can change rows or tables (the selects cannot). *)
Definition is_write (s : statement) : bool :=
  match s with
  | SelectPrimaryKeyCount _ _ | SelectKeyColumns _ _ | SelectMaxUpdatedAt _ => false
  | _ => true
  end.

(** The primary-key constraints on a table: the rows of
    [information_schema.table_constraints] the count is taken over. *)
Definition constraints_on (db : Database) (schema table_name : string)
  : list (string * string * primary_key) :=
  List.filter
    (fun e => bool_decide (e.1.1 = schema) && bool_decide (pk_table e.2 = table_name))
    (map_to_list (primary_keys db)).

(** [max(constraint_name)]: NULL over no row. *)
Definition max_name (names : list string) : json :=
  match names with
  | [] => JNull
  | n :: rest =>
      JStr (fold_left (fun a b => if String.ltb a b then b else a) rest n)
  end.

Definition not_null_ok (cols key : list string) (row : list json) : bool :=
  forallb (fun c => negb (bool_decide (cell cols row c = JNull))) key.

Definition unique_ok (cols key : list string) (rows : list (list json)) : bool :=
  bool_decide (NoDup (map (fun row => map (cell cols row) key) rows)).

(** What the server enforces on the rows of a table: its NOT NULL columns
    and, for each primary key on it, no NULL in the key and no two rows with
    the same key. *)
Definition constraints_ok (cols not_null : list string)
           (keys : list (list string)) (rows : list (list json)) : bool :=
  forallb (not_null_ok cols not_null) rows &&
  forallb (fun key => forallb (not_null_ok cols key) rows && unique_ok cols key rows)
          keys.

Definition keys_on (db : Database) (schema table_name : string)
  : list (list string) :=
  map (fun e => pk_columns e.2) (constraints_on db schema table_name).

(** The constraints [information_schema.key_column_usage] has rows for
    under a schema and a constraint name, each with its columns by
    position: the primary key of that name, if there is one, and every
    foreign key of that name, whatever table it is on. *)
Definition key_column_usage (db : Database) (schema name : string)
  : list (list string) :=
  let named (first : bool) :=
    map fk_columns
        (List.filter (fun k => bool_decide (fk_schema k = schema) &&
                               bool_decide (fk_name k = name) &&
                               bool_decide (fk_first k = first))
                     (foreign_keys db)) in
  named true ++
  match primary_keys db !! (schema, name) with
  | Some pk => [pk_columns pk]
  | None => []
  end ++
  named false.

(** [order by ordinal_position], over [n] positions: the first columns of
    the constraints, then their second columns, and so on. *)
Fixpoint by_position (n : nat) (keys : list (list string)) : list string :=
  match n with
  | O => []
  | S n' => omap head keys ++ by_position n' (map (drop 1) keys)
  end.

(** What the key-column query returns for a schema and a constraint
    name. *)
Definition key_columns_listed (db : Database) (schema name : string)
  : list string :=
  let keys := key_column_usage db schema name in
  by_position (foldr Nat.max 0%nat (map length keys)) keys.

(** A name without schema resolves to the session's temporary table of that
    name (the search path behind it is not modelled). *)
Definition resolve (db : Database) (schema : option string) (table_name : string)
  : option table :=
  match schema with
  | Some s => relations db !! (s, table_name)
  | None => temporary db !! table_name
  end.

Definition store (db : Database) (schema : option string) (table_name : string)
           (t : table) : Database :=
  match schema with
  | Some s =>
      {| relations := <[(s, table_name) := t]> (relations db);
         primary_keys := primary_keys db;
         foreign_keys := foreign_keys db;
         temporary := temporary db;
         adapts := adapts db |}
  | None =>
      {| relations := relations db;
         primary_keys := primary_keys db;
         foreign_keys := foreign_keys db;
         temporary := <[table_name := t]> (temporary db);
         adapts := adapts db |}
  end.

Definition enforced_keys (db : Database) (schema : option string)
           (table_name : string) : list (list string) :=
  match schema with
  | Some s => keys_on db s table_name
  | None => []
  end.

Definition with_rows (t : table) (rows : list (list json)) : table :=
  {| t_columns := t_columns t; t_not_null := t_not_null t; t_rows := rows |}.

Definition subset_of (xs ys : list string) : bool :=
  forallb (fun c => bool_decide (c ∈ ys)) xs.

(** A row of a table with header [tcols], filled from the listed columns of a
    source row and NULL elsewhere. *)
Definition inserted_row (tcols scols ins : list string) (s : list json)
  : list json :=
  map (fun c => if bool_decide (c ∈ ins) then cell scols s c else JNull) tcols.

(** A row [t] with the listed columns taken from the source row [s]. *)
Definition updated_row (tcols scols upd : list string) (t s : list json)
  : list json :=
  map (fun c => if bool_decide (c ∈ upd) then cell scols s c else cell tcols t c)
      tcols.

(** The join condition [s.k = t.k AND ...]. *)
Definition row_matches (tcols scols on : list string) (t s : list json) : bool :=
  forallb (fun c => sql_eq (cell scols s c) (cell tcols t c)) on.

(** [when matched then update]: each target row joined with one source row
    is updated from it; a target row joined with several is an error (the
    command cannot affect a row a second time). *)
Fixpoint merge_matched (tcols scols on upd : list string)
         (source target : list (list json)) : option (list (list json)) :=
  match target with
  | [] => Some []
  | t :: target' =>
      match List.filter (row_matches tcols scols on t) source with
      | [] => option_map (cons t) (merge_matched tcols scols on upd source target')
      | [s] =>
          option_map (cons (updated_row tcols scols upd t s))
                     (merge_matched tcols scols on upd source target')
      | _ => None
      end
  end.

(** [when not matched then insert]: the source rows joined with no target
    row, as the statement found the target. *)
Definition merge_not_matched (tcols scols on ins : list string)
           (source target : list (list json)) : list (list json) :=
  map (inserted_row tcols scols ins)
      (List.filter
         (fun s => negb (existsb (fun t => row_matches tcols scols on t s) target))
         source).

(** [max(column)] over the integer fields of a column: NULL over none. *)
Definition max_column (cols : list string) (column : string)
           (rows : list (list json)) : option Z :=
  fold_right
    (fun r acc =>
       match cell cols r column with
       | JNum n => Some (match acc with Some m => Z.max n m | None => n end)
       | _ => acc
       end)
    None rows.

Definition failed {A} (condition : string) (db : Database)
  : outcome A * Database :=
  (Raise (DatabaseError condition), db).

(** One statement against the session's view of the database: its result
    rows, or the error it raises, in which case it changed nothing. *)
Definition exec (stmt : statement) (db : Database)
  : outcome (list (list json)) * Database :=
  match stmt with
  | SelectPrimaryKeyCount schema table_name =>
      let found := constraints_on db schema table_name in
      (Ok [[JNum (Z.of_nat (length found)); max_name (map (fun e => e.1.2) found)]],
       db)
  | SelectKeyColumns schema key_name =>
      match key_name with
      | JStr name =>
          (Ok (map (fun c => [JStr c]) (key_columns_listed db schema name)), db)
      | _ => (Ok [], db)
      end
  | CreateTemporaryTableLike tmp schema table_name =>
      match temporary db !! tmp with
      | Some _ => (Ok [], db)
      | None =>
          match relations db !! (schema, table_name) with
          | None => failed "undefined_table" db
          | Some t =>
              (Ok [],
               store db None tmp
                     {| t_columns := t_columns t;
                        t_not_null :=
                          t_not_null t ++ concat (keys_on db schema table_name);
                        t_rows := [] |})
          end
      end
  | Copy schema table_name columns rows =>
      match resolve db schema table_name with
      | None => failed "undefined_table" db
      | Some t =>
          if bool_decide (columns = []) then failed "syntax_error" db
          else if negb (subset_of columns (t_columns t))
          then failed "undefined_column" db
          else if negb (adapts db rows)
          then failed "cannot adapt type" db
          else if negb (forallb (fun r => bool_decide (length r = length columns)) rows)
          then failed "bad_copy_file_format" db
          else
            let rows' :=
              t_rows t ++ map (inserted_row (t_columns t) columns columns) rows in
            if constraints_ok (t_columns t) (t_not_null t)
                              (enforced_keys db schema table_name) rows'
            then (Ok [], store db schema table_name (with_rows t rows'))
            else failed "integrity_constraint_violation" db
      end
  | MergeInto schema table_name tmp on upd ins =>
      match relations db !! (schema, table_name), temporary db !! tmp with
      | Some t, Some s =>
          if bool_decide (on = []) || bool_decide (upd = []) || bool_decide (ins = [])
          then failed "syntax_error" db
          else if negb (subset_of (on ++ upd ++ ins) (t_columns t) &&
                        subset_of (on ++ upd ++ ins) (t_columns s))
          then failed "undefined_column" db
          else
            match merge_matched (t_columns t) (t_columns s) on upd
                                (t_rows s) (t_rows t) with
            | None => failed "cardinality_violation" db
            | Some kept =>
                let rows' :=
                  kept ++ merge_not_matched (t_columns t) (t_columns s) on ins
                                            (t_rows s) (t_rows t) in
                if constraints_ok (t_columns t) (t_not_null t)
                                  (keys_on db schema table_name) rows'
                then (Ok [], store db (Some schema) table_name (with_rows t rows'))
                else failed "integrity_constraint_violation" db
            end
      | _, _ => failed "undefined_table" db
      end
  | TruncateTable tmp =>
      match temporary db !! tmp with
      | Some t => (Ok [], store db None tmp (with_rows t []))
      | None => failed "undefined_table" db
      end
  | DeleteWhere schema table_name column value =>
      match relations db !! (schema, table_name) with
      | None => failed "undefined_table" db
      | Some t =>
          if bool_decide (column ∈ t_columns t)
          then (Ok [],
                store db (Some schema) table_name
                      (with_rows t
                         (List.filter
                            (fun r => negb (sql_eq (cell (t_columns t) r column) value))
                            (t_rows t))))
          else failed "undefined_column" db
      end
  | SelectMaxUpdatedAt schema =>
      match relations db !! (schema, "conversations") with
      | None => failed "undefined_table" db
      | Some t =>
          if bool_decide ("updated_at" ∈ t_columns t)
          then
            (Ok [[JNum (default 0%Z (max_column (t_columns t) "updated_at" (t_rows t)))]],
             db)
          else failed "undefined_column" db
      end
  end.

(** The cursor of an open connection: the session's view of the database and
    every statement the program has issued through it, in order. *)
Record Cursor : Type := mkCursor {
  view : Database;
  issued : list statement
}.

(** [cur.execute(sql, params)] followed by the fetch of its rows;
    [with cur.copy(sql) as cp: cp.write_row(...)] for [Copy]. *)
Definition cur_execute (stmt : statement) : M Cursor (list (list json)) :=
  fun cur =>
    let '(r, db) := exec stmt (view cur) in
    (r, {| view := db; issued := issued cur ++ [stmt] |}).

(** *** Vocabulary of the merge *)

Section MergeVocabulary.
Context (tcols scols on upd : list string).

(** What [merge_matched] does to one target row [t], giving [t1]. *)
Definition kept_as (source : list (list json)) (t t1 : list json) : Prop :=
  (List.filter (row_matches tcols scols on t) source = [] /\ t1 = t) \/
  (exists s, List.filter (row_matches tcols scols on t) source = [s] /\
             t1 = updated_row tcols scols upd t s).

(** A target row that a merge of [source] leaves as it is. *)
Definition settled (source : list (list json)) (t1 : list json) : Prop :=
  List.filter (row_matches tcols scols on t1) source = [] \/
  (exists s, List.filter (row_matches tcols scols on t1) source = [s] /\
             updated_row tcols scols upd t1 s = t1).

Definition key_not_null (t1 : list json) : Prop :=
  forall c, c ∈ on -> cell tcols t1 c <> JNull.

(** A source row joined with no row of [target]. *)
Definition unmatched (target : list (list json)) (s : list json) : bool :=
  negb (existsb (fun t => row_matches tcols scols on t s) target).

End MergeVocabulary.
Arguments key_not_null tcols on t1 : clear implicits.
Arguments unmatched tcols scols on target s : clear implicits.

(** The staging table [tmp] of a merge into the table [t], once [create
    temporary table if not exists] has run: the session's table of that
    name if it has one, else a new table like [t]. *)
Definition staging (db : Database) (schema table_name tmp : string) (t : table)
  : table :=
  default {| t_columns := t_columns t;
             t_not_null := t_not_null t ++ concat (keys_on db schema table_name);
             t_rows := [] |}
          (temporary db !! tmp).

(** What [copy] and [merge] check before they touch a row. *)
Definition copy_accepts (s : table) (cols : list string) (rows : list (list json)) : Prop :=
  cols <> [] /\ subset_of cols (t_columns s) = true /\
  forallb (fun r => bool_decide (length r = length cols)) rows = true.

(** No foreign key of the schema bears the name of a primary key of the
    table: the key-column query, asked for such a key, lists the columns of
    that key and no other. *)
Definition key_listed_alone (db : Database) (schema table_name : string) : Prop :=
  forall k e, k ∈ foreign_keys db -> e ∈ constraints_on db schema table_name ->
              fk_schema k = schema -> fk_name k <> e.1.2.

Definition merge_accepts (t s : table) (on upd ins : list string) : Prop :=
  bool_decide (on = []) || bool_decide (upd = []) || bool_decide (ins = []) = false /\
  subset_of (on ++ upd ++ ins) (t_columns t) &&
  subset_of (on ++ upd ++ ins) (t_columns s) = true.

(** The permanent table a statement can change. *)
Definition target (stmt : statement) : option (string * string) :=
  match stmt with
  | Copy (Some schema) table_name _ _
  | MergeInto schema table_name _ _ _ _
  | DeleteWhere schema table_name _ _ => Some (schema, table_name)
  | _ => None
  end.

(** The permanent table [k] as the cursor's session sees it. *)
Definition relation_at (k : string * string) (cur : Cursor) : option table :=
  relations (view cur) !! k.

(** [outside P db db']: the databases have the same primary keys and the
    same permanent tables, but for the tables in [P]. *)
Definition outside (P : string * string -> Prop) : relation Database :=
  fun db db' =>
    primary_keys db' = primary_keys db /\
    forall k, ~ P k -> relations db' !! k = relations db !! k.

(** The same of what two cursors see. *)
Definition session_outside (P : string * string -> Prop) : relation Cursor :=
  fun cur cur' => outside P (view cur) (view cur').

End Postgres.

(** ** The bulk loader ([database/database_operations.py])

    Every function takes the cursor [cur]; here it is the state.  The
    module's logging is all at debug level and is left out. *)

Module DatabaseOperations.
Import Postgres.

(** Instantiating [MissingPrimaryKeyException]: the class of
    [database/exceptions.py] declares [__init__(self, msg)], so that it can
    only be instantiated with one argument; any other call is a
    [TypeError]. *)
Definition new_MissingPrimaryKeyException (args : list string) : exn :=
  match args with
  | [msg] => MissingPrimaryKeyException msg
  | _ =>
      TypeError
        "MissingPrimaryKeyException.__init__() missing 1 required positional argument: 'msg'"
  end.

(** [with cur.copy(...) as cp], and [cp.write_row(rec)] for each record of
    [df.convert_dtypes().to_records(index=False)]: one [Copy], whose rows go
    through the driver. *)
Definition load_dataframe_to_table (schema_name : option string)
           (table_name : string) (df : DataFrame) : M Cursor unit :=
  if bool_decide (len df = 0%nat) then ret tt
  else
    let columns := df_columns df in
    cur_execute (Copy schema_name table_name columns (df_records df)) ;>
    ret tt.

(** [raise MissingPrimaryKeyException] names the class alone: Python
    instantiates it with no argument. *)
Definition get_primary_key_name (schema_name table_name : string)
  : M Cursor json :=
  let* fetched := cur_execute (SelectPrimaryKeyCount schema_name table_name) in
  match fetched with
  | sql_results :: _ =>
      if negb (bool_decide (nth 0 sql_results JNull = JNum 1))
      then raise (new_MissingPrimaryKeyException [])
      else ret (nth 1 sql_results JNull)
  | [] => raise (TypeError "'NoneType' object is not subscriptable")
  end.

Definition get_key_columns (schema_name : string) (key_name : json)
  : M Cursor (list string) :=
  let* fetched := cur_execute (SelectKeyColumns schema_name key_name) in
  ret (omap (fun row => match row with JStr c :: _ => Some c | _ => None end)
            fetched).

Definition merge_dataframe_into_table (schema_name table_name : string)
           (df : DataFrame) : M Cursor unit :=
  if bool_decide (len df = 0%nat) then ret tt
  else
    let* pk_name := get_primary_key_name schema_name table_name in
    let* pk_columns := get_key_columns schema_name pk_name in
    let non_pk_columns :=
      List.filter (fun col => negb (bool_decide (col ∈ pk_columns))) (df_columns df) in
    let tmp_table_name := ("tmp_" ++ table_name)%string in
    cur_execute (CreateTemporaryTableLike tmp_table_name schema_name table_name) ;>
    load_dataframe_to_table None tmp_table_name df ;>
    cur_execute (MergeInto schema_name table_name tmp_table_name
                           pk_columns non_pk_columns (df_columns df)) ;>
    cur_execute (TruncateTable tmp_table_name) ;>
    ret tt.

(** The statements of a merge that goes through, in the order
    [merge_dataframe_into_table] and the functions it calls issue them;
    [pk_name] and [pk_columns] are what the two catalog queries returned. *)
Definition merge_statements (schema_name table_name : string) (df : DataFrame)
           (pk_name : string) (pk_columns : list string) : list statement :=
  let tmp := ("tmp_" ++ table_name)%string in
  [ SelectPrimaryKeyCount schema_name table_name;
    SelectKeyColumns schema_name (JStr pk_name);
    CreateTemporaryTableLike tmp schema_name table_name;
    Copy None tmp (df_columns df) (df_records df);
    MergeInto schema_name table_name tmp pk_columns
              (List.filter (fun col => negb (bool_decide (col ∈ pk_columns)))
                           (df_columns df))
              (df_columns df);
    TruncateTable tmp ].

(** The row [row] of a table with header [tcols] holds what the record [rec]
    of a frame with header [cols] holds, column by column. *)
Definition agrees (tcols cols : list string) (row rec : list json) : Prop :=
  forall c, c ∈ cols -> cell tcols row c = cell cols rec c.

End DatabaseOperations.

(** ** The retrying API client ([intercom/api.py]) *)

Module Intercom.

(** The filter tree of a search request: [{"field", "operator", "value"}]
    or [{"operator": "AND" | "OR", "value": [...]}]. *)
#[local] Unset Elimination Schemes.
Inductive query : Type :=
| Field (field operator : string) (value : Z)
| Group (operator : string) (value : list query).
#[local] Set Elimination Schemes.

(** The JSON body of a search request; [pagination] is [{"page": n}]. *)
Record search_payload : Type := mkSearchPayload {
  sp_query : query;
  sp_pagination : option Z
}.

(** One entry of a search result, with the fields the client reads:
    [conv["id"]], [conv["updated_at"]], [conv["source"]["type"]]. *)
Record conversation_summary : Type := mkSummary {
  conv_id : string;
  conv_updated_at : Z;
  conv_source_type : string
}.

(** A search response: its [Status] header, when it has one, and, of the
    body, [conversations] and [pages.total_pages].  The body is read only
    after a success status, and is taken to be the JSON object the API
    documents for this endpoint. *)
Record search_response : Type := mkSearchResponse {
  sr_status : option string;
  sr_conversations : list conversation_summary;
  sr_total_pages : Z
}.

(** The response to the request of one conversation: its [Status] header,
    when it has one, and what [response.json()] gives, which is read only
    after a success status. *)
Record detail_response : Type := mkDetailResponse {
  dr_status : option string;
  dr_json : json
}.

(** What the client does to the outside, in order: requests with the
    responses they got, sleeps, and its log records (info and error). *)
Inductive event : Type :=
| Post (payload : search_payload) (response : search_response)
| Get (conversation_id : string) (response : detail_response)
| Sleep (seconds : Z)
| LogQueryFailed
| LogUnableToQuery.

(** The remote source: what it answers to a request may depend on all that
    happened before (it is live and mutating); every request is answered.
    [history] is what this client has done so far. *)
Record Remote : Type := mkRemote {
  search : list event -> search_payload -> search_response;
  conversation : list event -> string -> detail_response;
  history : list event
}.

Definition record_event (e : event) (r : Remote) : Remote :=
  {| search := search r; conversation := conversation r;
     history := history r ++ [e] |}.

(** [requests.post(url, json=payload, headers=headers)] on the search
    endpoint. *)
Definition requests_post (payload : search_payload) : M Remote search_response :=
  fun r =>
    let response := search r (history r) payload in
    (Ok response, record_event (Post payload response) r).

(** [requests.get(url, headers=headers)] on [/conversations/{id}]. *)
Definition requests_get (conversation_id : string) : M Remote detail_response :=
  fun r =>
    let response := conversation r (history r) conversation_id in
    (Ok response, record_event (Get conversation_id response) r).

(** [time.sleep(seconds)]: a negative length is a [ValueError]. *)
Definition time_sleep (seconds : Z) : M Remote unit :=
  if (seconds <? 0)%Z then raise (ValueError "sleep length must be non-negative")
  else fun r => (Ok tt, record_event (Sleep seconds) r).

Definition logger (e : event) : M Remote unit :=
  fun r => (Ok tt, record_event e r).

Definition diverge {S A} : M S A := fun s => (Diverge, s).

(** [response.headers['Status']]: the subscript raises [KeyError] when the
    response has no such header (the headers of a response are looked up in
    lower case). *)
Definition headers_Status {S} (status : option string) : M S string :=
  match status with
  | Some value => ret value
  | None => raise (KeyError "status")
  end.

(** The response has the header [Status: 200 OK]: what
    [response.headers['Status'] == "200 OK"] evaluates to where the
    subscript returns. *)
Definition is_200_OK (status : option string) : bool :=
  match status with
  | Some value => String.eqb value "200 OK"
  | None => false
  end.

(** [conv["source"]["type"] == "conversation"] *)
Definition is_conversation (conv : conversation_summary) : bool :=
  String.eqb (conv_source_type conv) "conversation".

(** [max(values) if len(values) > 0 else None] *)
Definition max_or_None (values : list Z) : option Z :=
  match values with
  | [] => None
  | v :: rest => Some (fold_left Z.max rest v)
  end.

(** The request of [get_conversation_max_updated_timestamp]. *)
Definition max_updated_payload (start_timestamp : Z) : search_payload :=
  {| sp_query := Field "updated_at" ">" start_timestamp;
     sp_pagination := None |}.

(** The [while failed_attempts <= retries: ... else: raise] loop of
    [get_conversation_max_updated_timestamp]; it leaves with the successful
    response.  [fuel] bounds the iterations. *)
Fixpoint max_updated_loop (fuel : nat) (start_timestamp retries backoff : Z)
         (failed_attempts : Z) : M Remote search_response :=
  if (failed_attempts <=? retries)%Z then
    match fuel with
    | O => diverge
    | S fuel' =>
        let payload := max_updated_payload start_timestamp in
        let* response := requests_post payload in
        let* status := headers_Status (sr_status response) in
        if String.eqb status "200 OK" then ret response
        else
          logger LogQueryFailed ;>
          time_sleep backoff ;>
          max_updated_loop fuel' start_timestamp retries backoff (failed_attempts + 1)
    end
  else
    logger LogUnableToQuery ;>
    raise APIErrorException.

Definition get_conversation_max_updated_timestamp
           (start_timestamp retries backoff : Z) : M Remote (option Z) :=
  let failed_attempts := 0%Z in
  let* response :=
    max_updated_loop (Z.to_nat (retries + 1)) start_timestamp retries backoff
                     failed_attempts in
  let updated_at_values :=
    map conv_updated_at (List.filter is_conversation (sr_conversations response)) in
  let max_updated_at := max_or_None updated_at_values in
  ret max_updated_at.

(** [get_payload(page)] of
    [get_conversation_ids_last_updated_between_timestamps]. *)
Definition get_payload (start_timestamp end_timestamp page : Z) : search_payload :=
  {| sp_query :=
       Group "AND"
         [ Field "updated_at" ">" start_timestamp;
           Group "OR"
             [ Field "updated_at" "=" end_timestamp;
               Field "updated_at" "<" end_timestamp ] ];
     sp_pagination := Some page |}.

(** The first loop: page 1 is requested until a response succeeds; it leaves
    with [total_pages] and the failures counted so far. *)
Fixpoint total_pages_loop (fuel : nat) (start_timestamp end_timestamp : Z)
         (retries backoff : Z) (failed_attempts : Z) : M Remote (Z * Z) :=
  if (failed_attempts <=? retries)%Z then
    match fuel with
    | O => diverge
    | S fuel' =>
        let payload := get_payload start_timestamp end_timestamp 1 in
        let* response := requests_post payload in
        let* status := headers_Status (sr_status response) in
        if String.eqb status "200 OK" then
          let total_pages := sr_total_pages response in
          ret (total_pages, failed_attempts)
        else
          logger LogQueryFailed ;>
          time_sleep backoff ;>
          total_pages_loop fuel' start_timestamp end_timestamp retries backoff
                           (failed_attempts + 1)
    end
  else
    logger LogUnableToQuery ;>
    raise APIErrorException.

(** The second loop, from [current_page = total_pages] down. *)
Fixpoint pages_loop (fuel : nat) (start_timestamp end_timestamp : Z)
         (retries backoff : Z) (failed_attempts current_page : Z)
         (conversation_ids : list string) : M Remote (list string) :=
  if (failed_attempts <=? retries)%Z then
    match fuel with
    | O => diverge
    | S fuel' =>
        let payload := get_payload start_timestamp end_timestamp current_page in
        let* response := requests_post payload in
        let* status := headers_Status (sr_status response) in
        if String.eqb status "200 OK" then
          let new_conversation_ids :=
            map conv_id (List.filter is_conversation (sr_conversations response)) in
          let conversation_ids := conversation_ids ++ new_conversation_ids in
          if (1 <? current_page)%Z then
            pages_loop fuel' start_timestamp end_timestamp retries backoff
                       failed_attempts (current_page - 1) conversation_ids
          else ret conversation_ids
        else
          logger LogQueryFailed ;>
          time_sleep backoff ;>
          pages_loop fuel' start_timestamp end_timestamp retries backoff
                     (failed_attempts + 1) current_page conversation_ids
    end
  else
    logger LogUnableToQuery ;>
    raise APIErrorException.

Definition get_conversation_ids_last_updated_between_timestamps
           (start_timestamp end_timestamp retries backoff : Z)
  : M Remote (list string) :=
  let failed_attempts := 0%Z in
  let conversation_ids := [] in
  let* '(total_pages, failed_attempts) :=
    total_pages_loop (Z.to_nat (retries + 1)) start_timestamp end_timestamp
                     retries backoff failed_attempts in
  let current_page := total_pages in
  pages_loop (Z.to_nat (retries + 1 - failed_attempts) + Z.to_nat (current_page - 1))
             start_timestamp end_timestamp retries backoff
             failed_attempts current_page conversation_ids.

(** The loop of [get_conversation_details]; a success returns the body. *)
Fixpoint details_loop (fuel : nat) (conversation_id : string)
         (retries backoff : Z) (failed_attempts : Z) : M Remote json :=
  if (failed_attempts <=? retries)%Z then
    match fuel with
    | O => diverge
    | S fuel' =>
        let* response := requests_get conversation_id in
        let* status := headers_Status (dr_status response) in
        if String.eqb status "200 OK" then ret (dr_json response)
        else
          logger LogQueryFailed ;>
          time_sleep backoff ;>
          details_loop fuel' conversation_id retries backoff (failed_attempts + 1)
    end
  else
    logger LogUnableToQuery ;>
    raise APIErrorException.

Definition get_conversation_details (conversation_id : string)
           (retries backoff : Z) : M Remote json :=
  let failed_attempts := 0%Z in
  details_loop (Z.to_nat (retries + 1)) conversation_id retries backoff
               failed_attempts.

(** What the remote source means by a filter, on the one field the client
    filters by: whether an entity changed at [updated_at] is selected. *)
Fixpoint selects (q : query) (updated_at : Z) : bool :=
  match q with
  | Field field operator value =>
      String.eqb field "updated_at" &&
      (if String.eqb operator ">" then (value <? updated_at)%Z
       else if String.eqb operator "<" then (updated_at <? value)%Z
       else if String.eqb operator "=" then (updated_at =? value)%Z
       else false)
  | Group operator value =>
      if String.eqb operator "AND" then forallb (fun q' => selects q' updated_at) value
      else if String.eqb operator "OR" then existsb (fun q' => selects q' updated_at) value
      else false
  end.

(** *** Vocabulary of the client's contract *)

(** An attempt: a request to the remote source. *)
Definition is_request (e : event) : bool :=
  match e with
  | Post _ _ | Get _ _ => true
  | _ => false
  end.


(** The response has a [Status] header, and it is not [200 OK]. *)
Definition is_failure (status : option string) : bool :=
  match status with
  | Some value => negb (String.eqb value "200 OK")
  | None => false
  end.

(** A failed request, as the client counts them: one answered with a
    [Status] header other than [200 OK]. *)
Definition is_failed_request (e : event) : bool :=
  match e with
  | Post _ response => is_failure (sr_status response)
  | Get _ response => is_failure (dr_status response)
  | _ => false
  end.

Definition failures (h : list event) : nat :=
  length (List.filter is_failed_request h).

(** [failed_rounds request backoff n h]: the history [h] is [n] failed
    rounds, each a request of the kind [request], the log record of the
    failure and one sleep of [backoff]. *)
Inductive failed_rounds (request : event -> Prop) (backoff : Z)
  : nat -> list event -> Prop :=
| failed_rounds_O : failed_rounds request backoff 0 []
| failed_rounds_S n e h :
    request e ->
    is_failed_request e = true ->
    failed_rounds request backoff n h ->
    failed_rounds request backoff (S n) (e :: LogQueryFailed :: Sleep backoff :: h).

Definition is_post_of (payload : search_payload) (e : event) : Prop :=
  exists response, e = Post payload response.

Definition is_get_of (conversation_id : string) (e : event) : Prop :=
  exists response, e = Get conversation_id response.

(** Every response of the remote source has a [Status] header. *)
Definition has_status (r : Remote) : Prop :=
  (forall h payload, sr_status (search r h payload) <> None) /\
  (forall h id, dr_status (conversation r h id) <> None).

(** No response of the remote source ever indicates success: each has a
    [Status] header, and none is [200 OK]. *)
Definition never_succeeds (r : Remote) : Prop :=
  (forall h payload, is_failure (sr_status (search r h payload)) = true) /\
  (forall h id, is_failure (dr_status (conversation r h id)) = true).

(** Every response of the remote source indicates success. *)
Definition always_succeeds (r : Remote) : Prop :=
  (forall h payload, is_200_OK (sr_status (search r h payload)) = true) /\
  (forall h id, is_200_OK (dr_status (conversation r h id)) = true).

(** The successful search exchanges of a history, in order. *)
Definition successes (h : list event) : list (search_payload * search_response) :=
  omap (fun e =>
          match e with
          | Post payload response =>
              if is_200_OK (sr_status response) then Some (payload, response)
              else None
          | _ => None
          end) h.

(** Every request of a history is a search of the window [(start, end_]]. *)
Definition searches_window (start end_ : Z) (h : list event) : Prop :=
  Forall (fun e => is_request e = true ->
                   exists page response, e = Post (get_payload start end_ page) response)
         h.

(** The identifiers the client takes from one page. *)
Definition page_ids (response : search_response) : list string :=
  map conv_id (List.filter is_conversation (sr_conversations response)).

(** [c; c - 1; ...] for [n + 1] pages. *)
Fixpoint down_from (n : nat) (c : Z) : list Z :=
  match n with
  | O => [c]
  | S n' => c :: down_from n' (c - 1)
  end.

(** The pages the second loop fetches when it starts at [total_pages]:
    [total_pages; ...; 1]; the loop requests a page before it tests
    [current_page > 1], so that below 1 this is [total_pages] alone. *)
Definition pages_down_from (total_pages : Z) : list Z :=
  down_from (Z.to_nat (total_pages - 1)) total_pages.

(** The history of [r'] continues that of [r]. *)
Definition extends (r r' : Remote) : Prop :=
  exists h, history r' = history r ++ h.

End Intercom.

(** ** The conversation pipeline ([intercom/conversation/]) *)

Module Conversation.
Import Postgres DatabaseOperations Intercom PipelineEngine.

(** How a connection ended or began, in order. *)
Inductive connection_event : Type :=
| Connected
| Committed
| RolledBack.

(** Everything the steps act on: the remote source, what the database holds
    durably (what a new connection sees), the connection and cursor the
    pre-execution step attaches to the pipeline object ([pipeline.conn],
    [pipeline.cur]; every payload's [cur] is that same cursor), and the
    connection's history. *)
Record World : Type := mkWorld {
  remote : Remote;
  committed : Database;
  conn : option Cursor;
  connection_log : list connection_event
}.

(** The attribute bag of one work unit.  [api_data] and the dataframes do
    not exist until a step attaches them; the dataframes are kept by
    attribute name. *)
Record Payload : Type := mkPayload {
  conversation_id : string;
  start_timestamp : Z;
  end_timestamp : Z;
  db_schema : string;
  api_data : option json;
  frames : gmap string DataFrame
}.

Definition on_remote {A} (m : M Remote A) : M World A :=
  fun w =>
    let '(r, rm) := m (remote w) in
    (r, {| remote := rm; committed := committed w; conn := conn w;
           connection_log := connection_log w |}).

(** A call through [pipeline.cur] (or [payload.cur]). *)
Definition on_cursor {A} (m : M Cursor A) : M World A :=
  fun w =>
    match conn w with
    | None => (Raise (AttributeError "cur"), w)
    | Some cur =>
        let '(r, cur') := m cur in
        (r, {| remote := remote w; committed := committed w; conn := Some cur';
               connection_log := connection_log w |})
    end.

Definition on_attrs {A} (m : M World A) : M (Pipeline Payload World) A :=
  fun p =>
    let '(r, w) := m (attrs p) in
    (r, {| payloads := payloads p; attrs := w |}).

Definition on_world {A} (m : M World A) : M (Payload * World) A :=
  fun s =>
    let '(r, w) := m s.2 in
    (r, (s.1, w)).

Definition the_payload : M (Payload * World) Payload :=
  fun s => (Ok s.1, s).

Definition set_payload (f : Payload -> Payload) : M (Payload * World) unit :=
  fun s => (Ok tt, (f s.1, s.2)).

(** *** [pre_execution_steps.py] *)

(** The tables of a database without the temporary ones: what a new
    session sees of the committed store, and what a commit keeps of the
    session (every temporary table is created [on commit drop]). *)
Definition session_view (stored : Database) : Database :=
  {| relations := relations stored;
     primary_keys := primary_keys stored;
     foreign_keys := foreign_keys stored;
     temporary := ∅;
     adapts := adapts stored |}.

(** [get_db_connection()] and [conn.cursor()]: a new session sees what is
    committed and has no temporary table. *)
Definition get_db_connection : M World unit :=
  fun w =>
    (Ok tt,
     {| remote := remote w; committed := committed w;
        conn := Some {| view := session_view (committed w); issued := [] |};
        connection_log := connection_log w ++ [Connected] |}).

Definition GetDatabaseConnection_execute : M (Pipeline Payload World) unit :=
  on_attrs get_db_connection.

(** The defaults [retries: int = 5, backoff=5] of the API functions: no
    caller passes them. *)
Definition default_retries : Z := 5.
Definition default_backoff : Z := 5.

Definition GetPayloads_execute : M (Pipeline Payload World) unit :=
  let db_schema := "intercom" in
  let* fetched := on_attrs (on_cursor (cur_execute (SelectMaxUpdatedAt db_schema))) in
  match fetched with
  | (JNum start_timestamp :: _) :: _ =>
      let* end_timestamp :=
        on_attrs (on_remote (get_conversation_max_updated_timestamp
                               start_timestamp default_retries default_backoff)) in
      match end_timestamp with
      | None =>
          raise (StopPipelineException
                   "No updates to conversations found, stopping pipeline.")
      | Some end_timestamp =>
          let* updated_conversation_ids :=
            on_attrs (on_remote (get_conversation_ids_last_updated_between_timestamps
                                   start_timestamp end_timestamp
                                   default_retries default_backoff)) in
          let payloads :=
            map (fun conversation_id =>
                   {| conversation_id := conversation_id;
                      start_timestamp := start_timestamp;
                      end_timestamp := end_timestamp;
                      db_schema := db_schema;
                      api_data := None;
                      frames := ∅ |})
                updated_conversation_ids in
          fun p => (Ok tt, {| PipelineEngine.payloads := Some payloads; attrs := attrs p |})
      end
  | _ => raise (TypeError "start_timestamp is not a number")
  end.

(** *** [pipeline_steps.py] *)

Definition RetrieveApiData_execute : M (Payload * World) unit :=
  let* payload := the_payload in
  let* data :=
    on_world (on_remote (get_conversation_details (conversation_id payload)
                                                  default_retries default_backoff)) in
  set_payload (fun p =>
    {| conversation_id := conversation_id p; start_timestamp := start_timestamp p;
       end_timestamp := end_timestamp p; db_schema := db_schema p;
       api_data := Some data; frames := frames p |}).

(** [obj[key]] on a parsed JSON value. *)
Definition getitem {S} (obj : json) (key : string) : M S json :=
  match obj with
  | JObj fields =>
      match List.find (fun kv => String.eqb kv.1 key) fields with
      | Some kv => ret kv.2
      | None => raise (KeyError key)
      end
  | JNull => raise (TypeError "'NoneType' object is not subscriptable")
  | _ => raise (TypeError "object is not subscriptable with a string")
  end.

(** [repr(x)] and [str(x)], up to the escapes of string literals. *)
Fixpoint py_repr (j : json) : string :=
  match j with
  | JNull => "None"
  | JBool true => "True"
  | JBool false => "False"
  | JNum n => pretty n
  | JStr s => "'" ++ s ++ "'"
  | JArr items => "[" ++ String.concat ", " (map py_repr items) ++ "]"
  | JObj fields =>
      "{" ++ String.concat ", "
                (map (fun kv => "'" ++ kv.1 ++ "': " ++ py_repr kv.2) fields) ++ "}"
  end%string.

Definition py_str (j : json) : string :=
  match j with
  | JStr s => s
  | _ => py_repr j
  end.

(** [min(x, end_timestamp)] for a JSON value [x] and an integer. *)
Definition py_min {S} (x : json) (y : Z) : M S json :=
  match x with
  | JNum n => ret (JNum (Z.min n y))
  | _ => raise (TypeError "'<' not supported between instances")
  end.

(** A dict display [{'k1': e1, 'k2': e2, ...}]: the values are evaluated in
    order. *)
Fixpoint dict_of {S} (items : list (string * M S json))
  : M S (list (string * json)) :=
  match items with
  | [] => ret []
  | (k, e) :: rest =>
      let* v := e in
      let* others := dict_of rest in
      ret ((k, v) :: others)
  end.

(** A list comprehension [[f(x) for x in items]]. *)
Fixpoint comprehension {S A} (f : json -> M S A) (items : list json)
  : M S (list A) :=
  match items with
  | [] => ret []
  | x :: rest =>
      let* r := f x in
      let* others := comprehension f rest in
      ret (r :: others)
  end.

(** ['k': obj['k']] for each listed key. *)
Definition copied {S} (obj : json) (keys : list string)
  : list (string * M S json) :=
  map (fun k => (k, getitem obj k)) keys.

(** ['k': str(obj['k'])] *)
Definition flattened {S} (obj : json) (key : string) : string * M S json :=
  (key, let* v := getitem obj key in ret (JStr (py_str v))).

(** [[{...}] if payload.api_data[key] is not None else []], the dict built
    from the sub-object. *)
Definition optional_record {S} (api_data : json) (key : string)
           (items : json -> list (string * M S json))
  : M S (list (list (string * json))) :=
  let* sub := getitem api_data key in
  if bool_decide (sub = JNull) then ret []
  else
    let* r := dict_of (items sub) in
    ret [r].

Definition attach (name : string) (df : DataFrame) : M (Payload * World) unit :=
  set_payload (fun p =>
    {| conversation_id := conversation_id p; start_timestamp := start_timestamp p;
       end_timestamp := end_timestamp p; db_schema := db_schema p;
       api_data := api_data p; frames := <[name := df]> (frames p) |}).

(** [payload.api_data] *)
Definition the_api_data : M (Payload * World) json :=
  let* payload := the_payload in
  match api_data payload with
  | Some d => ret d
  | None => raise (AttributeError "api_data")
  end.

Definition ParseApiData_execute : M (Payload * World) unit :=
  let* payload := the_payload in
  let id := ("conversation_id", ret (JStr (conversation_id payload))) in
  let* d := the_api_data in
  let* conversations :=
    dict_of (copied d ["type"; "id"; "title"; "created_at"] ++
             [("updated_at",
               let* u := getitem d "updated_at" in
               py_min u (end_timestamp payload))] ++
             copied d ["waiting_since"; "snoozed_until"; "open"; "state"; "read";
                       "priority"; "admin_assignee_id"; "team_assignee_id"]) in
  attach "conversations" (pd_DataFrame [conversations]) ;>
  let* conversation_tags :=
    optional_record d "tags"
      (fun sub => id :: copied sub ["type"] ++ [flattened sub "tags"]) in
  attach "conversation_tags" (pd_DataFrame conversation_tags) ;>
  let* conversation_ratings :=
    optional_record d "conversation_rating"
      (fun sub => id :: copied sub ["rating"; "remark"; "created_at"] ++
                  [flattened sub "contact"; flattened sub "teammate"]) in
  attach "conversation_ratings" (pd_DataFrame conversation_ratings) ;>
  let* conversation_sources :=
    optional_record d "source"
      (fun sub => id :: copied sub ["type"; "id"; "delivered_as"; "subject"; "body"] ++
                  [flattened sub "author"; flattened sub "attachments"] ++
                  copied sub ["url"; "redacted"]) in
  attach "conversation_sources" (pd_DataFrame conversation_sources) ;>
  let* conversation_contacts :=
    optional_record d "contacts"
      (fun sub => id :: copied sub ["type"] ++ [flattened sub "contacts"]) in
  attach "conversation_contacts" (pd_DataFrame conversation_contacts) ;>
  let* conversation_teammates :=
    optional_record d "teammates"
      (fun _ => [id; flattened d "teammates"]) in
  attach "conversation_teammates" (pd_DataFrame conversation_teammates) ;>
  let* conversation_first_contact_replies :=
    optional_record d "first_contact_reply"
      (fun sub => id :: copied sub ["created_at"; "type"; "url"]) in
  attach "conversation_first_contact_replies"
         (pd_DataFrame conversation_first_contact_replies) ;>
  let* conversation_sla_applied :=
    optional_record d "sla_applied"
      (fun sub => id :: copied sub ["sla_name"; "sla_status"]) in
  attach "conversation_sla_applied" (pd_DataFrame conversation_sla_applied) ;>
  let* conversation_statistics :=
    optional_record d "statistics"
      (fun sub =>
         id :: copied sub
           ["time_to_assignment"; "time_to_admin_reply"; "time_to_first_close";
            "time_to_last_close"; "median_time_to_reply"; "first_contact_reply_at";
            "first_assignment_at"; "first_admin_reply_at"; "first_close_at";
            "last_assignment_at"; "last_assignment_admin_reply_at";
            "last_contact_reply_at"; "last_admin_reply_at"; "last_close_at";
            "last_closed_by_id"; "count_reopens"; "count_assignments";
            "count_conversation_parts"]) in
  attach "conversation_statistics" (pd_DataFrame conversation_statistics) ;>
  let* parts := getitem d "conversation_parts" in
  let* conversation_parts :=
    if bool_decide (parts = JNull) then ret []
    else
      let* listed := getitem parts "conversation_parts" in
      match listed with
      | JArr items =>
          comprehension
            (fun part =>
               dict_of (id :: copied part ["type"; "id"; "part_type"; "body";
                                           "created_at"; "updated_at";
                                           "notified_at"; "assigned_to"] ++
                        [flattened part "author"] ++
                        copied part ["attachments"; "external_id"; "redacted"]))
            items
      | _ => raise (TypeError "conversation_parts is not a list")
      end in
  attach "conversation_parts" (pd_DataFrame conversation_parts).

(** [payload.<name>] for a dataframe attribute. *)
Definition the_frame (name : string) : M (Payload * World) DataFrame :=
  let* payload := the_payload in
  match frames payload !! name with
  | Some df => ret df
  | None => raise (AttributeError name)
  end.

(** [payload.cur.execute(f"delete from {payload.db_schema}.table where
    column = %s", (payload.conversation_id,))] followed by
    [load_dataframe_to_table(..., table_name=table, df=payload.table, ...)]. *)
Definition delete_then_load (table_name column : string) : M (Payload * World) unit :=
  let* payload := the_payload in
  on_world (on_cursor (cur_execute
    (DeleteWhere (db_schema payload) table_name column
                 (JStr (conversation_id payload))))) ;>
  let* df := the_frame table_name in
  on_world (on_cursor (load_dataframe_to_table (Some (db_schema payload)) table_name df)).

Definition LoadToDatabase_execute : M (Payload * World) unit :=
  delete_then_load "conversations" "id" ;>
  delete_then_load "conversation_contacts" "conversation_id" ;>
  delete_then_load "conversation_first_contact_replies" "conversation_id" ;>
  delete_then_load "conversation_ratings" "conversation_id" ;>
  delete_then_load "conversation_sla_applied" "conversation_id" ;>
  delete_then_load "conversation_sources" "conversation_id" ;>
  delete_then_load "conversation_statistics" "conversation_id" ;>
  delete_then_load "conversation_tags" "conversation_id" ;>
  delete_then_load "conversation_teammates" "conversation_id" ;>
  let* payload := the_payload in
  let* df := the_frame "conversation_parts" in
  on_world (on_cursor (merge_dataframe_into_table (db_schema payload)
                                                  "conversation_parts" df)).

(** *** [post_execution_steps.py], [error_handling_steps.py] *)

(** [pipeline.conn.commit()]: the session's tables become the durable ones;
    the temporary tables, all created [on commit drop], go. *)
Definition conn_commit : M World unit :=
  fun w =>
    match conn w with
    | None => (Raise (AttributeError "conn"), w)
    | Some cur =>
        let db := session_view (view cur) in
        (Ok tt, {| remote := remote w; committed := db;
                   conn := Some {| view := db; issued := issued cur |};
                   connection_log := connection_log w ++ [Committed] |})
    end.

(** [pipeline.conn.rollback()]: the session is back at what is committed. *)
Definition conn_rollback : M World unit :=
  fun w =>
    match conn w with
    | None => (Raise (AttributeError "conn"), w)
    | Some cur =>
        (Ok tt, {| remote := remote w; committed := committed w;
                   conn := Some {| view := session_view (committed w);
                                   issued := issued cur |};
                   connection_log := connection_log w ++ [RolledBack] |})
    end.

Definition CommitTransaction_execute : M (Pipeline Payload World) unit :=
  on_attrs conn_commit.

Definition RollbackTransaction_execute : M (Pipeline Payload World) unit :=
  on_attrs conn_rollback.

(** *** [pipeline.py]: the pipeline object and its four step lists *)

Definition GetDatabaseConnection : PreExecutionStep Payload World :=
  mkStep "GetDatabaseConnection" GetDatabaseConnection_execute.
Definition GetPayloads : PreExecutionStep Payload World :=
  mkStep "GetPayloads" GetPayloads_execute.
Definition RetrieveApiData : PipelineStep Payload World :=
  mkStep "RetrieveApiData" RetrieveApiData_execute.
Definition ParseApiData : PipelineStep Payload World :=
  mkStep "ParseApiData" ParseApiData_execute.
Definition LoadToDatabase : PipelineStep Payload World :=
  mkStep "LoadToDatabase" LoadToDatabase_execute.
Definition CommitTransaction : PostExecutionStep Payload World :=
  mkStep "CommitTransaction" CommitTransaction_execute.
Definition RollbackTransaction : ErrorHandlingStep Payload World :=
  mkStep "RollbackTransaction" RollbackTransaction_execute.

Definition pre_execution_steps := [GetDatabaseConnection; GetPayloads].
Definition pipeline_steps := [RetrieveApiData; ParseApiData; LoadToDatabase].
Definition post_execution_steps := [CommitTransaction].
Definition error_handling_steps := [RollbackTransaction].

(** [IntercomConversationPipeline.execute()] *)
Definition IntercomConversationPipeline_execute : M (Run Payload World) unit :=
  execute pre_execution_steps pipeline_steps post_execution_steps
          error_handling_steps.

(** The pipeline object as the module creates it, in a process that has not
    connected yet. *)
Definition IntercomConversationPipeline (source : Remote) (stored : Database)
  : Run Payload World :=
  {| self := {| payloads := None;
                attrs := {| remote := source; committed := stored; conn := None;
                            connection_log := [] |} |};
     logged := [] |}.

(** The watermark of a database: what [select coalesce(max(updated_at), 0)
    from intercom.conversations] returns on it; [None] when the query
    fails. *)
Definition watermark (db : Database) : option Z :=
  match exec (SelectMaxUpdatedAt "intercom") db with
  | (Ok ((JNum n :: _) :: _), _) => Some n
  | _ => None
  end.

(** *** Vocabulary of the watermark *)

(** The pipeline object once [GetDatabaseConnection] has run. *)
Definition connected (source : Remote) (stored : Database)
  : Pipeline Payload World :=
  {| payloads := None;
     attrs := {| remote := source; committed := stored;
                 conn := Some {| view := session_view stored; issued := [] |};
                 connection_log := [Connected] |} |}.

(** The work unit [GetPayloads] creates for one identifier. *)
Definition new_unit (start end_ : Z) (id : string) : Payload :=
  {| conversation_id := id; start_timestamp := start; end_timestamp := end_;
     db_schema := "intercom"; api_data := None; frames := ∅ |}.

(** The table the watermark is read from. *)
Definition conversations_table (db : Database) : option table :=
  relations db !! ("intercom", "conversations").

(** That table as the open session sees it. *)
Definition session_table (w : World) : option table :=
  match conn w with
  | Some cur => conversations_table (view cur)
  | None => None
  end.

(** [d["updated_at"]] of a conversation detail, when it is a number. *)
Definition change_time (d : json) : option Z :=
  match getitem d "updated_at" tt with
  | (Ok (JNum u), _) => Some u
  | _ => None
  end.

(** Every conversation a successful search of [h] lists is one its filter
    selects. *)
Definition honours_filter (h : list event) : Prop :=
  forall payload response conv,
    In (Post payload response) h ->
    is_200_OK (sr_status response) = true ->
    In conv (sr_conversations response) ->
    is_conversation conv = true ->
    selects (sp_query payload) (conv_updated_at conv) = true.

(** No detail served in [h] reports a change time before [start]. *)
Definition details_since (start : Z) (h : list event) : Prop :=
  forall id response u,
    In (Get id response) h ->
    is_200_OK (dr_status response) = true ->
    change_time (dr_json response) = Some u ->
    (start <= u)%Z.

(** The answers of [h] are those of a source that applies the filters it is
    sent and reports, for the conversations it details, no change time
    before [start]. *)
Definition honest (start : Z) (h : list event) : Prop :=
  honours_filter h /\ details_since start h.

(** What the invariant of a run reads of a unit and the world. *)
Definition footprint (x : Payload * World) :=
  (end_timestamp x.1, db_schema x.1, api_data x.1,
   frames x.1 !! "conversations", history (remote x.2), session_table x.2).

(** The invariant of a run that started at the watermark [start] of the
    table [t0] and resolved [end_]; [base] is the history when the window was
    resolved and [n] the length of the history when the run began. *)
Section RunInvariant.
Context (start end_ : Z) (t0 : table) (base : list event) (n : nat).

(** [coalesce(max(updated_at), 0)] over rows of the table. *)
Definition max_updated_at (rows : list (list json)) : Z :=
  default 0%Z (max_column (t_columns t0) "updated_at" rows).

(** The table holds rows it held at the start and rows changed at or before
    [end_], and its watermark is past neither [start] nor [end_]. *)
Definition written (t : table) : Prop :=
  t_columns t = t_columns t0 /\
  (forall row, In row (t_rows t) ->
               In row (t_rows t0) \/
               exists v, cell (t_columns t0) row "updated_at" = JNum v /\ (v <= end_)%Z) /\
  (max_updated_at (t_rows t) <= Z.max start end_)%Z.

(** The answers since the run began are honest. *)
Definition answers_honest (h : list event) : Prop := honest start (drop n h).

(** The session sees such a table, the history continues [base] and, the
    answers so far being honest, the window is not empty and the watermark
    is not behind [start]. *)
Definition world_ok (w : World) : Prop :=
  exists t,
    session_table w = Some t /\ written t /\
    (exists h, history (remote w) = base ++ h) /\
    (answers_honest (history (remote w)) ->
     (start < end_)%Z /\ (start <= max_updated_at (t_rows t))%Z).

(** A unit of the run: it carries [end_] and the schema; the detail it
    holds, if any, is not older than [start] (for honest answers), and the
    [conversations] frame it holds, if any, is one row capped at [end_]. *)
Definition unit_ok (w : World) (p : Payload) : Prop :=
  end_timestamp p = end_ /\ db_schema p = "intercom" /\
  (forall d u, api_data p = Some d -> change_time d = Some u ->
               answers_honest (history (remote w)) -> (start <= u)%Z) /\
  (forall df, frames p !! "conversations" = Some df ->
     exists row v,
       df_records df = [row] /\
       cell (df_columns df) row "updated_at" = JNum v /\ (v <= end_)%Z /\
       (answers_honest (history (remote w)) -> (start <= v)%Z)).

(** The invariant: of the world, and of every unit in the queue. *)
Definition run_ok (q : list Payload) (w : World) : Prop :=
  world_ok w /\ Forall (unit_ok w) q.

End RunInvariant.

(** *** Vocabulary of a run's transaction *)

(** The tables [LoadToDatabase] writes, in its order. *)
Definition loaded_tables : list string :=
  ["conversations"; "conversation_contacts"; "conversation_first_contact_replies";
   "conversation_ratings"; "conversation_sla_applied"; "conversation_sources";
   "conversation_statistics"; "conversation_tags"; "conversation_teammates";
   "conversation_parts"].

(** One of these tables in the schema [schema]. *)
Definition destination_table (schema : string) (k : string * string) : Prop :=
  k.1 = schema /\ k.2 ∈ loaded_tables.

(** [in_transaction P w w']: between [w] and [w'] nothing was committed, no
    connection was opened or closed, and the open session changed at most
    the tables in [P]. *)
Definition in_transaction (P : string * string -> Prop) : relation World :=
  fun w w' =>
    committed w' = committed w /\
    connection_log w' = connection_log w /\
    match conn w, conn w' with
    | Some cur, Some cur' => session_outside P cur cur'
    | None, None => True
    | _, _ => False
    end.

(** A relation on the world, for a step that leaves its payload as it is. *)
Definition keeping_payload (RW : relation World) : relation (Payload * World) :=
  fun x x' => x'.1 = x.1 /\ RW x.2 x'.2.

(** A unit and the world, but for the unit's dataframes. *)
Definition beside_frames (x : Payload * World) :=
  (conversation_id x.1, start_timestamp x.1, end_timestamp x.1, db_schema x.1,
   api_data x.1, x.2).

(** [d[key]], when [d] is an object that has the key. *)
Definition item (d : json) (key : string) : option json :=
  match getitem (S:=unit) d key tt with
  | (Ok v, _) => Some v
  | _ => None
  end.

(** The keys of the record [ParseApiData] builds for the conversations
    table, in its order. *)
Definition conversation_keys : list string :=
  ["type"; "id"; "title"; "created_at"; "updated_at"; "waiting_since";
   "snoozed_until"; "open"; "state"; "read"; "priority"; "admin_assignee_id";
   "team_assignee_id"].

(** The dataframes [ParseApiData] fills from an object of the detail that
    can be null, each with the key of its object. *)
Definition optional_frames : list (string * string) :=
  [("conversation_tags", "tags");
   ("conversation_ratings", "conversation_rating");
   ("conversation_sources", "source");
   ("conversation_contacts", "contacts");
   ("conversation_teammates", "teammates");
   ("conversation_first_contact_replies", "first_contact_reply");
   ("conversation_sla_applied", "sla_applied");
   ("conversation_statistics", "statistics")].

End Conversation.

(** ** Concrete inputs

    Small pipelines, remote sources and stores on which the properties
    below are evaluated. *)

Module Examples.
Import PipelineEngine Postgres DatabaseOperations Intercom Conversation.

(** A pipeline over payloads that are a "processed" flag, with no other
    state. *)
Definition flag_run (queue : option (list bool)) : Run bool unit :=
  {| self := {| payloads := queue; attrs := tt |}; logged := [] |}.

(** A pre-execution step that raises an error. *)
Definition Failing : PreExecutionStep bool unit :=
  mkStep "Failing" (raise (OtherException "original")).

(** A pre-execution step that creates an empty queue and then signals the
    early stop. *)
Definition Stopping : PreExecutionStep bool unit :=
  mkStep "Stopping"
         (fun p => (Raise (StopPipelineException "nothing to do"),
                    {| payloads := Some []; attrs := attrs p |})).

(** A step of any phase that does nothing. *)
Definition Quiet : Step (Pipeline bool unit) :=
  mkStep "Quiet" (ret tt).

(** An error-handling step that itself raises. *)
Definition FailingCleanup : ErrorHandlingStep bool unit :=
  mkStep "FailingCleanup" (raise (OtherException "cleanup")).

(** A pre-execution step that queues two units. *)
Definition QueueTwo : PreExecutionStep bool unit :=
  mkStep "QueueTwo"
         (fun p => (Ok tt, {| payloads := Some [false; false]; attrs := attrs p |})).

(** A pipeline step that marks the payload as processed. *)
Definition Touch : PipelineStep bool unit :=
  mkStep "Touch" (fun s => (Ok tt, (true, s.2))).



Definition entry (id : string) (updated_at : Z) : conversation_summary :=
  {| conv_id := id; conv_updated_at := updated_at;
     conv_source_type := "conversation" |}.

Definition found (entries : list conversation_summary) (total_pages : Z)
  : search_response :=
  {| sr_status := Some "200 OK"; sr_conversations := entries;
     sr_total_pages := total_pages |}.

(** A remote source that reports no page, and answers any page with one
    entry. *)
Definition no_pages : Remote :=
  {| search := fun _ _ => found [entry "A" 150] 0;
     conversation := fun _ _ => {| dr_status := Some "200 OK"; dr_json := JNull |};
     history := [] |}.

(** The scenario of the specification: three changed conversations on two
    pages, [C] on page 2 and [A; B] on page 1. *)
Definition two_pages : Remote :=
  {| search := fun _ payload =>
       match sp_pagination payload with
       | Some 2%Z => found [entry "C" 150] 2
       | _ => found [entry "A" 120; entry "B" 130] 2
       end;
     conversation := fun _ _ => {| dr_status := Some "200 OK"; dr_json := JNull |};
     history := [] |}.

(** A driver that adapts every value but a dict. *)
Fixpoint adaptable (value : json) : bool :=
  match value with
  | JObj _ => false
  | JArr items => forallb adaptable items
  | _ => true
  end.

Definition driver (rows : list (list json)) : bool :=
  forallb (forallb adaptable) rows.

(** A destination table of conversation parts, with one row. *)
Definition parts_table : table :=
  {| t_columns := ["conversation_id"; "id"; "body"];
     t_not_null := [];
     t_rows := [[JStr "c1"; JStr "p1"; JStr "old"]] |}.

(** A store whose parts table has one primary key, on [id]. *)
Definition store_with_key : Database :=
  {| relations := {[ ("intercom", "conversation_parts") := parts_table ]};
     primary_keys :=
       {[ ("intercom", "conversation_parts_pkey") :=
            {| pk_table := "conversation_parts"; pk_column := "id";
               pk_more := [] |} ]};
     foreign_keys := [];
     temporary := ∅;
     adapts := driver |}.

(** The same store with no primary key on the parts table. *)
Definition store_without_key : Database :=
  {| relations := {[ ("intercom", "conversation_parts") := parts_table ]};
     primary_keys := ∅;
     foreign_keys := [];
     temporary := ∅;
     adapts := driver |}.

(** The store with the key, after another table of the schema got a foreign
    key that bears the name of the parts' primary key. *)
Definition store_with_namesake : Database :=
  {| relations := relations store_with_key;
     primary_keys := primary_keys store_with_key;
     foreign_keys :=
       [ {| fk_schema := "intercom"; fk_name := "conversation_parts_pkey";
            fk_table := "conversation_notes"; fk_columns := ["conversation_id"];
            fk_first := false |} ];
     temporary := ∅;
     adapts := driver |}.

(** A row-set of two parts: one that is stored already, one that is new. *)
Definition parts_frame : DataFrame :=
  {| df_columns := ["conversation_id"; "id"; "body"];
     df_records := [[JStr "c1"; JStr "p1"; JStr "new"];
                    [JStr "c1"; JStr "p2"; JStr "more"]] |}.

(** A row-set that has the key and one more of the table's columns. *)
Definition bodies_frame : DataFrame :=
  {| df_columns := ["id"; "body"];
     df_records := [[JStr "p1"; JStr "new"]; [JStr "p2"; JStr "more"]] |}.

(** A part without conversation. *)
Definition orphan_frame : DataFrame :=
  {| df_columns := ["conversation_id"; "id"; "body"];
     df_records := [[JNull; JStr "p9"; JStr "lost"]] |}.

Definition fresh_cursor (db : Database) : Cursor :=
  {| view := db; issued := [] |}.

(** An empty table without constraint. *)
Definition empty_table (columns : list string) : table :=
  {| t_columns := columns; t_not_null := []; t_rows := [] |}.

Definition conversations_columns : list string :=
  ["type"; "id"; "title"; "created_at"; "updated_at"; "waiting_since";
   "snoozed_until"; "open"; "state"; "read"; "priority"; "admin_assignee_id";
   "team_assignee_id"].

(** A destination schema for the ten tables the pipeline writes, with the
    columns it writes and a primary key on the parts' [id]; the
    conversations table holds the given rows. *)
Definition destination (conversations : list (list json)) : Database :=
  {| relations :=
       list_to_map
         [ (("intercom", "conversations"),
            {| t_columns := conversations_columns; t_not_null := [];
               t_rows := conversations |});
           (("intercom", "conversation_contacts"),
            empty_table ["conversation_id"; "type"; "contacts"]);
           (("intercom", "conversation_first_contact_replies"),
            empty_table ["conversation_id"; "created_at"; "type"; "url"]);
           (("intercom", "conversation_ratings"),
            empty_table ["conversation_id"; "rating"; "remark"; "created_at";
                         "contact"; "teammate"]);
           (("intercom", "conversation_sla_applied"),
            empty_table ["conversation_id"; "sla_name"; "sla_status"]);
           (("intercom", "conversation_sources"),
            empty_table ["conversation_id"; "type"; "id"; "delivered_as"; "subject";
                         "body"; "author"; "attachments"; "url"; "redacted"]);
           (("intercom", "conversation_statistics"),
            empty_table ["conversation_id"; "count_reopens"]);
           (("intercom", "conversation_tags"),
            empty_table ["conversation_id"; "type"; "tags"]);
           (("intercom", "conversation_teammates"),
            empty_table ["conversation_id"; "teammates"]);
           (("intercom", "conversation_parts"),
            empty_table ["conversation_id"; "type"; "id"; "part_type"; "body";
                         "created_at"; "updated_at"; "notified_at"; "assigned_to";
                         "author"; "attachments"; "external_id"; "redacted"]) ];
     primary_keys :=
       {[ ("intercom", "conversation_parts_pkey") :=
            {| pk_table := "conversation_parts"; pk_column := "id";
               pk_more := [] |} ]};
     foreign_keys := [];
     temporary := ∅;
     adapts := driver |}.

(** The row of conversation [id] last changed at [updated_at]. *)
Definition conversation_row (id : string) (updated_at : Z) : list json :=
  [JStr "conversation"; JStr id; JNull; JNum 1; JNum updated_at; JNull; JNull;
   JBool true; JStr "open"; JBool true; JStr "not_priority"; JNull; JNull].

(** The detail of conversation [id] as the remote source returns it, with
    no part and none of the optional objects. *)
Definition detail (id : string) (updated_at : Z) : json :=
  JObj [("type", JStr "conversation"); ("id", JStr id); ("title", JNull);
        ("created_at", JNum 1); ("updated_at", JNum updated_at);
        ("waiting_since", JNull); ("snoozed_until", JNull); ("open", JBool true);
        ("state", JStr "open"); ("read", JBool true);
        ("priority", JStr "not_priority"); ("admin_assignee_id", JNull);
        ("team_assignee_id", JNull); ("tags", JNull);
        ("conversation_rating", JNull); ("source", JNull); ("contacts", JNull);
        ("teammates", JNull); ("first_contact_reply", JNull);
        ("sla_applied", JNull); ("statistics", JNull);
        ("conversation_parts", JNull)].

(** A remote source whose only changed entity is not a conversation. *)
Definition only_a_ticket : Remote :=
  {| search := fun _ _ =>
       found [{| conv_id := "T"; conv_updated_at := 150;
                 conv_source_type := "ticket" |}] 1;
     conversation := fun _ id => {| dr_status := Some "200 OK"; dr_json := detail id 150 |};
     history := [] |}.

(** The max-change-time queries made so far. *)
Definition max_queries (h : list event) : nat :=
  length (List.filter
            (fun e => match e with
                      | Post payload _ => bool_decide (sp_pagination payload = None)
                      | _ => false
                      end) h).

(** A remote source seen over two runs.  During the first run its search
    lists [X], changed at 150, on the first page of the max-change-time
    query, and [Y], changed at 120, in the window; [X] is gone afterwards.
    From the second run on its search lists [Z], changed at 130.  Every
    response honours the filter it was asked with. *)
Definition churning : Remote :=
  {| search := fun h payload =>
       match sp_pagination payload with
       | None =>
           if bool_decide (max_queries h = 0%nat) then found [entry "X" 150] 1
           else found [entry "Z" 130] 1
       | Some _ =>
           if bool_decide (max_queries h <= 1)%nat then found [entry "Y" 120] 1
           else found [entry "Z" 130] 1
       end;
     conversation := fun _ id =>
       {| dr_status := Some "200 OK";
          dr_json := detail id (if String.eqb id "Y" then 120 else 130) |};
     history := [] |}.

(** The two runs of the pipeline on [churning], the second from what the
    first left. *)
Definition first_run : outcome unit * Run Payload World :=
  IntercomConversationPipeline_execute
    (IntercomConversationPipeline churning (destination [])).

Definition second_run : outcome unit * Run Payload World :=
  IntercomConversationPipeline_execute
    (IntercomConversationPipeline (remote (attrs (self first_run.2)))
                                  (committed (attrs (self first_run.2)))).

(** A remote source that serves stale data: it answers every search,
    whatever the filter, with the conversation [Y] as it was at 110. *)
Definition stale : Remote :=
  {| search := fun _ _ => found [entry "Y" 110] 1;
     conversation := fun _ id => {| dr_status := Some "200 OK"; dr_json := detail id 110 |};
     history := [] |}.

(** A run on [stale] from a store that holds [Y] as it was at 120. *)
Definition stale_run : outcome unit * Run Payload World :=
  IntercomConversationPipeline_execute
    (IntercomConversationPipeline stale (destination [conversation_row "Y" 120])).

(** A pipeline step that asks for its payload to be stopped. *)
Definition Skipping : PipelineStep bool unit :=
  mkStep "Skipping" (raise (StopPayloadException "skip")).

(** A unit of the window from 100 to 140 whose detail, changed at 150, has
    been retrieved, and the world of a run that has connected to a store
    holding the conversation as it was at 120. *)
Definition retrieved : Payload :=
  {| conversation_id := "Y"; start_timestamp := 100; end_timestamp := 140;
     db_schema := "intercom"; api_data := Some (detail "Y" 150); frames := ∅ |}.

Definition open_session : World :=
  attrs (connected stale (destination [conversation_row "Y" 120])).

(** The unit once [ParseApiData] has run on it. *)
Definition parsed : Payload :=
  (ParseApiData_execute (retrieved, open_session)).2.1.

(** The session of [open_session], and the unit and the world once the
    conversations table has been reloaded from [parsed]. *)
Definition session : Cursor :=
  fresh_cursor (session_view (destination [conversation_row "Y" 120])).

Definition reloaded : Payload * World :=
  (delete_then_load "conversations" "id" (parsed, open_session)).2.

(** The cursor after the two parts have been merged into the store with a
    key. *)
Definition merged : Cursor :=
  (merge_dataframe_into_table "intercom" "conversation_parts" parts_frame
                              (fresh_cursor store_with_key)).2.

End Examples.

(* ================================================================== *)
(** * Properties *)

(** ** Relations a computation keeps

    The rules by which [moves] and [preserves] go through the monad. *)

Section Effects.
Context {S : Type}.

#[global] Instance same_preorder {X} (f : S -> X) : PreOrder (same f).
Proof. split; [intros s; reflexivity | intros a b c; unfold same; congruence]. Qed.

Lemma moves_ret {A} (R : relation S) `{!Reflexive R} (a : A) : moves R (ret a).
Proof. intros s. simpl. reflexivity. Qed.

Lemma moves_raise {A} (R : relation S) e :
  is_stop e = false -> moves R (raise (A:=A) e).
Proof. intros H s. exact H. Qed.

Lemma moves_diverge {A} (R : relation S) : moves R (Intercom.diverge (A:=A)).
Proof. intros s. exact I. Qed.

Lemma moves_bind {A B} (R : relation S) `{!Transitive R}
      (m : M S A) (k : A -> M S B) :
  moves R m -> (forall a, moves R (k a)) -> moves R (bind m k).
Proof.
  intros Hm Hk s. unfold bind. specialize (Hm s).
  destruct (m s) as [[a|e|] s1]; [|exact Hm|exact I].
  specialize (Hk a s1). destruct (k a s1) as [[b|e|] s2]; [|exact Hk|exact I].
  now transitivity s1.
Qed.

Lemma moves_preserves {A} (R : relation S) (P : S -> Prop) (m : M S A) :
  moves R m -> (forall s s', R s s' -> P s -> P s') -> preserves P m.
Proof.
  intros Hm HP s Hs. specialize (Hm s).
  destruct (m s) as [[a|e|] s1]; [|exact Hm|exact I]. eauto.
Qed.

Lemma preserves_bind {A B} (P : S -> Prop) (m : M S A) (k : A -> M S B) :
  preserves P m -> (forall a, preserves P (k a)) -> preserves P (bind m k).
Proof.
  intros Hm Hk s Hs. unfold bind. specialize (Hm s Hs).
  destruct (m s) as [[a|e|] s1]; [|exact Hm|exact I].
  exact (Hk a s1 Hm).
Qed.

End Effects.

Ltac moves_ret := apply moves_ret; apply _.
Ltac moves_bind := apply moves_bind; [apply _ | |].

(** ** The pipeline engine *)

Section EngineProperties.
Import PipelineEngine.
Context {Payload Attrs : Type}.
Implicit Types s : Run Payload Attrs.
Context (pre_steps : list (PreExecutionStep Payload Attrs))
        (unit_steps : list (PipelineStep Payload Attrs))
        (post_steps : list (PostExecutionStep Payload Attrs))
        (error_steps : list (ErrorHandlingStep Payload Attrs)).

Lemma run_steps_logged (starting : string -> log_record)
      (steps : list (Step (Pipeline Payload Attrs))) :
  forall s s', run_steps starting steps s = (Ok tt, s') ->
    logged s' = logged s ++ map (fun st => starting (step_name st)) steps.
Proof.
  induction steps as [|st rest IH]; intros s s' H; simpl in *.
  - inversion H; subst. now rewrite app_nil_r.
  - unfold bind, logger, execute_on_self in H; simpl in H.
    destruct (step_execute st (self s)) as [[[]| |] p] eqn:E; try discriminate.
    apply IH in H. simpl in H. rewrite H, <- app_assoc. reflexivity.
Qed.

Lemma run_error_handling_logged :
  forall s s', run_error_handling error_steps s = (Ok tt, s') ->
    logged s' =
      logged s ++ LogErrorStepsToExecute (length error_steps)
               :: map (fun st => LogStartingErrorStep (step_name st)) error_steps
               ++ [LogErrorStepsDone].
Proof.
  intros s s' H. unfold run_error_handling, bind in H. simpl in H.
  destruct (run_steps _ _ _) as [[[]| |] s1] eqn:E; try discriminate.
  apply run_steps_logged in E. simpl in E.
  inversion H; subst; simpl. rewrite E, <- !app_assoc. reflexivity.
Qed.

Lemma execute_guarded_stop s msg s1 :
  pre_and_payloads pre_steps unit_steps s = (Raise (StopPipelineException msg), s1) ->
  execute_guarded pre_steps unit_steps s
  = (Ok tt, with_record s1 (LogStoppingPipelineEarly msg)).
Proof.
  intros H. unfold execute_guarded, try_except.
  unfold pre_and_payloads in H. rewrite H. reflexivity.
Qed.

Lemma execute_guarded_other s e s1 :
  pre_and_payloads pre_steps unit_steps s = (Raise e, s1) ->
  (forall msg, e <> StopPipelineException msg) ->
  execute_guarded pre_steps unit_steps s = (Raise e, s1).
Proof.
  intros H Hne. unfold execute_guarded, try_except.
  unfold pre_and_payloads in H. rewrite H.
  destruct e; try reflexivity. now destruct (Hne msg).
Qed.

Lemma execute_guarded_ok s s1 :
  pre_and_payloads pre_steps unit_steps s = (Ok tt, s1) ->
  execute_guarded pre_steps unit_steps s = (Ok tt, s1).
Proof.
  intros H. unfold execute_guarded, try_except.
  unfold pre_and_payloads in H. now rewrite H.
Qed.

Lemma execute_handler s e s1 :
  reaches_handler pre_steps unit_steps post_steps s e s1 ->
  execute pre_steps unit_steps post_steps error_steps s
  = (logger (LogUnexpectedError e) ;>
     run_error_handling error_steps ;>
     raise e) s1.
Proof.
  intros [H | (s0 & H & Hp)]; unfold execute, try_except, bind at 1; rewrite H.
  - reflexivity.
  - rewrite Hp. reflexivity.
Qed.

Lemma execute_returns s s0 s1 :
  execute_guarded pre_steps unit_steps s = (Ok tt, s0) ->
  run_post_execution_steps post_steps s0 = (Ok tt, s1) ->
  execute pre_steps unit_steps post_steps error_steps s = (Ok tt, s1).
Proof.
  intros Hg Hp. unfold execute, try_except, bind at 1. now rewrite Hg, Hp.
Qed.

Lemma run_payload_steps_queue (steps : list (PipelineStep Payload Attrs)) :
  forall s r s1 p rest,
    payloads (self s) = Some (p :: rest) ->
    run_payload_steps steps s = (r, s1) ->
    exists p', payloads (self s1) = Some (p' :: rest).
Proof.
  induction steps as [|st steps' IH]; intros s r s1 p rest Hq H; simpl in H.
  - inversion H; subst. eauto.
  - unfold bind at 1 in H. unfold logger at 1 in H.
    unfold bind at 1 in H. unfold try_except at 1 in H.
    unfold bind at 1 in H. unfold execute_on_payload at 1 in H.
    simpl in H. rewrite Hq in H.
    destruct (step_execute st (p, attrs (self s))) as [r0 [p' a']] eqn:E.
    destruct r0 as [[]|e|]; simpl in H.
    + eapply IH; [|exact H]. reflexivity.
    + destruct e; simpl in H; inversion H; subst; simpl; eauto.
    + inversion H; subst; simpl; eauto.
Qed.

Lemma run_payload_queue s r s1 p rest :
  payloads (self s) = Some (p :: rest) ->
  run_payload unit_steps s = (r, s1) ->
  exists p', payloads (self s1) = Some (p' :: rest).
Proof.
  intros Hq H. unfold run_payload, bind in H.
  destruct (run_payload_steps unit_steps s) as [r0 s0] eqn:E.
  destruct (run_payload_steps_queue _ _ _ _ _ _ Hq E) as [p' Hp'].
  destruct r0 as [[]|e|]; inversion H; subst; simpl; eauto.
Qed.

Lemma payloads_loop_S fuel s p rest :
  payloads (self s) = Some (p :: rest) ->
  payloads_loop unit_steps (S fuel) s
  = (run_payload unit_steps ;> del_payloads_0 ;> payloads_loop unit_steps fuel)
      (with_record s (LogPayloadsToProcess (S (length rest)))).
Proof. intros Hq. simpl. rewrite Hq. reflexivity. Qed.

Lemma payloads_loop_in_order :
  forall q s fuel,
    payloads (self s) = Some q ->
    length q <= fuel ->
    exists r s',
      units_in_order unit_steps q s r s' /\
      payloads_loop unit_steps fuel s = (r, s') /\
      (r = Ok tt -> payloads (self s') = Some []).
Proof.
  induction q as [|p rest IH]; intros s fuel Hq Hfuel.
  - exists (Ok tt), s. split; [now constructor|].
    split; [|auto]. destruct fuel; simpl; now rewrite Hq.
  - destruct fuel as [|fuel]; [simpl in Hfuel; lia|].
    rewrite (payloads_loop_S fuel s p rest Hq).
    unfold bind at 1.
    destruct (run_payload unit_steps
                (with_record s (LogPayloadsToProcess (S (length rest)))))
      as [r1 s1] eqn:E.
    destruct (run_payload_queue
                (with_record s (LogPayloadsToProcess (S (length rest))))
                _ _ p rest Hq E) as [p' Hp'].
    destruct r1 as [[]|e|].
    + unfold bind at 1. unfold del_payloads_0 at 1. rewrite Hp'.
      destruct (IH (without_head s1) fuel) as (r & s' & Hu & Hl & Hend).
      { unfold without_head; simpl. now rewrite Hp'. }
      { simpl in Hfuel. lia. }
      exists r, s'. split; [econstructor 2; eauto|].
      split; [|exact Hend].
      unfold without_head in Hl. rewrite Hp' in Hl. simpl in Hl.
      rewrite drop_0 in Hl. exact Hl.
    + exists (Raise e), s1. split; [econstructor 3; eauto; discriminate|].
      split; [reflexivity | discriminate].
    + exists Diverge, s1. split; [econstructor 3; eauto; discriminate|].
      split; [reflexivity | discriminate].
Qed.

(** C1, as the code has it.  For every run of [execute]:
    - a [StopPipelineException] raised by the pre-execution steps or while
      the payloads are processed is caught and logged, and the run goes on
      as after a normal return; any other exception raised there reaches
      the error handler;
    - on the non-error path the post-execution steps run, and [execute]
      returns normally when they do; an exception they raise reaches the
      error handler;
    - when an exception [e] reaches the error handler, the error is logged
      and the error-handling steps are run once, in order.  When they
      complete, every one of them was started exactly once and [e] itself
      is raised to the caller; when one of them raises, that exception is
      what the caller gets. *)
Theorem execute_contract s :
  (forall msg s1,
      pre_and_payloads pre_steps unit_steps s = (Raise (StopPipelineException msg), s1) ->
      execute_guarded pre_steps unit_steps s
      = (Ok tt, with_record s1 (LogStoppingPipelineEarly msg))) /\
  (forall s1,
      pre_and_payloads pre_steps unit_steps s = (Ok tt, s1) ->
      execute_guarded pre_steps unit_steps s = (Ok tt, s1)) /\
  (forall e s1,
      pre_and_payloads pre_steps unit_steps s = (Raise e, s1) ->
      (forall msg, e <> StopPipelineException msg) ->
      reaches_handler pre_steps unit_steps post_steps s e s1) /\
  (forall s0 r s1,
      execute_guarded pre_steps unit_steps s = (Ok tt, s0) ->
      run_post_execution_steps post_steps s0 = (r, s1) ->
      match r with
      | Ok _ => execute pre_steps unit_steps post_steps error_steps s = (Ok tt, s1)
      | Raise e => reaches_handler pre_steps unit_steps post_steps s e s1
      | Diverge =>
          execute pre_steps unit_steps post_steps error_steps s = (Diverge, s1)
      end) /\
  (forall e s1 r s2,
      reaches_handler pre_steps unit_steps post_steps s e s1 ->
      run_error_handling error_steps (with_record s1 (LogUnexpectedError e))
      = (r, s2) ->
      match r with
      | Ok _ =>
          execute pre_steps unit_steps post_steps error_steps s = (Raise e, s2) /\
          logged s2 =
            logged s1 ++ LogUnexpectedError e
                      :: LogErrorStepsToExecute (length error_steps)
                      :: map (fun st => LogStartingErrorStep (step_name st)) error_steps
                      ++ [LogErrorStepsDone]
      | Raise e' =>
          execute pre_steps unit_steps post_steps error_steps s = (Raise e', s2)
      | Diverge =>
          execute pre_steps unit_steps post_steps error_steps s = (Diverge, s2)
      end).
Proof.
  split; [|split; [|split; [|split]]].
  - intros msg s1 H. now apply execute_guarded_stop.
  - intros s1 H. now apply execute_guarded_ok.
  - intros e s1 H Hne. left. now apply execute_guarded_other.
  - intros s0 r s1 Hg Hp. destruct r as [[]|e|].
    + unfold execute, try_except, bind at 1. rewrite Hg, Hp. reflexivity.
    + right. exists s0. split; assumption.
    + unfold execute, try_except, bind at 1. rewrite Hg, Hp. reflexivity.
  - intros e s1 r s2 Hr He. rewrite (execute_handler _ _ _ Hr).
    assert (Hrun : (logger (LogUnexpectedError e) ;>
                    run_error_handling error_steps ;> raise e) s1
                   = (match r return outcome unit with
                      | Ok _ => Raise e
                      | Raise e' => Raise e'
                      | Diverge => Diverge
                      end, s2)).
    { unfold bind at 1. unfold logger at 1.
      change {| self := self s1; logged := logged s1 ++ [LogUnexpectedError e] |}
        with (with_record s1 (LogUnexpectedError e)).
      unfold bind at 1. rewrite He. now destruct r as [[]|e'|]. }
    rewrite Hrun. destruct r as [[]|e'|]; try reflexivity.
    split; [reflexivity|].
    apply run_error_handling_logged in He. rewrite He. simpl.
    rewrite <- app_assoc. reflexivity.
Qed.

(** C8, as the code has it.  [run_all_payloads] is a no-op when the queue
    is empty: it returns normally and changes nothing (one record is
    logged).  Otherwise the units are processed one at a time and in the
    order of the queue: every unit is processed at the head of the queue
    while the units behind it stay in the queue as they are, and it is
    deleted before the next one starts, so that a normal return leaves the
    queue empty. *)
Theorem run_all_payloads_in_order s q :
  payloads (self s) = Some q ->
  (q = [] ->
   run_all_payloads unit_steps s = (Ok tt, with_record s LogNoPayloads)) /\
  (q <> [] ->
   exists r s',
     units_in_order unit_steps q s r s' /\
     (r = Ok tt -> payloads (self s') = Some []) /\
     run_all_payloads unit_steps s
     = match r with
       | Ok _ => (Ok tt, with_record s' LogAllPayloadsDone)
       | _ => (r, s')
       end).
Proof.
  intros Hq. split.
  - intros ->. unfold run_all_payloads. rewrite Hq. reflexivity.
  - intros Hne. destruct q as [|p rest]; [congruence|].
    destruct (payloads_loop_in_order (p :: rest) s (length (p :: rest)) Hq)
      as (r & s' & Hu & Hl & Hend); [lia|].
    exists r, s'. split; [exact Hu|]. split; [exact Hend|].
    unfold run_all_payloads. rewrite Hq. unfold bind. rewrite Hl.
    now destruct r as [[]|e|].
Qed.

End EngineProperties.

(** The contract at work: a run stopped early by its pre-execution step
    runs its post-execution step and returns normally. *)
Lemma execute_contract_witness :
  PipelineEngine.execute [Examples.Stopping] [] [Examples.Quiet] [Examples.Quiet]
                         (Examples.flag_run None)
  = (Ok tt,
     {| PipelineEngine.self :=
          {| PipelineEngine.payloads := Some []; PipelineEngine.attrs := tt |};
        PipelineEngine.logged :=
          [PipelineEngine.LogPreStepsToExecute 1;
           PipelineEngine.LogStartingPreStep "Stopping";
           PipelineEngine.LogStoppingPipelineEarly "nothing to do";
           PipelineEngine.LogPostStepsToExecute 1;
           PipelineEngine.LogStartingPostStep "Quiet";
           PipelineEngine.LogPostStepsDone] |}).
Proof.
  destruct (execute_contract [Examples.Stopping] [] [Examples.Quiet]
                             [Examples.Quiet] (Examples.flag_run None))
    as (Hstop & _ & _ & Hpost & _).
  specialize (Hstop "nothing to do" _ eq_refl).
  exact (Hpost _ (Ok tt) _ Hstop eq_refl).
Defined.

(** Two queued units, each processed by one step. *)
Lemma run_all_payloads_in_order_witness :
  exists r s',
    PipelineEngine.units_in_order
      [Examples.Touch] [false; false] (Examples.flag_run (Some [false; false])) r s' /\
    (r = Ok tt -> PipelineEngine.payloads (PipelineEngine.self s') = Some []) /\
    PipelineEngine.run_all_payloads [Examples.Touch]
                                    (Examples.flag_run (Some [false; false]))
    = match r with
      | Ok _ => (Ok tt, PipelineEngine.with_record s' PipelineEngine.LogAllPayloadsDone)
      | _ => (r, s')
      end.
Proof.
  apply (run_all_payloads_in_order [Examples.Touch]
           (Examples.flag_run (Some [false; false])) [false; false] eq_refl).
  discriminate.
Defined.

(** C8 as stated fails: while the first of two units is processed, both are
    in the queue (the one being processed and the one waiting), and the
    engine logs "2 payload(s) to process". *)
Lemma two_units_resident :
  PipelineEngine.payloads
    (PipelineEngine.self
       (PipelineEngine.execute_on_payload
          Examples.Touch (Examples.flag_run (Some [false; false]))).2)
  = Some [true; false] /\
  In (PipelineEngine.LogPayloadsToProcess 2)
     (PipelineEngine.logged
        (PipelineEngine.run_all_payloads
           [Examples.Touch] (Examples.flag_run (Some [false; false]))).2).
Proof. split; [reflexivity | left; reflexivity]. Qed.

(** C1 as stated fails: the pre-execution step raises ["original"], the
    error-handling step raises ["cleanup"], and the caller gets
    ["cleanup"], not the original exception. *)
Lemma execute_does_not_always_reraise_original :
  (PipelineEngine.pre_and_payloads [Examples.Failing] [] (Examples.flag_run None)).1
  = Raise (OtherException "original") /\
  (PipelineEngine.execute [Examples.Failing] [] [] [Examples.FailingCleanup]
                          (Examples.flag_run None)).1
  = Raise (OtherException "cleanup").
Proof. split; reflexivity. Qed.

(** *** Invariants of a run

    What every pipeline step preserves for the unit at the head of the queue
    holds when all the payloads are done; a run that returns normally went
    through the inner [try] and the post-execution steps. *)

Section EngineInvariant.
Import PipelineEngine.
Context {Payload Attrs : Type}.
Implicit Types s : Run Payload Attrs.
Context (pre_steps : list (PreExecutionStep Payload Attrs))
        (unit_steps : list (PipelineStep Payload Attrs))
        (post_steps : list (PostExecutionStep Payload Attrs))
        (error_steps : list (ErrorHandlingStep Payload Attrs)).

(** [Inv] is an invariant of the queue and the attributes: every pipeline
    step keeps it for the unit at the head of the queue, and it still holds
    once the head is deleted. *)
Context (Inv : list Payload -> Attrs -> Prop).
Context (Inv_step :
           forall st, In st unit_steps ->
           forall rest, preserves (fun x => Inv (x.1 :: rest) x.2) (step_execute st)).
Context (Inv_del : forall p rest a, Inv (p :: rest) a -> Inv rest a).

Lemma run_payload_steps_preserves (steps : list (PipelineStep Payload Attrs)) :
  (forall st, In st steps -> In st unit_steps) ->
  forall p rest s,
    payloads (self s) = Some (p :: rest) ->
    Inv (p :: rest) (attrs (self s)) ->
    match run_payload_steps steps s with
    | (Ok _, s') => exists p', queued Inv (p' :: rest) s'
    | (Raise e, _) => is_stop e = false
    | (Diverge, _) => True
    end.
Proof.
  induction steps as [|st steps' IH]; intros Hsub p rest s Hq Hinv; simpl.
  - exists p. split; assumption.
  - unfold bind at 1. unfold logger at 1.
    unfold bind at 1. unfold try_except at 1.
    unfold bind at 1. unfold execute_on_payload at 1.
    simpl. rewrite Hq.
    pose proof (Inv_step st (Hsub st (or_introl eq_refl)) rest (p, attrs (self s)) Hinv)
      as Hst.
    destruct (step_execute st (p, attrs (self s))) as [r0 [p' a']].
    destruct r0 as [[]|e|]; simpl in *.
    + eapply IH; [intros; apply Hsub; now right | reflexivity | exact Hst].
    + destruct e; simpl in *; try discriminate; reflexivity.
    + exact I.
Qed.

Lemma payloads_loop_preserves :
  forall q s fuel,
    queued Inv q s ->
    match payloads_loop unit_steps fuel s with
    | (Ok _, s') => queued Inv [] s'
    | (Raise e, _) => is_stop e = false
    | (Diverge, _) => True
    end.
Proof.
  induction q as [|p rest IH]; intros s fuel [Hq Hinv].
  - destruct fuel; simpl; rewrite Hq; split; assumption.
  - destruct fuel as [|fuel]; [simpl; now rewrite Hq|].
    rewrite (payloads_loop_S unit_steps fuel s p rest Hq).
    unfold bind at 1. unfold run_payload, bind at 1.
    pose proof (run_payload_steps_preserves unit_steps (fun _ H => H) p rest
                  (with_record s (LogPayloadsToProcess (S (length rest)))) Hq Hinv)
      as Hrun.
    destruct (run_payload_steps unit_steps _) as [[[]|e|] s1]; [|exact Hrun|exact I].
    destruct Hrun as (p' & Hq1 & Hinv1).
    unfold logger at 1. unfold bind at 1. unfold del_payloads_0 at 1.
    cbn [self payloads attrs]. rewrite Hq1.
    apply IH. split; [reflexivity|]. cbn [self attrs]. eapply Inv_del, Hinv1.
Qed.

Lemma run_all_payloads_preserves q s :
  queued Inv q s ->
  match run_all_payloads unit_steps s with
  | (Ok _, s') => queued Inv [] s'
  | (Raise e, _) => is_stop e = false
  | (Diverge, _) => True
  end.
Proof.
  intros [Hq Hinv]. unfold run_all_payloads. rewrite Hq.
  destruct q as [|p rest]; [split; assumption|].
  unfold bind.
  pose proof (payloads_loop_preserves (p :: rest) s (length (p :: rest))
                (conj Hq Hinv)) as Hl.
  destruct (payloads_loop unit_steps _ s) as [[[]|e|] s1]; [|exact Hl|exact I].
  exact Hl.
Qed.

Lemma execute_Ok s s' :
  execute pre_steps unit_steps post_steps error_steps s = (Ok tt, s') ->
  exists s0,
    execute_guarded pre_steps unit_steps s = (Ok tt, s0) /\
    run_post_execution_steps post_steps s0 = (Ok tt, s').
Proof.
  unfold execute, try_except, bind at 1.
  destruct (execute_guarded pre_steps unit_steps s) as [[[]|e|] s0] eqn:Hg.
  - destruct (run_post_execution_steps post_steps s0) as [[[]|e|] s1] eqn:Hp.
    + intros [= <-]. eauto.
    + unfold bind, logger.
      destruct (run_error_handling _ _) as [[[]|e'|] s2]; discriminate.
    + discriminate.
  - unfold bind, logger.
    destruct (run_error_handling _ _) as [[[]|e'|] s2]; discriminate.
  - discriminate.
Qed.

Lemma execute_guarded_Ok s s0 :
  execute_guarded pre_steps unit_steps s = (Ok tt, s0) ->
  pre_and_payloads pre_steps unit_steps s = (Ok tt, s0) \/
  exists msg s1,
    pre_and_payloads pre_steps unit_steps s = (Raise (StopPipelineException msg), s1) /\
    s0 = with_record s1 (LogStoppingPipelineEarly msg).
Proof.
  unfold execute_guarded, try_except, pre_and_payloads.
  destruct ((run_pre_execution_steps pre_steps ;> run_all_payloads unit_steps) s)
    as [[[]|e|] s1].
  - intros [= <-]. now left.
  - destruct e; try discriminate. unfold logger. intros [= <-]. right. eauto.
  - discriminate.
Qed.

End EngineInvariant.

(** ** The retrying API client *)

Section ClientProperties.
Import Intercom.
Implicit Types (r : Remote) (h : list event).


Lemma never_succeeds_record_event r e :
  never_succeeds r -> never_succeeds (record_event e r).
Proof. intros H. exact H. Qed.

Lemma is_failure_200 status : is_200_OK status = true -> is_failure status = false.
Proof. destruct status as [v|]; simpl; [now intros ->|discriminate]. Qed.

Lemma always_succeeds_has_status r : always_succeeds r -> has_status r.
Proof.
  intros [Hs Hc]. split; intros h x E;
    [specialize (Hs h x) | specialize (Hc h x)]; rewrite E in *; discriminate.
Qed.

Lemma never_succeeds_has_status r : never_succeeds r -> has_status r.
Proof.
  intros [Hs Hc]. split; intros h x E;
    [specialize (Hs h x) | specialize (Hc h x)]; rewrite E in *; discriminate.
Qed.

(** *** One round of each loop *)

Lemma max_updated_loop_exhausted start retries backoff n failed r :
  (retries < failed)%Z ->
  max_updated_loop n start retries backoff failed r
  = (Raise APIErrorException, record_event LogUnableToQuery r).
Proof.
  intros H. destruct n; simpl;
    replace (failed <=? retries)%Z with false by lia; reflexivity.
Qed.

Lemma max_updated_loop_S start retries backoff n failed r :
  (failed <= retries)%Z ->
  max_updated_loop (S n) start retries backoff failed r
  = let payload := max_updated_payload start in
    let response := search r (history r) payload in
    let r1 := record_event (Post payload response) r in
    match sr_status response with
    | None => (Raise (KeyError "status"), r1)
    | Some status =>
        if String.eqb status "200 OK" then (Ok response, r1)
        else if (backoff <? 0)%Z
        then (Raise (ValueError "sleep length must be non-negative"),
              record_event LogQueryFailed r1)
        else max_updated_loop n start retries backoff (failed + 1)
               (record_event (Sleep backoff) (record_event LogQueryFailed r1))
    end.
Proof.
  intros H. simpl. replace (failed <=? retries)%Z with true by lia.
  unfold bind, requests_post, headers_Status, logger, time_sleep. cbv zeta.
  destruct (sr_status _) as [status|]; [|reflexivity]. simpl.
  destruct (String.eqb status "200 OK"); [reflexivity|].
  now destruct (backoff <? 0)%Z.
Qed.

Lemma total_pages_loop_exhausted start end_ retries backoff n failed r :
  (retries < failed)%Z ->
  total_pages_loop n start end_ retries backoff failed r
  = (Raise APIErrorException, record_event LogUnableToQuery r).
Proof.
  intros H. destruct n; simpl;
    replace (failed <=? retries)%Z with false by lia; reflexivity.
Qed.

Lemma total_pages_loop_S start end_ retries backoff n failed r :
  (failed <= retries)%Z ->
  total_pages_loop (S n) start end_ retries backoff failed r
  = let payload := get_payload start end_ 1 in
    let response := search r (history r) payload in
    let r1 := record_event (Post payload response) r in
    match sr_status response with
    | None => (Raise (KeyError "status"), r1)
    | Some status =>
        if String.eqb status "200 OK"
        then (Ok (sr_total_pages response, failed), r1)
        else if (backoff <? 0)%Z
        then (Raise (ValueError "sleep length must be non-negative"),
              record_event LogQueryFailed r1)
        else total_pages_loop n start end_ retries backoff (failed + 1)
               (record_event (Sleep backoff) (record_event LogQueryFailed r1))
    end.
Proof.
  intros H. simpl. replace (failed <=? retries)%Z with true by lia.
  unfold bind, requests_post, headers_Status, logger, time_sleep. cbv zeta.
  destruct (sr_status _) as [status|]; [|reflexivity]. simpl.
  destruct (String.eqb status "200 OK"); [reflexivity|].
  now destruct (backoff <? 0)%Z.
Qed.

Lemma pages_loop_exhausted start end_ retries backoff n failed c ids r :
  (retries < failed)%Z ->
  pages_loop n start end_ retries backoff failed c ids r
  = (Raise APIErrorException, record_event LogUnableToQuery r).
Proof.
  intros H. destruct n; simpl;
    replace (failed <=? retries)%Z with false by lia; reflexivity.
Qed.

Lemma pages_loop_S start end_ retries backoff n failed c ids r :
  (failed <= retries)%Z ->
  pages_loop (S n) start end_ retries backoff failed c ids r
  = let payload := get_payload start end_ c in
    let response := search r (history r) payload in
    let r1 := record_event (Post payload response) r in
    match sr_status response with
    | None => (Raise (KeyError "status"), r1)
    | Some status =>
        if String.eqb status "200 OK"
        then
          if (1 <? c)%Z
          then pages_loop n start end_ retries backoff failed (c - 1)
                          (ids ++ page_ids response) r1
          else (Ok (ids ++ page_ids response), r1)
        else if (backoff <? 0)%Z
        then (Raise (ValueError "sleep length must be non-negative"),
              record_event LogQueryFailed r1)
        else pages_loop n start end_ retries backoff (failed + 1) c ids
               (record_event (Sleep backoff) (record_event LogQueryFailed r1))
    end.
Proof.
  intros H. simpl. replace (failed <=? retries)%Z with true by lia.
  unfold bind, requests_post, headers_Status, logger, time_sleep, page_ids.
  cbv zeta.
  destruct (sr_status _) as [status|]; [|reflexivity]. simpl.
  destruct (String.eqb status "200 OK").
  - now destruct (1 <? c)%Z.
  - now destruct (backoff <? 0)%Z.
Qed.

Lemma details_loop_exhausted id retries backoff n failed r :
  (retries < failed)%Z ->
  details_loop n id retries backoff failed r
  = (Raise APIErrorException, record_event LogUnableToQuery r).
Proof.
  intros H. destruct n; simpl;
    replace (failed <=? retries)%Z with false by lia; reflexivity.
Qed.

Lemma details_loop_S id retries backoff n failed r :
  (failed <= retries)%Z ->
  details_loop (S n) id retries backoff failed r
  = let response := conversation r (history r) id in
    let r1 := record_event (Get id response) r in
    match dr_status response with
    | None => (Raise (KeyError "status"), r1)
    | Some status =>
        if String.eqb status "200 OK" then (Ok (dr_json response), r1)
        else if (backoff <? 0)%Z
        then (Raise (ValueError "sleep length must be non-negative"),
              record_event LogQueryFailed r1)
        else details_loop n id retries backoff (failed + 1)
               (record_event (Sleep backoff) (record_event LogQueryFailed r1))
    end.
Proof.
  intros H. simpl. replace (failed <=? retries)%Z with true by lia.
  unfold bind, requests_get, headers_Status, logger, time_sleep. cbv zeta.
  destruct (dr_status _) as [status|]; [|reflexivity]. simpl.
  destruct (String.eqb status "200 OK"); [reflexivity|].
  now destruct (backoff <? 0)%Z.
Qed.





Lemma successes_app h1 h2 : successes (h1 ++ h2) = successes h1 ++ successes h2.
Proof. apply omap_app. Qed.

Lemma failures_app h1 h2 : failures (h1 ++ h2) = (failures h1 + failures h2)%nat.
Proof. unfold failures. now rewrite List.filter_app, length_app. Qed.

Lemma pages_down_from_more c :
  (1 < c)%Z -> pages_down_from c = c :: pages_down_from (c - 1).
Proof.
  intros Hc. unfold pages_down_from.
  replace (Z.to_nat (c - 1)) with (S (Z.to_nat (c - 1 - 1))) by lia.
  reflexivity.
Qed.

Lemma pages_down_from_last c : (c <= 1)%Z -> pages_down_from c = [c].
Proof.
  intros Hc. unfold pages_down_from.
  replace (Z.to_nat (c - 1)) with 0%nat by lia. reflexivity.
Qed.

Lemma searches_window_app start end_ h1 h2 :
  searches_window start end_ h1 -> searches_window start end_ h2 ->
  searches_window start end_ (h1 ++ h2).
Proof. apply Forall_app_2. Qed.

Lemma failures_failed_round e backoff h :
  is_failed_request e = true ->
  failures (e :: LogQueryFailed :: Sleep backoff :: h) = S (failures h).
Proof. intros H. unfold failures. simpl. now rewrite H. Qed.

(** The first loop, for any remote source: how it can end, and what it has
    done by then. *)
Lemma total_pages_loop_spec start end_ retries backoff :
  forall n failed r,
    (Z.to_nat (retries + 1 - failed) <= n)%nat ->
    exists h r',
      history r' = history r ++ h /\
      search r' = search r /\ conversation r' = conversation r /\
      searches_window start end_ h /\
      ((total_pages_loop n start end_ retries backoff failed r
        = (Raise APIErrorException, r') /\
        successes h = [] /\
        failures h = Z.to_nat (retries + 1 - failed)) \/
       (exists first,
           total_pages_loop n start end_ retries backoff failed r
           = (Ok (sr_total_pages first, (failed + Z.of_nat (failures h))%Z), r') /\
           successes h = [(get_payload start end_ 1, first)] /\
           (failed + Z.of_nat (failures h) <= retries)%Z) \/
       (total_pages_loop n start end_ retries backoff failed r
        = (Raise (KeyError "status"), r') /\ ~ has_status r) \/
       (total_pages_loop n start end_ retries backoff failed r
        = (Raise (ValueError "sleep length must be non-negative"), r') /\
        (backoff < 0)%Z)).
Proof.
  induction n as [|n IH]; intros failed r Hn;
    (destruct (Z.leb_spec failed retries) as [Hle | Hgt];
     [| rewrite (total_pages_loop_exhausted _ _ _ _ _ _ _ Hgt);
        exists [LogUnableToQuery], (record_event LogUnableToQuery r);
        repeat split; [repeat constructor; discriminate|];
        left; repeat split; unfold failures; simpl; lia ]); [lia|].
  rewrite (total_pages_loop_S _ _ _ _ _ _ _ Hle). cbv zeta.
  set (resp := search r (history r) (get_payload start end_ 1)).
  destruct (sr_status resp) as [status|] eqn:Hst.
  2:{ exists [Post (get_payload start end_ 1) resp],
             (record_event (Post (get_payload start end_ 1) resp) r).
      repeat split; [repeat constructor; eauto|].
      right; right; left. split; [reflexivity|]. intros [Hs _].
      exact (Hs _ _ Hst). }
  destruct (String.eqb status "200 OK") eqn:Hresp.
  - exists [Post (get_payload start end_ 1) resp],
           (record_event (Post (get_payload start end_ 1) resp) r).
    repeat split; [repeat constructor; eauto|].
    right; left. exists resp. unfold failures, successes. simpl.
    rewrite Hst. simpl. rewrite Hresp. simpl.
    repeat split; [f_equal; f_equal; f_equal; lia | lia].
  - destruct (Z.ltb_spec backoff 0) as [Hneg | Hpos].
    { exists [Post (get_payload start end_ 1) resp; LogQueryFailed],
             (record_event LogQueryFailed
                (record_event (Post (get_payload start end_ 1) resp) r)).
      split; [simpl; rewrite <- app_assoc; reflexivity|].
      split; [reflexivity|]. split; [reflexivity|].
      split; [repeat constructor; eauto; discriminate|].
      right; right; right. split; [reflexivity | exact Hneg]. }
    destruct (IH (failed + 1)%Z
                 (record_event (Sleep backoff)
                    (record_event LogQueryFailed
                       (record_event (Post (get_payload start end_ 1) resp) r))))
      as (h & r' & Hh & Hs & Hc & Hw & Hcase); [lia|].
    exists (Post (get_payload start end_ 1) resp :: LogQueryFailed
              :: Sleep backoff :: h), r'.
    split; [rewrite Hh; simpl; rewrite <- !app_assoc; reflexivity|].
    split; [exact Hs|]. split; [exact Hc|].
    split; [repeat constructor; eauto; discriminate|].
    rewrite failures_failed_round by (simpl; rewrite Hst; simpl; now rewrite Hresp).
    assert (Hsucc : successes (Post (get_payload start end_ 1) resp
                                 :: LogQueryFailed :: Sleep backoff :: h)
                    = successes h).
    { unfold successes. simpl. rewrite Hst. simpl. now rewrite Hresp. }
    rewrite Hsucc.
    destruct Hcase as [(Hrun & Hs0 & Hfail)
                      | [(first & Hrun & Hs1 & Hfail)
                        | [(Hrun & Hno) | (Hrun & Hneg)]]].
    + left. repeat split; [exact Hrun | exact Hs0 | lia].
    + right; left. exists first. repeat split; [|exact Hs1 | lia].
      rewrite Hrun. f_equal. f_equal. f_equal. lia.
    + right; right; left. split; [exact Hrun | exact Hno].
    + right; right; right. split; [exact Hrun | exact Hneg].
Qed.

(** The second loop, for any remote source. *)
Lemma pages_loop_spec start end_ retries backoff :
  forall n failed c ids r,
    (Z.to_nat (retries + 1 - failed) + Z.to_nat (c - 1) <= n)%nat ->
    exists h r',
      history r' = history r ++ h /\
      search r' = search r /\ conversation r' = conversation r /\
      searches_window start end_ h /\
      ((pages_loop n start end_ retries backoff failed c ids r
        = (Raise APIErrorException, r') /\
        failures h = Z.to_nat (retries + 1 - failed)) \/
       (exists pages,
           pages_loop n start end_ retries backoff failed c ids r
           = (Ok (ids ++ concat (map (fun x => page_ids x.2) pages)), r') /\
           successes h = pages /\
           map fst pages = map (get_payload start end_) (pages_down_from c) /\
           (failed + Z.of_nat (failures h) <= retries)%Z) \/
       (pages_loop n start end_ retries backoff failed c ids r
        = (Raise (KeyError "status"), r') /\ ~ has_status r) \/
       (pages_loop n start end_ retries backoff failed c ids r
        = (Raise (ValueError "sleep length must be non-negative"), r') /\
        (backoff < 0)%Z)).
Proof.
  induction n as [|n IH]; intros failed c ids r Hn;
    (destruct (Z.leb_spec failed retries) as [Hle | Hgt];
     [| rewrite (pages_loop_exhausted _ _ _ _ _ _ _ _ _ Hgt);
        exists [LogUnableToQuery], (record_event LogUnableToQuery r);
        repeat split; [repeat constructor; discriminate|];
        left; repeat split; unfold failures; simpl; lia ]); [lia|].
  rewrite (pages_loop_S _ _ _ _ _ _ _ _ _ Hle). cbv zeta.
  set (resp := search r (history r) (get_payload start end_ c)).
  destruct (sr_status resp) as [status|] eqn:Hst.
  2:{ exists [Post (get_payload start end_ c) resp],
             (record_event (Post (get_payload start end_ c) resp) r).
      repeat split; [repeat constructor; eauto|].
      right; right; left. split; [reflexivity|]. intros [Hs _].
      exact (Hs _ _ Hst). }
  destruct (String.eqb status "200 OK") eqn:Hresp.
  - assert (Hf : forall h, failures (Post (get_payload start end_ c) resp :: h)
                           = failures h).
    { intros h. unfold failures. simpl. rewrite Hst. simpl. now rewrite Hresp. }
    assert (Hsucc : forall h, successes (Post (get_payload start end_ c) resp :: h)
                              = (get_payload start end_ c, resp) :: successes h).
    { intros h. unfold successes. simpl. rewrite Hst. simpl. now rewrite Hresp. }
    destruct (Z.ltb_spec 1 c) as [Hmore | Hlast].
    + destruct (IH failed (c - 1)%Z (ids ++ page_ids resp)
                   (record_event (Post (get_payload start end_ c) resp) r))
        as (h & r' & Hh & Hs & Hc & Hw & Hcase); [lia|].
      exists (Post (get_payload start end_ c) resp :: h), r'.
      split; [rewrite Hh; simpl; rewrite <- !app_assoc; reflexivity|].
      split; [exact Hs|]. split; [exact Hc|].
      split; [constructor; eauto|].
      rewrite Hf, Hsucc.
      destruct Hcase as [(Hrun & Hfail)
                        | [(pages & Hrun & Hs1 & Hp & Hfail)
                          | [(Hrun & Hno) | (Hrun & Hneg)]]].
      * left. split; assumption.
      * right; left. exists ((get_payload start end_ c, resp) :: pages).
        repeat split; [| now rewrite Hs1 | | exact Hfail].
        -- rewrite Hrun. simpl. now rewrite <- app_assoc.
        -- rewrite (pages_down_from_more c Hmore). simpl. now rewrite Hp.
      * right; right; left. split; [exact Hrun | exact Hno].
      * right; right; right. split; [exact Hrun | exact Hneg].
    + exists [Post (get_payload start end_ c) resp],
             (record_event (Post (get_payload start end_ c) resp) r).
      repeat split; [repeat constructor; eauto|].
      right; left. exists [(get_payload start end_ c, resp)].
      rewrite Hf, Hsucc. unfold failures, successes. simpl.
      repeat split; [now rewrite app_nil_r | | lia].
      now rewrite (pages_down_from_last c Hlast).
  - destruct (Z.ltb_spec backoff 0) as [Hneg | Hpos].
    { exists [Post (get_payload start end_ c) resp; LogQueryFailed],
             (record_event LogQueryFailed
                (record_event (Post (get_payload start end_ c) resp) r)).
      split; [simpl; rewrite <- app_assoc; reflexivity|].
      split; [reflexivity|]. split; [reflexivity|].
      split; [repeat constructor; eauto; discriminate|].
      right; right; right. split; [reflexivity | exact Hneg]. }
    destruct (IH (failed + 1)%Z c ids
                 (record_event (Sleep backoff)
                    (record_event LogQueryFailed
                       (record_event (Post (get_payload start end_ c) resp) r))))
      as (h & r' & Hh & Hs & Hc & Hw & Hcase); [lia|].
    exists (Post (get_payload start end_ c) resp :: LogQueryFailed
              :: Sleep backoff :: h), r'.
    split; [rewrite Hh; simpl; rewrite <- !app_assoc; reflexivity|].
    split; [exact Hs|]. split; [exact Hc|].
    split; [repeat constructor; eauto; discriminate|].
    rewrite failures_failed_round by (simpl; rewrite Hst; simpl; now rewrite Hresp).
    assert (Hsucc : successes (Post (get_payload start end_ c) resp
                                 :: LogQueryFailed :: Sleep backoff :: h)
                    = successes h).
    { unfold successes. simpl. rewrite Hst. simpl. now rewrite Hresp. }
    rewrite Hsucc.
    destruct Hcase as [(Hrun & Hfail)
                      | [(pages & Hrun & Hs1 & Hp & Hfail)
                        | [(Hrun & Hno) | (Hrun & Hneg)]]].
    + left. split; [exact Hrun | lia].
    + right; left. exists pages.
      repeat split; [exact Hrun | exact Hs1 | exact Hp | lia].
    + right; right; left. split; [exact Hrun | exact Hno].
    + right; right; right. split; [exact Hrun | exact Hneg].
Qed.



(** The paginated search, for any remote source: how it can end, and what
    it has done by then. *)
Lemma paginated_search_history (start end_ retries backoff : Z) r :
  exists h r' out,
    get_conversation_ids_last_updated_between_timestamps
      start end_ retries backoff r = (out, r') /\
    history r' = history r ++ h /\
    searches_window start end_ h /\
    ((out = Raise APIErrorException /\ failures h = Z.to_nat (retries + 1)) \/
     (exists first pages,
         out = Ok (concat (map (fun x => page_ids x.2) pages)) /\
         successes h = (get_payload start end_ 1, first) :: pages /\
         map fst pages
         = map (get_payload start end_) (pages_down_from (sr_total_pages first)) /\
         (Z.of_nat (failures h) <= retries)%Z) \/
     (out = Raise (KeyError "status") /\ ~ has_status r) \/
     (out = Raise (ValueError "sleep length must be non-negative") /\
      (backoff < 0)%Z)).
Proof.
  unfold get_conversation_ids_last_updated_between_timestamps.
  destruct (total_pages_loop_spec start end_ retries backoff
              (Z.to_nat (retries + 1)) 0%Z r)
    as (h1 & r1 & Hh1 & Hs1 & Hc1 & Hw1 & Hcase1); [lia|].
  destruct Hcase1 as [(Hrun1 & Hsucc1 & Hfail1)
                     | [(first & Hrun1 & Hsucc1 & Hfail1)
                       | [(Hrun1 & Hno) | (Hrun1 & Hneg)]]].
  - exists h1, r1, (Raise APIErrorException).
    split; [unfold bind; now rewrite Hrun1|].
    split; [exact Hh1|]. split; [exact Hw1|].
    left. split; [reflexivity|]. rewrite Hfail1. f_equal. lia.
  - unfold bind at 1. rewrite Hrun1.
    destruct (pages_loop_spec start end_ retries backoff
                (Z.to_nat (retries + 1 - (0 + Z.of_nat (failures h1)))
                 + Z.to_nat (sr_total_pages first - 1))
                (0 + Z.of_nat (failures h1))%Z (sr_total_pages first) [] r1)
      as (h2 & r2 & Hh2 & Hs2 & Hc2 & Hw2 & Hcase2); [lia|].
    destruct Hcase2 as [(Hrun2 & Hfail2)
                       | [(pages & Hrun2 & Hsucc2 & Hp & Hfail2)
                         | [(Hrun2 & Hno) | (Hrun2 & Hneg)]]].
    + exists (h1 ++ h2), r2, (Raise APIErrorException).
      split; [exact Hrun2|].
      split; [rewrite Hh2, Hh1, <- app_assoc; reflexivity|].
      split; [now apply searches_window_app|].
      left. split; [reflexivity|]. rewrite failures_app, Hfail2. lia.
    + exists (h1 ++ h2), r2,
             (Ok (concat (map (fun x => page_ids x.2) pages))).
      split; [exact Hrun2|].
      split; [rewrite Hh2, Hh1, <- app_assoc; reflexivity|].
      split; [now apply searches_window_app|].
      right; left. exists first, pages.
      split; [reflexivity|].
      split; [rewrite successes_app, Hsucc1, Hsucc2; reflexivity|].
      split; [exact Hp|]. rewrite failures_app. lia.
    + exists (h1 ++ h2), r2, (Raise (KeyError "status")).
      split; [exact Hrun2|].
      split; [rewrite Hh2, Hh1, <- app_assoc; reflexivity|].
      split; [now apply searches_window_app|].
      right; right; left. split; [reflexivity|].
      intros Hr. apply Hno. unfold has_status. rewrite Hs1, Hc1. exact Hr.
    + exists (h1 ++ h2), r2,
             (Raise (ValueError "sleep length must be non-negative")).
      split; [exact Hrun2|].
      split; [rewrite Hh2, Hh1, <- app_assoc; reflexivity|].
      split; [now apply searches_window_app|].
      right; right; right. split; [reflexivity | exact Hneg].
  - exists h1, r1, (Raise (KeyError "status")).
    split; [unfold bind; now rewrite Hrun1|].
    split; [exact Hh1|]. split; [exact Hw1|].
    right; right; left. split; [reflexivity | exact Hno].
  - exists h1, r1, (Raise (ValueError "sleep length must be non-negative")).
    split; [unfold bind; now rewrite Hrun1|].
    split; [exact Hh1|]. split; [exact Hw1|].
    right; right; right. split; [reflexivity | exact Hneg].
Qed.



(** The loop of the max-change-time query leaves with the response of its
    last request, a successful one. *)
Lemma max_updated_loop_ok start retries backoff :
  forall n failed r response r',
    max_updated_loop n start retries backoff failed r = (Ok response, r') ->
    is_200_OK (sr_status response) = true /\
    exists h, history r'
              = history r ++ h ++ [Post (max_updated_payload start) response].
Proof.
  induction n as [|n IH]; intros failed r response r' H.
  - simpl in H. destruct (failed <=? retries)%Z; discriminate.
  - destruct (Z.leb_spec failed retries) as [Hle | Hgt];
      [| rewrite max_updated_loop_exhausted in H by exact Hgt; discriminate].
    rewrite max_updated_loop_S in H by exact Hle. cbv zeta in H.
    set (resp := search r (history r) (max_updated_payload start)) in H.
    destruct (sr_status resp) as [status|] eqn:Hst; [|discriminate].
    destruct (String.eqb status "200 OK") eqn:Hresp.
    + injection H as <- <-. split; [now rewrite Hst|]. now exists [].
    + destruct (backoff <? 0)%Z; [discriminate|].
      apply IH in H. destruct H as [Hok [h Hh]]. split; [exact Hok|].
      exists (Post (max_updated_payload start) resp :: LogQueryFailed
                :: Sleep backoff :: h).
      rewrite Hh. simpl. rewrite <- !app_assoc. reflexivity.
Qed.

Lemma fold_left_max_spec (l : list Z) :
  forall v, let m := fold_left Z.max l v in
            (m = v \/ In m l) /\ (v <= m)%Z /\ forall x, In x l -> (x <= m)%Z.
Proof.
  induction l as [|a l IH]; intros v; simpl.
  - repeat split; [now left | lia | tauto].
  - destruct (IH (Z.max v a)) as (Hin & Hge & Hall). repeat split.
    + destruct Hin as [Heq | Hin]; [|now right; right].
      destruct (Z.max_spec v a) as [[_ Hm] | [_ Hm]];
        [right; left; congruence | left; congruence].
    + lia.
    + intros x [-> | Hx]; [lia | now apply Hall].
Qed.

Lemma max_or_None_spec (l : list Z) :
  (max_or_None l = None <-> l = []) /\
  forall m, max_or_None l = Some m ->
            In m l /\ forall x, In x l -> (x <= m)%Z.
Proof.
  destruct l as [|v l]; simpl.
  - split; [tauto | discriminate].
  - split; [split; discriminate|]. intros m [= <-].
    destruct (fold_left_max_spec l v) as (Hin & Hge & Hall). split.
    + destruct Hin as [-> | Hin]; [now left | now right].
    + intros x [<- | Hx]; [exact Hge | now apply Hall].
Qed.

Lemma page_ids_spec response id :
  In id (page_ids response) <->
  exists conv, In conv (sr_conversations response) /\
               conv_source_type conv = "conversation" /\
               conv_id conv = id.
Proof.
  unfold page_ids. rewrite in_map_iff. split.
  - intros (conv & Hid & Hin). apply filter_In in Hin. destruct Hin as [Hin Hc].
    exists conv. repeat split; [exact Hin | | exact Hid].
    now apply String.eqb_eq.
  - intros (conv & Hin & Hc & Hid). exists conv. split; [exact Hid|].
    apply filter_In. split; [exact Hin|]. now apply String.eqb_eq.
Qed.

End ClientProperties.



(** The scenario of the specification: page 2 is fetched before page 1, and
    the identifiers come back as [C; A; B]. *)
Example paginated_search_two_pages :
  (Intercom.get_conversation_ids_last_updated_between_timestamps
     100 150 5 5 Examples.two_pages).1
  = Ok ["C"; "A"; "B"].
Proof. reflexivity. Qed.


(** The loop requests a page before it tests [current_page > 1]: with
    [total_pages = 0] the client requests page 0 after page 1 and returns
    what that response lists, where the comment of the loop has it start at
    the last page and end at the first. *)
Example zero_total_pages_fetches_page_zero :
  (Intercom.get_conversation_ids_last_updated_between_timestamps
     100 150 5 5 Examples.no_pages).1
  = Ok ["A"] /\
  map (fun x => Intercom.sp_pagination x.1)
      (Intercom.successes
         (Intercom.history
            (Intercom.get_conversation_ids_last_updated_between_timestamps
               100 150 5 5 Examples.no_pages).2))
  = [Some 1%Z; Some 0%Z].
Proof. split; reflexivity. Qed.

(** *** The history only grows *)

Section ClientGrowth.
Import Intercom.

#[global] Instance extends_preorder : PreOrder extends.
Proof.
  split.
  - intros r. exists []. now rewrite app_nil_r.
  - intros a b c [h1 H1] [h2 H2]. exists (h1 ++ h2).
    now rewrite H2, H1, <- app_assoc.
Qed.

Lemma extends_record e r : extends r (record_event e r).
Proof. now exists [e]. Qed.

Lemma moves_requests_post payload : moves extends (requests_post payload).
Proof. intros r. apply extends_record. Qed.

Lemma moves_requests_get id : moves extends (requests_get id).
Proof. intros r. apply extends_record. Qed.

Lemma moves_time_sleep seconds : moves extends (time_sleep seconds).
Proof.
  intros r. unfold time_sleep.
  destruct (seconds <? 0)%Z; [exact eq_refl | apply extends_record].
Qed.

Lemma moves_headers_Status status :
  moves extends (headers_Status (S:=Remote) status).
Proof. destruct status; simpl; [moves_ret | now apply moves_raise]. Qed.

Lemma moves_logger e : moves extends (Intercom.logger e).
Proof. intros r. apply extends_record. Qed.

Ltac client :=
  repeat first
    [ apply moves_requests_post | apply moves_requests_get
    | apply moves_time_sleep | apply moves_logger
    | apply moves_headers_Status
    | apply moves_diverge
    | apply moves_raise; reflexivity
    | moves_ret
    | apply moves_bind; [apply _ | | intros ?] ].

Lemma moves_max_updated_loop start retries backoff n :
  forall failed, moves extends (max_updated_loop n start retries backoff failed).
Proof.
  induction n as [|n IH]; intros failed; simpl;
    destruct (failed <=? retries)%Z; try (client; fail).
  apply moves_bind; [apply _ | client | intros response].
  apply moves_bind; [apply _ | client | intros status].
  destruct (String.eqb _ _); client. apply IH.
Qed.

Lemma moves_total_pages_loop start end_ retries backoff n :
  forall failed, moves extends (total_pages_loop n start end_ retries backoff failed).
Proof.
  induction n as [|n IH]; intros failed; simpl;
    destruct (failed <=? retries)%Z; try (client; fail).
  apply moves_bind; [apply _ | client | intros response].
  apply moves_bind; [apply _ | client | intros status].
  destruct (String.eqb _ _); client. apply IH.
Qed.

Lemma moves_pages_loop start end_ retries backoff n :
  forall failed page ids,
    moves extends (pages_loop n start end_ retries backoff failed page ids).
Proof.
  induction n as [|n IH]; intros failed page ids; simpl;
    destruct (failed <=? retries)%Z; try (client; fail).
  apply moves_bind; [apply _ | client | intros response].
  apply moves_bind; [apply _ | client | intros status].
  destruct (String.eqb _ _).
  - destruct (1 <? page)%Z; [apply IH | client].
  - client. apply IH.
Qed.

Lemma moves_details_loop id retries backoff n :
  forall failed, moves extends (details_loop n id retries backoff failed).
Proof.
  induction n as [|n IH]; intros failed; simpl;
    destruct (failed <=? retries)%Z; try (client; fail).
  apply moves_bind; [apply _ | client | intros response].
  apply moves_bind; [apply _ | client | intros status].
  destruct (String.eqb _ _); client. apply IH.
Qed.

Lemma moves_max_updated start retries backoff :
  moves extends (get_conversation_max_updated_timestamp start retries backoff).
Proof.
  unfold get_conversation_max_updated_timestamp.
  apply moves_bind; [apply _ | apply moves_max_updated_loop | intros; moves_ret].
Qed.

Lemma moves_ids start end_ retries backoff :
  moves extends
        (get_conversation_ids_last_updated_between_timestamps start end_ retries backoff).
Proof.
  unfold get_conversation_ids_last_updated_between_timestamps.
  apply moves_bind; [apply _ | apply moves_total_pages_loop | intros [total failed]].
  apply moves_pages_loop.
Qed.

Lemma moves_details id retries backoff :
  moves extends (get_conversation_details id retries backoff).
Proof. apply moves_details_loop. Qed.

Lemma details_loop_ok id retries backoff :
  forall n failed r d r',
    details_loop n id retries backoff failed r = (Ok d, r') ->
    exists h response,
      history r' = history r ++ h ++ [Get id response] /\
      is_200_OK (dr_status response) = true /\
      d = dr_json response.
Proof.
  induction n as [|n IH]; intros failed r d r' H.
  - simpl in H. destruct (failed <=? retries)%Z; discriminate.
  - destruct (Z.leb_spec failed retries) as [Hle | Hgt];
      [| rewrite details_loop_exhausted in H by exact Hgt; discriminate].
    rewrite details_loop_S in H by exact Hle. cbv zeta in H.
    set (resp := conversation r (history r) id) in H.
    destruct (dr_status resp) as [status|] eqn:Hst; [|discriminate].
    destruct (String.eqb status "200 OK") eqn:Hresp.
    + injection H as <- <-. exists [], resp.
      split; [reflexivity|]. split; [now rewrite Hst | reflexivity].
    + destruct (backoff <? 0)%Z; [discriminate|].
      apply IH in H. destruct H as (h & response & Hh & Hok & Hd).
      exists (Get id resp :: LogQueryFailed :: Sleep backoff :: h), response.
      split; [|auto]. rewrite Hh. simpl. rewrite <- !app_assoc. reflexivity.
Qed.

End ClientGrowth.

(** ** The bulk loader *)

Section LoaderProperties.
Import Postgres DatabaseOperations.

Section MergeRows.
Implicit Types (t s : list json) (c : string).

Lemma sql_eq_true a b : sql_eq a b = true -> a = b /\ a <> JNull.
Proof.
  unfold sql_eq. destruct a, b; try discriminate;
    intros H; apply bool_decide_eq_true in H; split; congruence.
Qed.

Lemma sql_eq_refl a : a <> JNull -> sql_eq a a = true.
Proof.
  intros H. unfold sql_eq. destruct a; try congruence;
    now apply bool_decide_eq_true.
Qed.

Lemma cell_missing cols row c : c ∉ cols -> cell cols row c = JNull.
Proof.
  revert row. induction cols as [|k cols IH]; intros row Hc; [reflexivity|].
  destruct row as [|v row]; [reflexivity|]. simpl.
  apply not_elem_of_cons in Hc. destruct Hc as [Hne Hc].
  case_bool_decide; [congruence|]. now apply IH.
Qed.

Lemma cell_map (f : string -> json) cols c :
  cell cols (map f cols) c = if bool_decide (c ∈ cols) then f c else JNull.
Proof.
  induction cols as [|k cols IH].
  - first [reflexivity | simpl; case_bool_decide as H; [|reflexivity]; now apply elem_of_nil in H].
  - simpl. rewrite IH. clear IH.
    repeat case_bool_decide; subst; try reflexivity.
    + exfalso. match goal with H : _ ∉ _ |- _ => apply H end. apply list_elem_of_here.
    + exfalso. match goal with H : ¬ _ ∈ _ :: _ |- _ => apply H end.
      now apply list_elem_of_further.
    + match goal with H : _ ∈ _ :: _ |- _ => apply elem_of_cons in H; destruct H end;
        [congruence | contradiction].
Qed.

Lemma cell_updated_row tcols scols upd t s c :
  c ∉ upd -> cell tcols (updated_row tcols scols upd t s) c = cell tcols t c.
Proof.
  intros Hc. unfold updated_row. rewrite cell_map.
  rewrite (bool_decide_eq_false_2 (c ∈ upd)) by exact Hc.
  case_bool_decide as Hin; [reflexivity|]. symmetry. now apply cell_missing.
Qed.

Lemma updated_row_twice tcols scols upd t s :
  updated_row tcols scols upd (updated_row tcols scols upd t s) s
  = updated_row tcols scols upd t s.
Proof.
  unfold updated_row at 1 3. apply map_ext. intros c.
  case_bool_decide as Hin; [reflexivity|]. now apply cell_updated_row.
Qed.

Lemma updated_inserted_row tcols scols upd ins s :
  (forall c, c ∈ upd -> c ∈ ins) ->
  updated_row tcols scols upd (inserted_row tcols scols ins s) s
  = inserted_row tcols scols ins s.
Proof.
  intros Hsub. unfold updated_row, inserted_row at 2.
  apply map_ext_in. intros c Hc. apply list_elem_of_In in Hc.
  unfold inserted_row. rewrite cell_map, (bool_decide_eq_true_2 _ Hc).
  case_bool_decide as Hin; [|reflexivity].
  now rewrite (bool_decide_eq_true_2 _ (Hsub c Hin)).
Qed.

Lemma row_matches_spec tcols scols on t s :
  row_matches tcols scols on t s = true <->
  forall c, c ∈ on -> sql_eq (cell scols s c) (cell tcols t c) = true.
Proof.
  unfold row_matches. rewrite forallb_forall. split; intros H c Hc.
  - apply H. now apply list_elem_of_In.
  - apply H. now apply list_elem_of_In.
Qed.

Lemma row_matches_ext tcols scols on t t' s s' :
  (forall c, c ∈ on -> cell tcols t c = cell tcols t' c) ->
  (forall c, c ∈ on -> cell scols s c = cell scols s' c) ->
  row_matches tcols scols on t s = row_matches tcols scols on t' s'.
Proof.
  intros Ht Hs. unfold row_matches.
  induction on as [|c on IH]; [reflexivity|]. simpl.
  rewrite Ht, Hs by apply list_elem_of_here. f_equal.
  apply IH; intros c' Hc'; [apply Ht | apply Hs]; now apply list_elem_of_further.
Qed.

Lemma Forall2_elem_of_l {A B} (R : A -> B -> Prop) l k x :
  Forall2 R l k -> x ∈ l -> exists y, y ∈ k /\ R x y.
Proof.
  induction 1 as [|a b l k Hab _ IH]; intros Hx.
  - now apply elem_of_nil in Hx.
  - apply elem_of_cons in Hx. destruct Hx as [-> | Hx].
    + exists b. split; [apply list_elem_of_here | exact Hab].
    + destruct (IH Hx) as (y & Hy & Hr). exists y.
      split; [now apply list_elem_of_further | exact Hr].
Qed.

Lemma Forall2_elem_of_r {A B} (R : A -> B -> Prop) l k y :
  Forall2 R l k -> y ∈ k -> exists x, x ∈ l /\ R x y.
Proof.
  induction 1 as [|a b l k Hab _ IH]; intros Hy.
  - now apply elem_of_nil in Hy.
  - apply elem_of_cons in Hy. destruct Hy as [-> | Hy].
    + exists a. split; [apply list_elem_of_here | exact Hab].
    + destruct (IH Hy) as (x & Hx & Hr). exists x.
      split; [now apply list_elem_of_further | exact Hr].
Qed.

Lemma existsb_pointwise {A} (f g : A -> bool) l :
  (forall x, f x = g x) -> existsb f l = existsb g l.
Proof.
  intros H. induction l as [|a l IH]; [reflexivity|]. simpl. now rewrite H, IH.
Qed.

Lemma filter_none {A} (P : A -> bool) l :
  (forall x, x ∈ l -> P x = false) -> List.filter P l = [].
Proof.
  induction l as [|a l IH]; intros H; [reflexivity|]. simpl.
  rewrite (H a) by apply list_elem_of_here.
  apply IH. intros x Hx. apply H. now apply list_elem_of_further.
Qed.

Lemma filter_through {A} (P Q : A -> bool) l :
  (forall x, x ∈ l -> P x = true -> Q x = true) ->
  List.filter P l = List.filter P (List.filter Q l).
Proof.
  induction l as [|a l IH]; intros H; [reflexivity|]. simpl.
  assert (IH' : List.filter P l = List.filter P (List.filter Q l)).
  { apply IH. intros x Hx. apply H. now apply list_elem_of_further. }
  destruct (P a) eqn:Pa.
  - rewrite (H a (list_elem_of_here _ _) Pa). simpl. rewrite Pa. now f_equal.
  - destruct (Q a); simpl; [rewrite Pa|]; exact IH'.
Qed.

Lemma filter_unique {A B} (f : A -> B) (P : A -> bool) l x :
  NoDup (map f l) -> x ∈ l ->
  (forall y, y ∈ l -> P y = true <-> f y = f x) ->
  List.filter P l = [x].
Proof.
  induction l as [|a l IH]; intros Hnd Hx HP.
  - now apply elem_of_nil in Hx.
  - simpl in Hnd. apply NoDup_cons in Hnd. destruct Hnd as [Ha Hnd]. simpl.
    assert (Hl : forall y, y ∈ l -> f y <> f a).
    { intros y Hy Heq. apply Ha. rewrite <- Heq.
      apply list_elem_of_In, in_map, list_elem_of_In, Hy. }
    apply elem_of_cons in Hx. destruct Hx as [-> | Hx].
    + rewrite (proj2 (HP a (list_elem_of_here _ _)) eq_refl). f_equal.
      apply filter_none. intros y Hy.
      destruct (P y) eqn:Py; [|reflexivity].
      apply HP in Py; [|now apply list_elem_of_further]. now destruct (Hl y Hy).
    + destruct (P a) eqn:Pa.
      * apply HP in Pa; [|apply list_elem_of_here].
        destruct (Hl x Hx). now symmetry.
      * apply IH; [exact Hnd | exact Hx |].
        intros y Hy. apply HP. now apply list_elem_of_further.
Qed.

Section Merge.
Context (tcols scols K upd ins : list string).
Context (Hdisj : forall c, c ∈ K -> c ∉ upd) (Hsub : forall c, c ∈ upd -> c ∈ ins).

#[local] Abbreviation matches := (row_matches tcols scols K).
#[local] Abbreviation upd_row := (updated_row tcols scols upd).
#[local] Abbreviation ins_row := (inserted_row tcols scols ins).
#[local] Abbreviation kept_as := (Postgres.kept_as tcols scols K upd).
#[local] Abbreviation settled := (Postgres.settled tcols scols K upd).
#[local] Abbreviation key_not_null := (Postgres.key_not_null tcols K).
#[local] Abbreviation unmatched := (Postgres.unmatched tcols scols K).

Lemma merge_matched_inv S :
  forall T kept,
    merge_matched tcols scols K upd S T = Some kept ->
    Forall2 (kept_as S) T kept.
Proof.
  induction T as [|t T IH]; intros kept H; simpl in H.
  - inversion H. constructor.
  - destruct (List.filter (matches t) S) as [|s [|s' l]] eqn:E; try discriminate;
      destruct (merge_matched tcols scols K upd S T) as [kept'|] eqn:E2;
      simpl in H; try discriminate; inversion H; subst;
      (constructor; [|now apply IH]).
    + left. now split.
    + right. exists s. now split.
Qed.

Lemma merge_matched_settled S :
  forall L, Forall (settled S) L -> merge_matched tcols scols K upd S L = Some L.
Proof.
  induction L as [|t L IH]; intros H; [reflexivity|].
  apply Forall_cons in H. destruct H as [Ht HL]. simpl. rewrite (IH HL).
  destruct Ht as [-> | (s & -> & Hs)]; simpl; [reflexivity | now rewrite Hs].
Qed.

Lemma matches_updated t s s' :
  matches (upd_row t s) s' = matches t s'.
Proof.
  apply row_matches_ext; [|reflexivity].
  intros c Hc. apply cell_updated_row. now apply Hdisj.
Qed.

Lemma inserted_key s c :
  key_not_null (ins_row s) -> c ∈ K ->
  cell tcols (ins_row s) c = cell scols s c /\ cell scols s c <> JNull.
Proof.
  intros Hnn Hc. specialize (Hnn c Hc). unfold inserted_row in *.
  rewrite cell_map in *. repeat case_bool_decide; try congruence. now split.
Qed.

Lemma matches_inserted s0 s' :
  key_not_null (ins_row s0) ->
  matches (ins_row s0) s' = true <->
  forall c, c ∈ K -> cell scols s' c = cell scols s0 c.
Proof.
  intros Hnn. rewrite row_matches_spec. split; intros H c Hc.
  - destruct (inserted_key s0 c Hnn Hc) as [Heq _].
    destruct (sql_eq_true _ _ (H c Hc)) as [H1 _]. congruence.
  - destruct (inserted_key s0 c Hnn Hc) as [Heq Hnull].
    rewrite Heq, (H c Hc). now apply sql_eq_refl.
Qed.

Lemma matches_same_key t s s' :
  (forall c, c ∈ K -> cell scols s' c = cell scols s c) ->
  matches t s' = matches t s.
Proof. intros H. now apply row_matches_ext. Qed.

Lemma inserted_keys_eq s s' :
  key_not_null (ins_row s) -> key_not_null (ins_row s') ->
  (forall c, c ∈ K -> cell scols s' c = cell scols s c) <->
  map (cell tcols (ins_row s')) K = map (cell tcols (ins_row s)) K.
Proof.
  intros Hs Hs'. split.
  - intros H. apply map_ext_in. intros c Hc. apply list_elem_of_In in Hc.
    rewrite (proj1 (inserted_key s c Hs Hc)), (proj1 (inserted_key s' c Hs' Hc)).
    now apply H.
  - intros H c Hc.
    rewrite <- (proj1 (inserted_key s c Hs Hc)), <- (proj1 (inserted_key s' c Hs' Hc)).
    assert (Hin : In c K) by now apply list_elem_of_In.
    clear - H Hin. induction K as [|k K' IH]; [destruct Hin|].
    simpl in H. inversion H. destruct Hin as [-> | Hin]; [assumption | now apply IH].
Qed.

Lemma merge_rows_settle S0 S T kept :
  merge_matched tcols scols K upd (S0 ++ S) T = Some kept ->
  let T1 := kept ++ merge_not_matched tcols scols K ins (S0 ++ S) T in
  Forall key_not_null T1 ->
  NoDup (map (fun t1 => map (cell tcols t1) K) T1) ->
  merge_matched tcols scols K upd S T1 = Some T1 /\
  merge_not_matched tcols scols K ins S T1 = [].
Proof.
  intros Hm T1 Hnn Hnd.
  apply merge_matched_inv in Hm.
  set (U0 := List.filter (unmatched T) S0).
  set (U := List.filter (unmatched T) S).
  assert (HT1 : T1 = kept ++ map ins_row U0 ++ map ins_row U).
  { unfold T1, merge_not_matched. now rewrite List.filter_app, map_app. }
  assert (Hnn_ins : forall s, s ∈ U0 ++ U -> key_not_null (ins_row s)).
  { intros s Hs. rewrite Forall_forall in Hnn. apply Hnn. rewrite HT1.
    apply elem_of_app. right. rewrite <- map_app.
    apply list_elem_of_In, in_map, list_elem_of_In, Hs. }
  assert (Hnd_ins : NoDup (map (fun s => map (cell tcols (ins_row s)) K) U0
                           ++ map (fun s => map (cell tcols (ins_row s)) K) U)).
  { rewrite HT1, !map_app in Hnd. apply NoDup_app in Hnd.
    destruct Hnd as (_ & _ & Hnd). now rewrite !map_map in Hnd. }
  split.
  - apply merge_matched_settled. rewrite HT1.
    apply Forall_app. split; [|rewrite <- map_app].
    + apply Forall_forall. intros t1 Ht1.
      destruct (Forall2_elem_of_r _ _ _ _ Hm Ht1) as (t & _ & [[Hf ->] | (s & Hf & ->)]).
      * left. rewrite List.filter_app in Hf. now apply app_eq_nil in Hf.
      * rewrite List.filter_app in Hf.
        unfold settled. rewrite (List.filter_ext _ _ (matches_updated t s)).
        destruct (List.filter (matches t) S0) as [|a l];
          simpl in Hf.
        -- right. exists s. split; [exact Hf | apply updated_row_twice].
        -- left. injection Hf as Ha Hl. now apply app_eq_nil in Hl.
    + apply Forall_forall. intros t1 Ht1.
      apply list_elem_of_In, in_map_iff in Ht1. destruct Ht1 as (s0 & <- & Hs0).
      apply list_elem_of_In in Hs0.
      pose proof (Hnn_ins s0 Hs0) as Hk0.
      assert (Hu0 : unmatched T s0 = true).
      { apply elem_of_app in Hs0. destruct Hs0 as [Hs0 | Hs0];
          apply list_elem_of_In, filter_In in Hs0; tauto. }
      unfold settled.
      rewrite (filter_through (matches (ins_row s0)) (unmatched T) S).
      2:{ intros s' _ Hs'.
          pose proof (proj1 (matches_inserted s0 s' Hk0) Hs') as Hkey.
          unfold unmatched in *. rewrite <- Hu0. f_equal.
          apply existsb_pointwise. intros t. now apply matches_same_key. }
      fold U.
      assert (HP : forall y, y ∈ U ->
                   matches (ins_row s0) y = true <->
                   map (cell tcols (ins_row y)) K = map (cell tcols (ins_row s0)) K).
      { intros y Hy. rewrite (matches_inserted s0 y Hk0).
        apply inserted_keys_eq; [exact Hk0|].
        apply Hnn_ins, elem_of_app. now right. }
      apply NoDup_app in Hnd_ins. destruct Hnd_ins as (_ & Hdis & HndU).
      destruct (decide (s0 ∈ U)) as [HinU | HninU].
      * right. exists s0. split; [|now apply updated_inserted_row].
        now apply (filter_unique (fun s => map (cell tcols (ins_row s)) K)).
      * left. apply filter_none. intros y Hy.
        destruct (matches (ins_row s0) y) eqn:E; [|reflexivity].
        apply (HP y Hy) in E.
        apply elem_of_app in Hs0. destruct Hs0 as [Hs0 | Hs0]; [|contradiction].
        exfalso. apply (Hdis (map (cell tcols (ins_row s0)) K)).
        -- apply list_elem_of_In, in_map_iff. exists s0.
           split; [reflexivity | now apply list_elem_of_In].
        -- rewrite <- E. apply list_elem_of_In, in_map_iff. exists y.
           split; [reflexivity | now apply list_elem_of_In].
  - unfold merge_not_matched.
    rewrite filter_none; [reflexivity|].
    intros s Hs. apply negb_false_iff, existsb_exists.
    destruct (existsb (fun t => matches t s) T) eqn:E.
    + apply existsb_exists in E. destruct E as (t & Ht & Hts).
      apply list_elem_of_In in Ht.
      destruct (Forall2_elem_of_l _ _ _ _ Hm Ht) as (t1 & Ht1 & [[Hf ->] | (s' & Hf & ->)]).
      * exfalso. assert (Hin : In s (List.filter (matches t) (S0 ++ S))).
        { apply filter_In. split; [|exact Hts].
          apply in_or_app. right. now apply list_elem_of_In. }
        rewrite Hf in Hin. destruct Hin.
      * exists (upd_row t s'). split.
        -- apply list_elem_of_In. rewrite HT1. apply elem_of_app. now left.
        -- now rewrite matches_updated.
    + exists (ins_row s).
      assert (HsU : s ∈ U).
      { apply list_elem_of_In, filter_In. split; [now apply list_elem_of_In|].
        unfold unmatched. now rewrite E. }
      split.
      * apply list_elem_of_In. rewrite HT1. apply elem_of_app. right.
        apply elem_of_app. right.
        apply list_elem_of_In, in_map, list_elem_of_In, HsU.
      * apply matches_inserted; [|reflexivity].
        apply Hnn_ins, elem_of_app. now right.
Qed.

End Merge.
End MergeRows.

Section MergeStatement.
Implicit Types (db : Database) (cur : Cursor).

Lemma cur_execute_eq stmt cur :
  cur_execute stmt cur
  = ((exec stmt (view cur)).1,
     {| view := (exec stmt (view cur)).2; issued := issued cur ++ [stmt] |}).
Proof. unfold cur_execute. now destruct (exec stmt (view cur)). Qed.

Lemma constraints_on_one db schema table_name e :
  constraints_on db schema table_name = [e] ->
  e.1.1 = schema /\ primary_keys db !! e.1 = Some e.2.
Proof.
  intros H. assert (Hin : In e (constraints_on db schema table_name))
    by (rewrite H; now left).
  apply filter_In in Hin. destruct Hin as [Hin Hp].
  apply andb_true_iff in Hp. destruct Hp as [Hs _].
  apply bool_decide_eq_true in Hs. split; [exact Hs|].
  apply list_elem_of_In in Hin. destruct e as [k v].
  now apply elem_of_map_to_list in Hin.
Qed.

Lemma constraints_ok_one cols not_null key rows :
  constraints_ok cols not_null [key] rows = true ->
  Forall (key_not_null cols key) rows /\
  NoDup (map (fun t1 => map (cell cols t1) key) rows).
Proof.
  unfold constraints_ok. simpl. rewrite !andb_true_iff.
  intros (_ & (Hnn & Hu) & _). split.
  - apply Forall_forall. intros t1 Ht1 c Hc.
    rewrite forallb_forall in Hnn.
    specialize (Hnn t1 (proj1 (list_elem_of_In _ _) Ht1)).
    unfold not_null_ok in Hnn. rewrite forallb_forall in Hnn.
    specialize (Hnn c (proj1 (list_elem_of_In _ _) Hc)).
    apply negb_true_iff, bool_decide_eq_false in Hnn. exact Hnn.
  - unfold unique_ok in Hu. now apply bool_decide_eq_true in Hu.
Qed.

Lemma constraints_ok_app_r cols not_null rows1 rows2 :
  constraints_ok cols not_null [] (rows1 ++ rows2) = true ->
  constraints_ok cols not_null [] rows2 = true.
Proof.
  unfold constraints_ok. simpl. rewrite !andb_true_r, forallb_app.
  intros H. now apply andb_true_iff in H.
Qed.

End MergeStatement.

Lemma get_primary_key_name_ok schema table_name cur n cur' :
  get_primary_key_name schema table_name cur = (Ok n, cur') ->
  cur' = {| view := view cur;
            issued := issued cur ++ [SelectPrimaryKeyCount schema table_name] |} /\
  exists name pk,
    constraints_on (view cur) schema table_name = [((schema, name), pk)] /\
    n = JStr name.
Proof.
  unfold get_primary_key_name, bind. rewrite cur_execute_eq. simpl.
  case_bool_decide as Hc; simpl; [|discriminate].
  intros [= <- <-]. split; [reflexivity|].
  destruct (constraints_on (view cur) schema table_name) as [|[[s name] pk] [|e l]] eqn:E;
    simpl in Hc; try (injection Hc; lia).
  destruct (constraints_on_one _ _ _ _ E) as [Hs _]. simpl in Hs. subst s.
  now exists name, pk.
Qed.

Lemma get_key_columns_eq schema name cur :
  get_key_columns schema (JStr name) cur
  = (Ok (key_columns_listed (view cur) schema name),
     {| view := view cur;
        issued := issued cur ++ [SelectKeyColumns schema (JStr name)] |}).
Proof.
  unfold get_key_columns, bind. rewrite cur_execute_eq. simpl.
  unfold ret. do 2 f_equal.
  induction (key_columns_listed (view cur) schema name) as [|c l IH]; [reflexivity|].
  simpl. f_equal. exact IH.
Qed.

(** *** The key-column query *)

Lemma by_position_one (key : list string) :
  forall n, (length key <= n)%nat -> by_position n [key] = key.
Proof.
  intros n. revert key. induction n as [|n IH]; intros key Hn.
  - destruct key; [reflexivity | simpl in Hn; lia].
  - destruct key as [|c key]; simpl.
    + now rewrite (IH []) by (simpl; lia).
    + rewrite drop_0. f_equal. apply IH. simpl in Hn. lia.
Qed.

Lemma by_position_elem (keys : list (list string)) key c :
  key ∈ keys -> c ∈ key ->
  forall n, (length key <= n)%nat -> c ∈ by_position n keys.
Proof.
  intros Hkey Hc n. revert keys key Hkey Hc.
  induction n as [|n IH]; intros keys key Hkey Hc Hn.
  - destruct key; [now apply elem_of_nil in Hc | simpl in Hn; lia].
  - destruct key as [|c0 key]; [now apply elem_of_nil in Hc|].
    simpl. apply elem_of_app. apply elem_of_cons in Hc. destruct Hc as [-> | Hc].
    + left. apply list_elem_of_omap. exists (c0 :: key). now split.
    + right. apply (IH _ key); [| exact Hc | simpl in Hn; lia].
      apply list_elem_of_In, in_map_iff. exists (c0 :: key).
      split; [reflexivity | now apply list_elem_of_In].
Qed.

Lemma length_le_max (keys : list (list string)) key :
  key ∈ keys -> (length key <= foldr Nat.max 0%nat (map length keys))%nat.
Proof.
  induction keys as [|k keys IH]; intros H; [now apply elem_of_nil in H|].
  apply elem_of_cons in H. simpl. destruct H as [-> | H]; [lia|].
  specialize (IH H). lia.
Qed.

(** The columns of the primary key are among the columns listed under its
    name. *)
Lemma pk_columns_listed db schema name pk c :
  primary_keys db !! (schema, name) = Some pk ->
  c ∈ pk_columns pk -> c ∈ key_columns_listed db schema name.
Proof.
  intros Hpk Hc. unfold key_columns_listed.
  assert (Hin : pk_columns pk ∈ key_column_usage db schema name).
  { unfold key_column_usage. rewrite Hpk.
    apply elem_of_app. right. apply elem_of_app. left. apply list_elem_of_here. }
  apply (by_position_elem _ _ _ Hin Hc). now apply length_le_max.
Qed.

(** They are the columns listed when no foreign key bears the name. *)
Lemma key_columns_listed_alone db schema table_name name pk :
  constraints_on db schema table_name = [((schema, name), pk)] ->
  key_listed_alone db schema table_name ->
  key_columns_listed db schema name = pk_columns pk.
Proof.
  intros Hcons Halone.
  destruct (constraints_on_one _ _ _ _ Hcons) as [_ Hpk]. cbn [fst snd] in Hpk.
  assert (Hnone : forall first,
             List.filter (fun k => bool_decide (fk_schema k = schema) &&
                                   bool_decide (fk_name k = name) &&
                                   bool_decide (fk_first k = first))
                         (foreign_keys db) = []).
  { intros first. apply filter_none. intros k Hk.
    destruct (bool_decide (fk_schema k = schema)) eqn:Hs; [|reflexivity].
    destruct (bool_decide (fk_name k = name)) eqn:Hn; [|reflexivity].
    apply bool_decide_eq_true in Hs. apply bool_decide_eq_true in Hn.
    exfalso. apply (Halone k ((schema, name), pk) Hk); [|exact Hs | exact Hn].
    rewrite Hcons. apply list_elem_of_here. }
  unfold key_columns_listed, key_column_usage. rewrite Hpk, !Hnone.
  cbn [map app]. apply by_position_one. simpl. lia.
Qed.

Lemma key_columns_listed_ext db db' schema name :
  primary_keys db' = primary_keys db -> foreign_keys db' = foreign_keys db ->
  key_columns_listed db' schema name = key_columns_listed db schema name.
Proof.
  intros Hp Hf. unfold key_columns_listed, key_column_usage. now rewrite Hp, Hf.
Qed.

Lemma exec_create_ok tmp schema table_name db r db' :
  exec (CreateTemporaryTableLike tmp schema table_name) db = (Ok r, db') ->
  exists s,
    temporary db' !! tmp = Some s /\
    (forall t, relations db !! (schema, table_name) = Some t ->
               s = staging db schema table_name tmp t) /\
    db' = store db None tmp s.
Proof.
  simpl. unfold staging. destruct (temporary db !! tmp) as [s|] eqn:E.
  - intros [= <- <-]. exists s. split; [exact E|]. split; [reflexivity|].
    unfold store. destruct db; simpl in *. f_equal. symmetry. now apply insert_id.
  - destruct (relations db !! (schema, table_name)) as [t|]; [|discriminate].
    intros [= <- <-]. eexists. split; [simpl; apply lookup_insert_eq|].
    split; [|reflexivity]. now intros t' [= <-].
Qed.

Lemma exec_copy_tmp_ok tmp cols rows db r db' :
  exec (Copy None tmp cols rows) db = (Ok r, db') ->
  exists s,
    temporary db !! tmp = Some s /\
    copy_accepts s cols rows /\
    adapts db rows = true /\
    constraints_ok (t_columns s) (t_not_null s) []
                   (t_rows s ++ map (inserted_row (t_columns s) cols cols) rows) = true /\
    db' = store db None tmp
                (with_rows s (t_rows s ++ map (inserted_row (t_columns s) cols cols) rows)).
Proof.
  simpl. destruct (temporary db !! tmp) as [s|] eqn:E; [|discriminate].
  case_bool_decide as Hcols; [discriminate|].
  destruct (subset_of cols (t_columns s)) eqn:Hsub; [|discriminate].
  destruct (adapts db rows) eqn:Had; [|discriminate].
  destruct (forallb _ rows) eqn:Hlen; [|discriminate]. simpl.
  destruct (constraints_ok _ _ _ _) eqn:Hc; [|discriminate].
  intros [= <- <-]. exists s. unfold copy_accepts. now repeat split.
Qed.

Lemma exec_copy_tmp tmp cols rows db s :
  temporary db !! tmp = Some s ->
  copy_accepts s cols rows ->
  adapts db rows = true ->
  constraints_ok (t_columns s) (t_not_null s) []
                 (t_rows s ++ map (inserted_row (t_columns s) cols cols) rows) = true ->
  exec (Copy None tmp cols rows) db
  = (Ok [], store db None tmp
                  (with_rows s (t_rows s ++ map (inserted_row (t_columns s) cols cols) rows))).
Proof.
  intros Hs (Hcols & Hsub & Hlen) Had Hc. simpl. rewrite Hs.
  rewrite bool_decide_eq_false_2 by exact Hcols.
  rewrite Hsub, Had, Hlen. simpl. now rewrite Hc.
Qed.

Lemma exec_merge_ok schema table_name tmp on upd ins db r db' :
  exec (MergeInto schema table_name tmp on upd ins) db = (Ok r, db') ->
  exists t s kept,
    relations db !! (schema, table_name) = Some t /\
    temporary db !! tmp = Some s /\
    merge_accepts t s on upd ins /\
    merge_matched (t_columns t) (t_columns s) on upd (t_rows s) (t_rows t) = Some kept /\
    constraints_ok (t_columns t) (t_not_null t) (keys_on db schema table_name)
      (kept ++ merge_not_matched (t_columns t) (t_columns s) on ins (t_rows s) (t_rows t))
    = true /\
    db' = store db (Some schema) table_name
            (with_rows t (kept ++ merge_not_matched (t_columns t) (t_columns s) on ins
                                                   (t_rows s) (t_rows t))).
Proof.
  simpl. destruct (relations db !! (schema, table_name)) as [t|] eqn:Et; [|discriminate].
  destruct (temporary db !! tmp) as [s|] eqn:Es; [|discriminate].
  destruct (_ || _) eqn:Hsyn; [discriminate|].
  destruct (subset_of _ _ && subset_of _ _) eqn:Hcols; [|discriminate]. simpl.
  destruct (merge_matched _ _ _ _ _ _) as [kept|] eqn:Ek; [|discriminate].
  destruct (constraints_ok _ _ _ _) eqn:Ec; [|discriminate].
  intros [= <- <-]. exists t, s, kept. unfold merge_accepts. now repeat split.
Qed.

Lemma exec_merge schema table_name tmp on upd ins db t s kept :
  relations db !! (schema, table_name) = Some t ->
  temporary db !! tmp = Some s ->
  merge_accepts t s on upd ins ->
  merge_matched (t_columns t) (t_columns s) on upd (t_rows s) (t_rows t) = Some kept ->
  constraints_ok (t_columns t) (t_not_null t) (keys_on db schema table_name)
    (kept ++ merge_not_matched (t_columns t) (t_columns s) on ins (t_rows s) (t_rows t))
  = true ->
  exec (MergeInto schema table_name tmp on upd ins) db
  = (Ok [], store db (Some schema) table_name
              (with_rows t (kept ++ merge_not_matched (t_columns t) (t_columns s) on ins
                                                     (t_rows s) (t_rows t)))).
Proof.
  intros Ht Hs (Hsyn & Hcols) Hk Hc. simpl. rewrite Ht, Hs, Hsyn, Hcols. simpl.
  now rewrite Hk, Hc.
Qed.

Lemma exec_truncate_ok tmp db r db' :
  exec (TruncateTable tmp) db = (Ok r, db') ->
  exists s, temporary db !! tmp = Some s /\ db' = store db None tmp (with_rows s []).
Proof.
  simpl. destruct (temporary db !! tmp) as [s|] eqn:Es; [|discriminate].
  intros [= <- <-]. now exists s.
Qed.

Lemma get_primary_key_name_one schema table_name cur name pk :
  constraints_on (view cur) schema table_name = [((schema, name), pk)] ->
  get_primary_key_name schema table_name cur
  = (Ok (JStr name),
     {| view := view cur;
        issued := issued cur ++ [SelectPrimaryKeyCount schema table_name] |}).
Proof.
  intros H. unfold get_primary_key_name, bind. rewrite cur_execute_eq. simpl.
  rewrite H. reflexivity.
Qed.

Lemma bind_Ok {S A B} (m : M S A) (k : A -> M S B) s r s' :
  (let* x := m in k x) s = (Ok r, s') ->
  exists a s1, m s = (Ok a, s1) /\ k a s1 = (Ok r, s').
Proof.
  unfold bind. destruct (m s) as [[a| |] s1]; try discriminate. eauto.
Qed.

Lemma cur_execute_Ok stmt cur r cur' :
  cur_execute stmt cur = (Ok r, cur') ->
  exists db', exec stmt (view cur) = (Ok r, db') /\
              cur' = {| view := db'; issued := issued cur ++ [stmt] |}.
Proof.
  unfold cur_execute. destruct (exec stmt (view cur)) as [o db'].
  intros [= -> <-]. eauto.
Qed.

Lemma keys_on_store db target name t schema table_name :
  keys_on (store db target name t) schema table_name = keys_on db schema table_name.
Proof. now destruct target. Qed.

Lemma keys_on_primary_keys db db' schema table_name :
  primary_keys db = primary_keys db' ->
  keys_on db schema table_name = keys_on db' schema table_name.
Proof. intros H. unfold keys_on, constraints_on. now rewrite H. Qed.

Lemma exec_create_exists tmp schema table_name db s :
  temporary db !! tmp = Some s ->
  exec (CreateTemporaryTableLike tmp schema table_name) db = (Ok [], db).
Proof. intros H. simpl. now rewrite H. Qed.


Lemma filter_not_in_spec (K cols : list string) c :
  c ∈ List.filter (fun col => negb (bool_decide (col ∈ K))) cols <->
  c ∈ cols /\ c ∉ K.
Proof.
  rewrite list_elem_of_In, filter_In, <- list_elem_of_In.
  now rewrite negb_true_iff, bool_decide_eq_false.
Qed.

(** What a merge of a non-empty row-set that went through has found and
    done; [K] is what the key-column query listed. *)
Lemma merge_Ok_inv schema table_name df cur cur1 :
  merge_dataframe_into_table schema table_name df cur = (Ok tt, cur1) ->
  len df <> 0%nat ->
  exists name pk t,
    constraints_on (view cur) schema table_name = [((schema, name), pk)] /\
    relations (view cur) !! (schema, table_name) = Some t /\
    let tmp := ("tmp_" ++ table_name)%string in
    let s0 := staging (view cur) schema table_name tmp t in
    let K := key_columns_listed (view cur) schema name in
    let upd := List.filter (fun col => negb (bool_decide (col ∈ K))) (df_columns df) in
    let S := t_rows s0 ++ map (inserted_row (t_columns s0) (df_columns df) (df_columns df))
                              (df_records df) in
    exists kept,
    let T1 := kept ++ merge_not_matched (t_columns t) (t_columns s0) K (df_columns df)
                                        S (t_rows t) in
    copy_accepts s0 (df_columns df) (df_records df) /\
    adapts (view cur) (df_records df) = true /\
    constraints_ok (t_columns s0) (t_not_null s0) [] S = true /\
    merge_accepts t s0 K upd (df_columns df) /\
    merge_matched (t_columns t) (t_columns s0) K upd S (t_rows t) = Some kept /\
    constraints_ok (t_columns t) (t_not_null t) [pk_columns pk] T1 = true /\
    cur1
    = {| view :=
           {| relations :=
                <[(schema, table_name) := with_rows t T1]> (relations (view cur));
              primary_keys := primary_keys (view cur);
              foreign_keys := foreign_keys (view cur);
              temporary := <[tmp := with_rows s0 []]> (temporary (view cur));
              adapts := adapts (view cur) |};
         issued := issued cur ++ merge_statements schema table_name df name K |}.
Proof.
  intros H Hlen. unfold merge_dataframe_into_table in H.
  rewrite bool_decide_eq_false_2 in H by exact Hlen.
  apply bind_Ok in H as (n & c1 & E1 & H).
  apply get_primary_key_name_ok in E1 as (-> & name & pk & Hcons & ->).
  apply bind_Ok in H as (K & c2 & E2 & H).
  rewrite get_key_columns_eq in E2. cbn [view issued] in E2.
  injection E2 as <- <-.
  apply bind_Ok in H as (r1 & c3 & E3 & H).
  apply cur_execute_Ok in E3 as (db3 & E3 & ->). cbn [view issued] in E3.
  apply exec_create_ok in E3 as (s0 & Hs0 & Hstaging & ->).
  apply bind_Ok in H as (r2 & c4 & E4 & H).
  unfold load_dataframe_to_table in E4.
  rewrite bool_decide_eq_false_2 in E4 by exact Hlen.
  apply bind_Ok in E4 as (r2' & c4' & E4 & E4').
  injection E4' as <- <-.
  apply cur_execute_Ok in E4 as (db4 & E4 & ->). cbn [view issued] in E4.
  apply exec_copy_tmp_ok in E4 as (s1 & Hs1 & E4c & Had & Hc4 & ->).
  apply bind_Ok in H as (r3 & c5 & E5 & H).
  apply cur_execute_Ok in E5 as (db5 & E5 & ->). cbn [view issued] in E5.
  apply exec_merge_ok in E5 as (t & s2 & kept & Ht & Hs2 & E5c & Hkept & Hc5 & ->).
  apply bind_Ok in H as (r4 & c6 & E6 & H).
  apply cur_execute_Ok in E6 as (db6 & E6 & ->). cbn [view issued] in E6.
  apply exec_truncate_ok in E6 as (s3 & Hs3 & ->).
  injection H as <-.
  rewrite !keys_on_store in Hc5. unfold keys_on in Hc5. rewrite Hcons in Hc5.
  cbn [map snd] in Hc5.
  simpl in Hs1, Hs2, Hs3, Ht, Had.
  rewrite lookup_insert_eq in Hs1. injection Hs1 as <-.
  rewrite lookup_insert_eq in Hs2. injection Hs2 as <-.
  rewrite lookup_insert_eq in Hs3. injection Hs3 as <-.
  cbn [t_columns t_rows t_not_null with_rows] in *.
  specialize (Hstaging t Ht). subst s0.
  exists name, pk, t. cbv zeta.
  split; [exact Hcons|]. split; [exact Ht|]. exists kept.
  split; [exact E4c|]. split; [exact Had|]. split; [exact Hc4|].
  split; [exact E5c|]. split; [exact Hkept|]. split; [exact Hc5|].
  f_equal.
  - unfold store.
    cbn [relations primary_keys foreign_keys temporary adapts
         t_columns t_rows t_not_null with_rows].
    f_equal. now rewrite !insert_insert_eq.
  - unfold merge_statements. rewrite <- !app_assoc. reflexivity.
Qed.

(** C7, as the code has it by design.  On a table whose primary key is
    listed alone by the key-column query (no foreign key of the schema
    bears its name), an upsert-merge of a row-set that goes through
    - when the row-set has a row, has found exactly one primary key on the
      table; the rows of the table are then the rows it had, in their
      order, each kept as it was when no staged row has its key and else
      updated, in the columns of the row-set outside the key, from the one
      staged row that has its key, followed by the staged rows whose key no
      row of the table had, with NULL in the columns the row-set lacks; and
      the staging table is left empty;
    - run a second time with the same row-set, goes through again and
      leaves the database exactly as the first run left it. *)
Theorem merge_dataframe_into_table_idempotent schema table_name df cur cur1 :
  key_listed_alone (view cur) schema table_name ->
  merge_dataframe_into_table schema table_name df cur = (Ok tt, cur1) ->
  (len df <> 0%nat ->
   exists name pk t kept,
     constraints_on (view cur) schema table_name = [((schema, name), pk)] /\
     relations (view cur) !! (schema, table_name) = Some t /\
     let tmp := ("tmp_" ++ table_name)%string in
     let s0 := staging (view cur) schema table_name tmp t in
     let K := pk_columns pk in
     let upd := List.filter (fun col => negb (bool_decide (col ∈ K))) (df_columns df) in
     let staged :=
       t_rows s0 ++ map (inserted_row (t_columns s0) (df_columns df) (df_columns df))
                        (df_records df) in
     Forall2 (kept_as (t_columns t) (t_columns s0) K upd staged) (t_rows t) kept /\
     relations (view cur1) !! (schema, table_name)
     = Some (with_rows t
               (kept ++ map (inserted_row (t_columns t) (t_columns s0) (df_columns df))
                            (List.filter
                               (unmatched (t_columns t) (t_columns s0) K (t_rows t))
                               staged))) /\
     temporary (view cur1) !! tmp = Some (with_rows s0 [])) /\
  exists cur2,
    merge_dataframe_into_table schema table_name df cur1 = (Ok tt, cur2) /\
    view cur2 = view cur1.
Proof.
  intros Halone H.
  destruct (decide (len df = 0%nat)) as [Hlen | Hlen].
  { unfold merge_dataframe_into_table in *.
    rewrite bool_decide_eq_true_2 in * by exact Hlen.
    injection H as <-. split; [intros; contradiction|]. now exists cur. }
  destruct (merge_Ok_inv _ _ _ _ _ H Hlen)
    as (name & pk & t & Hcons & Ht & kept & Hcopy & Had & Hc4 & Hacc & Hkept & Hc5
        & Hcur1).
  cbv zeta in *.
  rewrite (key_columns_listed_alone _ _ _ _ _ Hcons Halone) in *.
  set (tmp := ("tmp_" ++ table_name)%string) in *.
  set (s0 := staging (view cur) schema table_name tmp t) in *.
  set (K := pk_columns pk) in *.
  set (upd := List.filter (fun col => negb (bool_decide (col ∈ K))) (df_columns df)) in *.
  set (new := map (inserted_row (t_columns s0) (df_columns df) (df_columns df))
                  (df_records df)) in *.
  set (T1 := kept ++ merge_not_matched (t_columns t) (t_columns s0) K (df_columns df)
                                       (t_rows s0 ++ new) (t_rows t)) in *.
  split.
  { intros _. exists name, pk, t, kept.
    split; [exact Hcons|]. split; [exact Ht|].
    split; [now apply merge_matched_inv|].
    rewrite Hcur1. cbn [view relations temporary].
    split; apply lookup_insert_eq. }
  destruct (constraints_ok_one _ _ _ _ Hc5) as [Hnn Hnd].
  assert (Hdisj : forall c, c ∈ K -> c ∉ upd).
  { intros c Hc Hu. apply filter_not_in_spec in Hu. tauto. }
  assert (Hupd : forall c, c ∈ upd -> c ∈ df_columns df).
  { intros c Hu. apply filter_not_in_spec in Hu. tauto. }
  destruct (merge_rows_settle (t_columns t) (t_columns s0) K upd (df_columns df)
              Hdisj Hupd (t_rows s0) new (t_rows t) kept Hkept Hnn Hnd)
    as [Hsettled Hnone].
  fold T1 in Hsettled, Hnone.
  assert (Hcons1 : constraints_on (view cur1) schema table_name
                   = [((schema, name), pk)]).
  { rewrite Hcur1. exact Hcons. }
  assert (HK1 : key_columns_listed (view cur1) schema name = K).
  { rewrite (key_columns_listed_ext (view cur) (view cur1))
      by (rewrite Hcur1; reflexivity).
    exact (key_columns_listed_alone _ _ _ _ _ Hcons Halone). }
  eexists. split.
  - unfold merge_dataframe_into_table.
    rewrite bool_decide_eq_false_2 by exact Hlen.
    unfold bind at 1. rewrite (get_primary_key_name_one _ _ _ name pk) by exact Hcons1.
    unfold bind at 1. rewrite get_key_columns_eq. cbn [view issued].
    rewrite HK1. fold tmp upd.
    rewrite Hcur1. cbn [view issued].
    unfold bind at 1. rewrite cur_execute_eq. cbn [view issued].
    erewrite (exec_create_exists tmp schema table_name) by (simpl; apply lookup_insert_eq).
    cbn [fst snd].
    unfold load_dataframe_to_table. rewrite bool_decide_eq_false_2 by exact Hlen.
    unfold bind at 1. unfold bind at 1. rewrite cur_execute_eq. cbn [view issued].
    erewrite (exec_copy_tmp tmp (df_columns df) (df_records df) _ (with_rows s0 []));
      [| simpl; apply lookup_insert_eq
       | exact Hcopy
       | exact Had
       | simpl; fold new; now apply (constraints_ok_app_r _ _ (t_rows s0)) ].
    cbn [fst snd ret].
    unfold bind at 1. rewrite cur_execute_eq. cbn [view issued].
    erewrite (exec_merge schema table_name tmp K upd (df_columns df) _
                         (with_rows t T1) (with_rows s0 new) T1);
      [| simpl; apply lookup_insert_eq
       | simpl; rewrite insert_insert_eq; apply lookup_insert_eq
       | exact Hacc
       | exact Hsettled
       | cbn [t_columns t_rows t_not_null with_rows];
         rewrite Hnone, app_nil_r;
         rewrite (keys_on_primary_keys _ (view cur)) by reflexivity;
         unfold keys_on; rewrite Hcons; exact Hc5 ].
    cbn [fst snd].
    unfold bind at 1. rewrite cur_execute_eq. cbn [view issued].
    simpl exec. rewrite insert_insert_eq, lookup_insert_eq. cbn [fst snd].
    reflexivity.
  - rewrite Hcur1. cbn [view]. unfold store.
    cbn [relations primary_keys foreign_keys temporary adapts
         t_columns t_rows t_not_null with_rows].
    rewrite Hnone, app_nil_r. f_equal.
    + now rewrite insert_insert_eq.
    + now rewrite !insert_insert_eq.
Qed.

(** C9.  With a zero-row row-set, replace-load and upsert-merge return at
    once: the cursor is as before, so that no statement was issued (no
    write, no load, no merge) and the store is unchanged. *)
Theorem zero_rows_issue_no_statement
        (target : option string) (schema table_name : string) df cur :
  len df = 0%nat ->
  load_dataframe_to_table target table_name df cur = (Ok tt, cur) /\
  merge_dataframe_into_table schema table_name df cur = (Ok tt, cur).
Proof.
  intros H. unfold load_dataframe_to_table, merge_dataframe_into_table.
  now rewrite !bool_decide_eq_true_2.
Qed.

(** C3, as the code has it.  On a destination table whose number of
    primary-key constraints is not one, an upsert-merge of a row-set with at
    least one row raises at the primary-key check, before any data
    movement: the store is unchanged and the count query is the only
    statement issued (no staging table, no row written, no merge); an
    upsert-merge of a zero-row row-set returns normally without a
    statement. *)
Theorem merge_without_single_key schema table_name df cur :
  length (constraints_on (view cur) schema table_name) <> 1%nat ->
  (len df = 0%nat ->
   merge_dataframe_into_table schema table_name df cur = (Ok tt, cur)) /\
  (len df <> 0%nat ->
   exists e,
     merge_dataframe_into_table schema table_name df cur
     = (Raise e,
        {| view := view cur;
           issued := issued cur ++ [SelectPrimaryKeyCount schema table_name] |})).
Proof.
  intros Hkeys. split; intros Hlen.
  - unfold merge_dataframe_into_table. now rewrite bool_decide_eq_true_2.
  - unfold merge_dataframe_into_table.
    rewrite bool_decide_eq_false_2 by exact Hlen.
    unfold bind at 1. unfold get_primary_key_name, bind.
    rewrite cur_execute_eq. simpl.
    case_bool_decide as Hc; simpl; [|eauto].
    injection Hc as Hc. lia.
Qed.

End LoaderProperties.

(** A merge of two parts into a table that holds one of them. *)
Lemma merge_dataframe_into_table_idempotent_witness :
  exists cur2,
    DatabaseOperations.merge_dataframe_into_table
      "intercom" "conversation_parts" Examples.parts_frame
      (DatabaseOperations.merge_dataframe_into_table
         "intercom" "conversation_parts" Examples.parts_frame
         (Examples.fresh_cursor Examples.store_with_key)).2
    = (Ok tt, cur2) /\
    Postgres.view cur2
    = Postgres.view
        (DatabaseOperations.merge_dataframe_into_table
           "intercom" "conversation_parts" Examples.parts_frame
           (Examples.fresh_cursor Examples.store_with_key)).2.
Proof.
  apply (merge_dataframe_into_table_idempotent
           "intercom" "conversation_parts" Examples.parts_frame
           (Examples.fresh_cursor Examples.store_with_key)).
  - intros k e Hk. now apply elem_of_nil in Hk.
  - vm_compute. reflexivity.
Defined.

(** C7 as stated fails.  The row-set has the key and [body], not
    [conversation_id], so that its staged rows have NULL there.  The stored
    part [p1] is matched: its [body] is updated, and its
    [conversation_id], a non-key column, is not updated from the staged row
    but left as it was.  The part [p2] is not matched: it is inserted with
    NULL in the column the row-set lacks. *)
Lemma merge_updates_the_columns_of_the_row_set_only :
  let run :=
    DatabaseOperations.merge_dataframe_into_table
      "intercom" "conversation_parts" Examples.bodies_frame
      (Examples.fresh_cursor Examples.store_with_key) in
  length (Postgres.constraints_on Examples.store_with_key
                                  "intercom" "conversation_parts") = 1%nat /\
  run.1 = Ok tt /\
  option_map Postgres.t_rows
    (Postgres.relations (Postgres.view run.2) !! ("intercom", "conversation_parts"))
  = Some [[JStr "c1"; JStr "p1"; JStr "new"]; [JNull; JStr "p2"; JStr "more"]].
Proof. vm_compute. repeat split; reflexivity. Qed.

(** Where a foreign key of the schema bears the name of the primary key,
    the key-column query lists its columns with the key's, and the merge
    joins on all of them.  Here [conversation_id] is one: the part [p9],
    staged with NULL there, matches no row, not even the row it was
    inserted as, and a second merge of the same row-set fails on the
    primary key. *)
Example merge_with_a_namesake_is_not_idempotent :
  let first :=
    DatabaseOperations.merge_dataframe_into_table
      "intercom" "conversation_parts" Examples.orphan_frame
      (Examples.fresh_cursor Examples.store_with_namesake) in
  (DatabaseOperations.get_key_columns
     "intercom" (JStr "conversation_parts_pkey")
     (Examples.fresh_cursor Examples.store_with_namesake)).1
  = Ok ["id"; "conversation_id"] /\
  first.1 = Ok tt /\
  (DatabaseOperations.merge_dataframe_into_table
     "intercom" "conversation_parts" Examples.orphan_frame first.2).1
  = Raise (DatabaseError "integrity_constraint_violation").
Proof. vm_compute. repeat split; reflexivity. Qed.

(** An empty row-set against any table. *)
Lemma zero_rows_issue_no_statement_witness :
  DatabaseOperations.load_dataframe_to_table
    (Some "intercom") "conversation_tags" (pd_DataFrame [])
    (Examples.fresh_cursor Examples.store_with_key)
  = (Ok tt, Examples.fresh_cursor Examples.store_with_key) /\
  DatabaseOperations.merge_dataframe_into_table
    "intercom" "conversation_parts" (pd_DataFrame [])
    (Examples.fresh_cursor Examples.store_with_key)
  = (Ok tt, Examples.fresh_cursor Examples.store_with_key).
Proof.
  apply (zero_rows_issue_no_statement
           (Some "intercom") "intercom" "conversation_parts" (pd_DataFrame [])).
  reflexivity.
Defined.

(** Two parts merged into a table without primary key. *)
Lemma merge_without_single_key_witness :
  exists e,
    DatabaseOperations.merge_dataframe_into_table
      "intercom" "conversation_parts" Examples.parts_frame
      (Examples.fresh_cursor Examples.store_without_key)
    = (Raise e,
       {| Postgres.view := Examples.store_without_key;
          Postgres.issued :=
            [Postgres.SelectPrimaryKeyCount "intercom" "conversation_parts"] |}).
Proof.
  apply (merge_without_single_key
           "intercom" "conversation_parts" Examples.parts_frame
           (Examples.fresh_cursor Examples.store_without_key)).
  - vm_compute. lia.
  - vm_compute. lia.
Defined.

(** C3 as stated fails on the zero-row row-set: the table has no primary
    key, and the merge returns normally. *)
Lemma merge_of_no_row_does_not_raise :
  length (Postgres.constraints_on Examples.store_without_key
                                  "intercom" "conversation_parts") = 0%nat /\
  DatabaseOperations.merge_dataframe_into_table
    "intercom" "conversation_parts" (pd_DataFrame [])
    (Examples.fresh_cursor Examples.store_without_key)
  = (Ok tt, Examples.fresh_cursor Examples.store_without_key).
Proof. split; reflexivity. Qed.

(** What is raised at the primary-key check: [raise
    MissingPrimaryKeyException] instantiates the class without the message
    its [__init__] requires. *)
Example missing_primary_key_raises_TypeError :
  (DatabaseOperations.merge_dataframe_into_table
     "intercom" "conversation_parts" Examples.parts_frame
     (Examples.fresh_cursor Examples.store_without_key)).1
  = Raise (TypeError
             "MissingPrimaryKeyException.__init__() missing 1 required positional argument: 'msg'").
Proof. reflexivity. Qed.

(** The merge of the two parts: the stored part is updated, the new one is
    inserted, and the staging table is left empty. *)
Example merge_updates_and_inserts :
  option_map Postgres.t_rows
    (Postgres.relations
       (Postgres.view
          (DatabaseOperations.merge_dataframe_into_table
             "intercom" "conversation_parts" Examples.parts_frame
             (Examples.fresh_cursor Examples.store_with_key)).2)
     !! ("intercom", "conversation_parts"))
  = Some [[JStr "c1"; JStr "p1"; JStr "new"]; [JStr "c1"; JStr "p2"; JStr "more"]].
Proof. vm_compute. reflexivity. Qed.

(** *** The tables a statement leaves alone *)

Section StoreFrames.
Import Postgres DatabaseOperations.

Lemma exec_outcome stmt db :
  match exec stmt db with
  | (Ok _, db') =>
      forall k, target stmt <> Some k -> relations db' !! k = relations db !! k
  | (Raise e, db') => is_stop e = false /\ db' = db
  | (Diverge, _) => False
  end.
Proof.
  destruct stmt as [schema tn|schema key|tmp schema tn|schema tn cols rows
                    |schema tn tmp on upd ins|tmp|schema tn column value|schema];
    simpl.
  - auto.
  - destruct key; auto.
  - destruct (temporary db !! tmp); [auto|].
    destruct (relations db !! _); simpl; auto.
  - destruct (resolve db schema tn) as [t|]; simpl; [|auto].
    case_bool_decide; simpl; [auto|].
    destruct (negb (subset_of _ _)); simpl; [auto|].
    destruct (negb (adapts db rows)); simpl; [auto|].
    destruct (negb (forallb _ _)); simpl; [auto|].
    destruct (constraints_ok _ _ _ _); simpl; [|auto].
    intros k Hk. destruct schema as [sc|]; simpl; [|reflexivity].
    apply lookup_insert_ne. congruence.
  - destruct (relations db !! _) as [t|]; simpl; [|auto].
    destruct (temporary db !! _) as [s|]; simpl; [|auto].
    destruct (_ || _); simpl; [auto|].
    destruct (negb _); simpl; [auto|].
    destruct (merge_matched _ _ _ _ _ _); simpl; [|auto].
    destruct (constraints_ok _ _ _ _); simpl; [|auto].
    intros k Hk. apply lookup_insert_ne. congruence.
  - destruct (temporary db !! tmp); simpl; auto.
  - destruct (relations db !! _) as [t|]; simpl; [|auto].
    case_bool_decide; simpl; [|auto].
    intros k Hk. apply lookup_insert_ne. congruence.
  - destruct (relations db !! _) as [t|]; simpl; [|auto].
    case_bool_decide; simpl; auto.
Qed.

Section On.
Context (k : string * string).

Lemma moves_cur_execute stmt :
  target stmt <> Some k -> moves (same (relation_at k)) (cur_execute stmt).
Proof.
  intros Hk cur. unfold cur_execute.
  pose proof (exec_outcome stmt (view cur)) as H.
  destruct (exec stmt (view cur)) as [[r|e|] db']; simpl.
  - apply H, Hk.
  - apply H.
  - exact I.
Qed.

Lemma moves_load schema table_name df :
  (forall s, schema = Some s -> (s, table_name) <> k) ->
  moves (same (relation_at k)) (load_dataframe_to_table schema table_name df).
Proof.
  intros Hk. unfold load_dataframe_to_table.
  case_bool_decide; [moves_ret|].
  moves_bind; [|intros; moves_ret].
  apply moves_cur_execute. destruct schema as [s|]; simpl; [|discriminate].
  intros [= <-]. now apply (Hk s).
Qed.

Lemma moves_merge schema table_name df :
  (schema, table_name) <> k ->
  moves (same (relation_at k)) (merge_dataframe_into_table schema table_name df).
Proof.
  intros Hk. unfold merge_dataframe_into_table.
  case_bool_decide; [moves_ret|].
  moves_bind.
  { unfold get_primary_key_name. moves_bind.
    - apply moves_cur_execute. discriminate.
    - intros [|row rows]; [now apply moves_raise|].
      destruct (negb _); [now apply moves_raise | moves_ret]. }
  intros pk_name. moves_bind.
  { unfold get_key_columns. moves_bind; [|intros; moves_ret].
    apply moves_cur_execute. discriminate. }
  intros pk_columns.
  moves_bind; [apply moves_cur_execute; discriminate|]. intros _.
  moves_bind; [apply moves_load; discriminate|]. intros _.
  moves_bind; [apply moves_cur_execute; simpl; congruence|]. intros _.
  moves_bind; [apply moves_cur_execute; discriminate|]. intros _.
  moves_ret.
Qed.

End On.
End StoreFrames.

(** ** The conversation pipeline *)

Section ConversationProperties.
Import Postgres DatabaseOperations Intercom PipelineEngine Conversation.

Lemma watermark_exec db start :
  watermark db = Some start ->
  exec (SelectMaxUpdatedAt "intercom") db = (Ok [[JNum start]], db).
Proof.
  unfold watermark. simpl.
  destruct (relations db !! ("intercom", "conversations")) as [t|]; [|discriminate].
  case_bool_decide; [|discriminate]. now intros [= <-].
Qed.

Lemma watermark_session_view db : watermark (session_view db) = watermark db.
Proof.
  unfold watermark. simpl.
  destruct (relations db !! ("intercom", "conversations")) as [t|]; [|reflexivity].
  now case_bool_decide.
Qed.

Lemma GetPayloads_no_updates (p : Pipeline Payload World) cur start source' :
  conn (attrs p) = Some cur ->
  watermark (view cur) = Some start ->
  get_conversation_max_updated_timestamp start default_retries default_backoff
                                         (remote (attrs p))
  = (Ok None, source') ->
  GetPayloads_execute p
  = (Raise (StopPipelineException
              "No updates to conversations found, stopping pipeline."),
     {| payloads := payloads p;
        attrs := {| remote := source';
                    committed := committed (attrs p);
                    conn := Some {| view := view cur;
                                    issued := issued cur ++ [SelectMaxUpdatedAt "intercom"] |};
                    connection_log := connection_log (attrs p) |} |}).
Proof.
  intros Hconn Hw Hmax. unfold GetPayloads_execute.
  unfold bind at 1. unfold on_attrs at 1, on_cursor at 1. rewrite Hconn.
  unfold cur_execute. rewrite (watermark_exec _ _ Hw). cbn [attrs payloads].
  unfold bind at 1. unfold on_attrs at 1, on_remote at 1. cbn [attrs remote].
  rewrite Hmax. reflexivity.
Qed.

(** C6.  When the store has a watermark [start] and the max-change-time
    query after [start] gets a successful response with no qualifying
    entity, the query returns [None], [GetPayloads] raises
    [StopPipelineException], and the run goes straight to post-execution
    and commits: it returns normally, no work unit was created or
    processed (no pipeline step was started), the only statement issued is
    the read of the watermark (no write), and the committed tables, and so
    the watermark, are unchanged. *)
Theorem no_new_data_run (source : Remote) (stored : Database) start
        response source' :
  watermark stored = Some start ->
  max_updated_loop (Z.to_nat (default_retries + 1)) start
                   default_retries default_backoff 0 source
  = (Ok response, source') ->
  List.filter is_conversation (sr_conversations response) = [] ->
  get_conversation_max_updated_timestamp start default_retries default_backoff source
  = (Ok None, source') /\
  IntercomConversationPipeline_execute (IntercomConversationPipeline source stored)
  = (Ok tt,
     {| self :=
          {| payloads := None;
             attrs := {| remote := source';
                         committed := session_view stored;
                         conn := Some {| view := session_view stored;
                                         issued := [SelectMaxUpdatedAt "intercom"] |};
                         connection_log := [Connected; Committed] |} |};
        logged :=
          [LogPreStepsToExecute 2;
           LogStartingPreStep "GetDatabaseConnection";
           LogStartingPreStep "GetPayloads";
           LogStoppingPipelineEarly
             "No updates to conversations found, stopping pipeline.";
           LogPostStepsToExecute 1;
           LogStartingPostStep "CommitTransaction";
           LogPostStepsDone] |}) /\
  is_write (SelectMaxUpdatedAt "intercom") = false /\
  relations (session_view stored) = relations stored /\
  watermark (session_view stored) = Some start.
Proof.
  intros Hw Hloop Hnone.
  assert (Hmax : get_conversation_max_updated_timestamp
                   start default_retries default_backoff source
                 = (Ok None, source')).
  { unfold get_conversation_max_updated_timestamp, bind.
    rewrite Hloop, Hnone. reflexivity. }
  split; [exact Hmax|].
  split; [|split; [reflexivity | split; [reflexivity|]];
           rewrite watermark_session_view; exact Hw].
  unfold IntercomConversationPipeline_execute.
  eapply execute_returns.
  - apply execute_guarded_stop. unfold pre_and_payloads.
    unfold bind, run_pre_execution_steps, Conversation.pre_execution_steps,
      run_steps, bind, logger, execute_on_self.
    cbn [self logged step_execute step_name length
         GetDatabaseConnection GetPayloads IntercomConversationPipeline].
    unfold GetDatabaseConnection_execute, on_attrs, get_db_connection.
    cbn [attrs payloads committed remote connection_log].
    erewrite GetPayloads_no_updates.
    2: reflexivity.
    2:{ cbn [view]. rewrite watermark_session_view. exact Hw. }
    2: exact Hmax.
    reflexivity.
  - reflexivity.
Qed.


Lemma max_updated_result start retries backoff r v r' :
  get_conversation_max_updated_timestamp start retries backoff r = (Ok v, r') ->
  exists h response,
    history r' = history r ++ h ++ [Post (max_updated_payload start) response] /\
    is_200_OK (sr_status response) = true /\
    v = max_or_None (map conv_updated_at
                         (List.filter is_conversation (sr_conversations response))).
Proof.
  unfold get_conversation_max_updated_timestamp, bind.
  destruct (max_updated_loop _ _ _ _ _ r) as [[response| |] r1] eqn:E; try discriminate.
  intros [= <- <-].
  destruct (max_updated_loop_ok _ _ _ _ _ _ _ _ E) as [Hok [h Hh]].
  now exists h, response.
Qed.

Lemma no_conversation_entry (entries : list conversation_summary) :
  List.filter is_conversation entries = [] <->
  forall conv, In conv entries -> conv_source_type conv <> "conversation".
Proof.
  split.
  - intros H conv Hin Hc.
    assert (Hf : In conv (List.filter is_conversation entries)).
    { apply filter_In. split; [exact Hin|]. now apply String.eqb_eq. }
    rewrite H in Hf. destruct Hf.
  - intros H. induction entries as [|c l IH]; [reflexivity|]. simpl.
    destruct (is_conversation c) eqn:E.
    + apply String.eqb_eq in E. now destruct (H c (or_introl eq_refl)).
    + apply IH. intros conv Hin. apply H. now right.
Qed.

(** C10.  Only entities whose source type is ["conversation"] count.
    - The max-change-time query returns the maximum of [updated_at] over
      the entries of its successful response whose source type is
      ["conversation"]: it is [None] exactly when the response has no such
      entry, whatever else it lists, and otherwise the [updated_at] of such
      an entry and at least that of every such entry.
    - The identifiers the paginated enumeration returns are exactly those
      of the entries of source type ["conversation"] on the pages it
      fetched.
    - When the query returns [None], [GetPayloads] reports no new data: it
      raises [StopPipelineException]. *)
Theorem only_conversations_count (start end_ retries backoff : Z) r :
  (forall v r',
      get_conversation_max_updated_timestamp start retries backoff r = (Ok v, r') ->
      exists h response,
        history r' = history r ++ h ++ [Post (max_updated_payload start) response] /\
        is_200_OK (sr_status response) = true /\
        (v = None <->
         forall conv, In conv (sr_conversations response) ->
                      conv_source_type conv <> "conversation") /\
        (forall m, v = Some m ->
           (exists conv, In conv (sr_conversations response) /\
                         conv_source_type conv = "conversation" /\
                         conv_updated_at conv = m) /\
           (forall conv, In conv (sr_conversations response) ->
                         conv_source_type conv = "conversation" ->
                         (conv_updated_at conv <= m)%Z))) /\
  (forall ids r',
      get_conversation_ids_last_updated_between_timestamps
        start end_ retries backoff r = (Ok ids, r') ->
      exists h first pages,
        history r' = history r ++ h /\
        successes h = (get_payload start end_ 1, first) :: pages /\
        forall id,
          In id ids <->
          exists page conv,
            In page pages /\ In conv (sr_conversations page.2) /\
            conv_source_type conv = "conversation" /\ conv_id conv = id) /\
  (forall (p : Pipeline Payload World) cur r',
      conn (attrs p) = Some cur ->
      watermark (view cur) = Some start ->
      remote (attrs p) = r ->
      get_conversation_max_updated_timestamp start default_retries default_backoff r
      = (Ok None, r') ->
      (GetPayloads_execute p).1
      = Raise (StopPipelineException
                 "No updates to conversations found, stopping pipeline.")).
Proof.
  split; [|split].
  - intros v r' H. apply max_updated_result in H as (h & response & Hh & Hok & ->).
    exists h, response. split; [exact Hh|]. split; [exact Hok|].
    destruct (max_or_None_spec
                (map conv_updated_at
                     (List.filter is_conversation (sr_conversations response))))
      as [Hnone Hsome].
    split.
    + rewrite Hnone, <- no_conversation_entry. split.
      * now apply map_eq_nil.
      * now intros ->.
    + intros m Hm. destruct (Hsome m Hm) as [Hin Hmax]. split.
      * apply in_map_iff in Hin. destruct Hin as (conv & Hu & Hf).
        apply filter_In in Hf. destruct Hf as [Hin Hc].
        exists conv. repeat split; [exact Hin | now apply String.eqb_eq | exact Hu].
      * intros conv Hconv Hc. apply Hmax, in_map, filter_In.
        split; [exact Hconv | now apply String.eqb_eq].
  - intros ids r' H.
    destruct (paginated_search_history start end_ retries backoff r)
      as (h & r1 & out & Hrun & Hh & _ & Hcase).
    rewrite H in Hrun. injection Hrun as <- <-.
    destruct Hcase as [[Hout _]
                      | [(first & pages & Hout & Hsucc & _)
                        | [[Hout _] | [Hout _]]]]; try discriminate.
    injection Hout as ->. exists h, first, pages.
    split; [exact Hh|]. split; [exact Hsucc|].
    intros id. rewrite in_concat. split.
    + intros (l & Hl & Hid). apply in_map_iff in Hl. destruct Hl as (page & <- & Hpage).
      apply page_ids_spec in Hid. destruct Hid as (conv & Hin & Hc & Hid).
      now exists page, conv.
    + intros (page & conv & Hpage & Hin & Hc & Hid).
      exists (page_ids page.2). split; [now apply in_map_iff; exists page|].
      apply page_ids_spec. now exists conv.
  - intros p cur r' Hconn Hw <- Hmax.
    now rewrite (GetPayloads_no_updates p cur start r' Hconn Hw Hmax).
Qed.

End ConversationProperties.

(** A store synchronized up to 100 and a source whose only change since is
    to a ticket: the run commits without a unit, a write or a change. *)
Lemma no_new_data_run_witness :
  Conversation.IntercomConversationPipeline_execute
    (Conversation.IntercomConversationPipeline
       Examples.only_a_ticket
       (Examples.destination [Examples.conversation_row "A" 100])) = 
  (Ok tt,
     {| PipelineEngine.self :=
          {| PipelineEngine.payloads := None;
             PipelineEngine.attrs :=
               {| Conversation.remote :=
                    Intercom.record_event
                      (Intercom.Post (Intercom.max_updated_payload 100)
                         (Intercom.search Examples.only_a_ticket []
                            (Intercom.max_updated_payload 100)))
                      Examples.only_a_ticket;
                  Conversation.committed :=
                    Conversation.session_view
                      (Examples.destination [Examples.conversation_row "A" 100]);
                  Conversation.conn :=
                    Some {| Postgres.view :=
                              Conversation.session_view
                                (Examples.destination
                                   [Examples.conversation_row "A" 100]);
                            Postgres.issued :=
                              [Postgres.SelectMaxUpdatedAt "intercom"] |};
                  Conversation.connection_log :=
                    [Conversation.Connected; Conversation.Committed] |} |};
        PipelineEngine.logged :=
          [PipelineEngine.LogPreStepsToExecute 2;
           PipelineEngine.LogStartingPreStep "GetDatabaseConnection";
           PipelineEngine.LogStartingPreStep "GetPayloads";
           PipelineEngine.LogStoppingPipelineEarly
             "No updates to conversations found, stopping pipeline.";
           PipelineEngine.LogPostStepsToExecute 1;
           PipelineEngine.LogStartingPostStep "CommitTransaction";
           PipelineEngine.LogPostStepsDone] |}).
Proof.
  refine (proj1 (proj2 (no_new_data_run
                          Examples.only_a_ticket
                          (Examples.destination [Examples.conversation_row "A" 100])
                          100
                          (Intercom.search Examples.only_a_ticket []
                             (Intercom.max_updated_payload 100))
                          _ _ _ _))).
  - vm_compute. reflexivity.
  - vm_compute. reflexivity.
  - vm_compute. reflexivity.
Defined.

(** *** The watermark across a run *)

Section WatermarkProperties.
Import Postgres DatabaseOperations Intercom PipelineEngine Conversation.

Lemma max_column_in cols c rows m :
  max_column cols c rows = Some m ->
  exists row, In row rows /\ cell cols row c = JNum m.
Proof.
  revert m. induction rows as [|r rows IH]; intros m; simpl; [discriminate|].
  destruct (cell cols r c) eqn:E;
    try (intros H; destruct (IH m H) as (row & Hin & Hc); exists row; auto).
  destruct (max_column cols c rows) as [m'|] eqn:Em.
  - intros [= <-]. destruct (Z.max_spec n m') as [[_ ->] | [_ ->]].
    + destruct (IH m' eq_refl) as (row & Hin & Hc). exists row; auto.
    + exists r; auto.
  - intros [= <-]. exists r; auto.
Qed.

Lemma max_column_ge cols c rows row v :
  In row rows -> cell cols row c = JNum v ->
  exists m, max_column cols c rows = Some m /\ (v <= m)%Z.
Proof.
  induction rows as [|r rows IH]; intros Hin Hc; [destruct Hin|]. simpl.
  destruct Hin as [-> | Hin].
  - rewrite Hc. destruct (max_column cols c rows) as [m'|]; eexists; split; eauto; lia.
  - destruct (IH Hin Hc) as (m & -> & Hm).
    destruct (cell cols r c); eexists; split; eauto; lia.
Qed.

Section Stateless.
Context {S : Type} (R : relation S) `{!PreOrder R}.

Lemma moves_getitem obj key : moves R (getitem obj key).
Proof.
  unfold getitem. destruct obj; try (apply moves_raise; reflexivity).
  destruct (List.find _ _); [moves_ret | apply moves_raise; reflexivity].
Qed.

Lemma moves_py_min x y : moves R (py_min x y).
Proof.
  unfold py_min. destruct x; try (apply moves_raise; reflexivity). moves_ret.
Qed.

Lemma moves_dict_of (items : list (string * M S json)) :
  Forall (fun kv => moves R kv.2) items -> moves R (dict_of items).
Proof.
  induction 1 as [|[k e] rest He Hrest IH]; simpl; [moves_ret|].
  moves_bind; [exact He | intros v].
  moves_bind; [exact IH | intros others]. moves_ret.
Qed.

Lemma moves_comprehension {A} (f : json -> M S A) items :
  (forall x, moves R (f x)) -> moves R (comprehension f items).
Proof.
  intros Hf. induction items as [|x rest IH]; simpl; [moves_ret|].
  moves_bind; [apply Hf | intros r].
  moves_bind; [exact IH | intros others]. moves_ret.
Qed.

Lemma moves_copied obj keys :
  Forall (fun kv : string * M S json => moves R kv.2) (copied obj keys).
Proof.
  unfold copied. apply Forall_map, Forall_forall. intros k _. apply moves_getitem.
Qed.

Lemma moves_flattened obj key : moves R (flattened (S:=S) obj key).2.
Proof.
  simpl. moves_bind; [apply moves_getitem | intros v; moves_ret].
Qed.

Lemma moves_optional_record api_data key items :
  (forall sub, Forall (fun kv => moves R kv.2) (items sub)) ->
  moves R (optional_record api_data key items).
Proof.
  intros Hitems. unfold optional_record.
  moves_bind; [apply moves_getitem | intros sub].
  case_bool_decide; [moves_ret|].
  moves_bind; [apply moves_dict_of, Hitems | intros r; moves_ret].
Qed.

End Stateless.

Lemma getitem_Ok {S} obj key (s s' : S) v :
  getitem obj key s = (Ok v, s') ->
  s' = s /\ forall S' (s0 : S'), getitem obj key s0 = (Ok v, s0).
Proof.
  unfold getitem. destruct obj; try discriminate.
  destruct (List.find _ _); [|discriminate]. intros [= <- <-]. auto.
Qed.

Lemma dict_of_cons_Ok {S} k (e : M S json) rest (s s' : S) l :
  dict_of ((k, e) :: rest) s = (Ok l, s') ->
  exists v s1 l',
    e s = (Ok v, s1) /\ dict_of rest s1 = (Ok l', s') /\ l = (k, v) :: l'.
Proof.
  simpl. unfold bind.
  destruct (e s) as [[v| |] s1]; try discriminate.
  destruct (dict_of rest s1) as [[l'| |] s2] eqn:E; try discriminate.
  intros [= <- <-]. exists v, s1, l'. auto.
Qed.

Lemma conversations_record {S} d end_ (s s1 : S) conv :
  dict_of (copied d ["type"; "id"; "title"; "created_at"] ++
           [("updated_at", let* u := getitem d "updated_at" in py_min u end_)] ++
           copied d ["waiting_since"; "snoozed_until"; "open"; "state"; "read";
                     "priority"; "admin_assignee_id"; "team_assignee_id"]) s
  = (Ok conv, s1) ->
  exists u,
    change_time d = Some u /\
    cell (map fst conv) (map snd conv) "updated_at" = JNum (Z.min u end_).
Proof.
  cbn [copied map app]. intros H.
  do 4 (apply dict_of_cons_Ok in H; destruct H as (? & ? & ? & _ & H & ->)).
  apply dict_of_cons_Ok in H. destruct H as (v & s5 & l & Hu & H & ->).
  do 8 (apply dict_of_cons_Ok in H; destruct H as (? & ? & ? & _ & H & ->)).
  simpl in H. injection H as <- <-.
  unfold bind in Hu.
  destruct (getitem d "updated_at" _) as [[u| |] s'] eqn:Hget; try discriminate.
  apply getitem_Ok in Hget. destruct Hget as [-> Hget].
  unfold py_min in Hu. destruct u as [| |u| | |]; try discriminate.
  injection Hu as <- <-. exists u. split; [|reflexivity].
  unfold change_time. now rewrite Hget.
Qed.

Section UnitState.

Lemma moves_the_payload : moves (same footprint) the_payload.
Proof. intros s. reflexivity. Qed.

Lemma moves_the_api_data : moves (same footprint) the_api_data.
Proof.
  intros s. unfold the_api_data, bind, the_payload.
  destruct (api_data s.1); reflexivity.
Qed.

Lemma moves_the_frame name : moves (same footprint) (the_frame name).
Proof.
  intros s. unfold the_frame, bind, the_payload.
  destruct (frames s.1 !! name); reflexivity.
Qed.

Lemma moves_attach name df :
  name <> "conversations" -> moves (same footprint) (attach name df).
Proof.
  intros Hne [p w]. unfold attach, set_payload, same, footprint. simpl.
  rewrite lookup_insert_ne by exact Hne. reflexivity.
Qed.

Lemma on_cursor_run {A} (m : M Cursor A) p w cur :
  conn w = Some cur ->
  on_world (on_cursor m) (p, w)
  = ((m cur).1,
     (p, {| remote := remote w; committed := committed w;
            conn := Some (m cur).2; connection_log := connection_log w |})).
Proof.
  intros Hc. unfold on_world, on_cursor. simpl. rewrite Hc.
  now destruct (m cur).
Qed.

Lemma moves_on_cursor {A} (m : M Cursor A) :
  moves (same (relation_at ("intercom", "conversations"))) m ->
  moves (same footprint) (on_world (on_cursor m)).
Proof.
  intros Hm [p w]. destruct (conn w) as [cur|] eqn:Hc.
  - rewrite (on_cursor_run m p w cur Hc). specialize (Hm cur).
    destruct (m cur) as [[a|e|] cur']; simpl; [|exact Hm|exact I].
    unfold same, footprint, session_table. simpl. rewrite Hc.
    unfold conversations_table. f_equal. exact Hm.
  - unfold on_world, on_cursor. simpl. rewrite Hc. reflexivity.
Qed.

Lemma moves_delete_then_load table_name column :
  table_name <> "conversations" ->
  moves (same footprint) (delete_then_load table_name column).
Proof.
  intros Hne. unfold delete_then_load.
  moves_bind; [apply moves_the_payload | intros payload].
  moves_bind.
  { apply moves_on_cursor, moves_cur_execute. simpl. congruence. }
  intros _. moves_bind; [apply moves_the_frame | intros df].
  apply moves_on_cursor, moves_load. intros s [= <-]. congruence.
Qed.

End UnitState.

Ltac pure_step :=
  first
    [ apply moves_ret; apply _
    | apply moves_raise; reflexivity
    | apply moves_getitem; apply _
    | apply moves_py_min; apply _
    | apply moves_copied; apply _
    | apply moves_flattened; apply _
    | apply Forall_nil_2
    | apply Forall_cons_2
    | apply Forall_app_2
    | apply moves_dict_of; [apply _|]
    | apply moves_optional_record; [apply _ | intros ?]
    | apply moves_comprehension; [apply _ | intros ?]
    | apply moves_attach; discriminate
    | apply moves_bind; [apply _ | | intros ?]
    | match goal with
      | |- moves _ (if ?b then _ else _) => destruct b
      | |- moves _ (match ?x with _ => _ end) => destruct x
      end
    | progress cbn [snd] ].

Section Invariant.
Context (start end_ : Z) (t0 : table) (base : list event) (n : nat).
Context (Hstart : start = max_updated_at t0 (t_rows t0)).
Context (Hn : (n <= length base)%nat).

#[local] Abbreviation written := (written start end_ t0).
#[local] Abbreviation world_ok := (world_ok start end_ t0 base n).
#[local] Abbreviation unit_ok := (unit_ok start end_ n).
#[local] Abbreviation run_ok := (run_ok start end_ t0 base n).
#[local] Abbreviation answers_honest := (answers_honest start n).

Lemma written_t0 : written t0.
Proof.
  split; [reflexivity|]. split; [auto|]. rewrite <- Hstart. lia.
Qed.

Lemma stored_row_le row v :
  In row (t_rows t0) -> cell (t_columns t0) row "updated_at" = JNum v -> (v <= start)%Z.
Proof.
  intros Hin Hc. destruct (max_column_ge _ _ _ _ _ Hin Hc) as (m & Hm & Hle).
  rewrite Hstart. unfold max_updated_at. rewrite Hm. exact Hle.
Qed.

(** The rows of the table after a row changed at [v] replaced some. *)
Lemma written_replace t keep new v :
  written t ->
  (forall row, In row keep -> In row (t_rows t)) ->
  cell (t_columns t0) new "updated_at" = JNum v ->
  (v <= end_)%Z ->
  written (with_rows t (keep ++ [new])) /\
  (v <= max_updated_at t0 (keep ++ [new]))%Z.
Proof.
  intros (Hcols & Hrows & Hmax) Hkeep Hnew Hv.
  destruct (max_column_ge (t_columns t0) "updated_at" (keep ++ [new]) new v)
    as (m & Hm & Hle); [apply in_or_app; right; now left | exact Hnew |].
  assert (Hall : forall row, In row (keep ++ [new]) ->
                 In row (t_rows t0) \/
                 exists v, cell (t_columns t0) row "updated_at" = JNum v /\ (v <= end_)%Z).
  { intros row Hin. apply in_app_or in Hin. destruct Hin as [Hin | [<- | []]].
    - apply Hrows, Hkeep, Hin.
    - right. eauto. }
  unfold max_updated_at. rewrite Hm. simpl. split; [|exact Hle].
  split; [exact Hcols|]. split; [exact Hall|]. simpl.
  unfold max_updated_at. rewrite Hm. simpl.
  destruct (max_column_in _ _ _ _ Hm) as (row & Hin & Hc).
  destruct (Hall row Hin) as [H0 | (v' & Hc' & Hv')].
  - pose proof (stored_row_le row m H0 Hc). lia.
  - rewrite Hc in Hc'. injection Hc' as ->. lia.
Qed.

Lemma honest_app h1 h2 : honest start (h1 ++ h2) -> honest start h1.
Proof.
  intros [Hf Hd]. split.
  - intros payload response conv Hin. apply Hf. apply in_or_app. now left.
  - intros id response u Hin. apply (Hd id). apply in_or_app. now left.
Qed.

Lemma answers_honest_app h1 h2 : answers_honest (h1 ++ h2) -> answers_honest h1.
Proof.
  unfold Conversation.answers_honest. rewrite drop_app. apply honest_app.
Qed.

Lemma unit_ok_extends w w' p :
  extends (remote w) (remote w') -> unit_ok w p -> unit_ok w' p.
Proof.
  intros [h Hh] (He & Hs & Hapi & Hfr).
  assert (Hmono : answers_honest (history (remote w')) ->
                  answers_honest (history (remote w))).
  { rewrite Hh. apply answers_honest_app. }
  split; [exact He|]. split; [exact Hs|]. split.
  - intros d u Hd Hu Hh'. eapply Hapi; eauto.
  - intros df Hdf. destruct (Hfr df Hdf) as (row & v & Hr & Hc & Hv & Hlow).
    exists row, v. repeat split; auto.
Qed.

Lemma run_ok_footprint rest (x x' : Payload * World) :
  same footprint x x' -> run_ok (x.1 :: rest) x.2 -> run_ok (x'.1 :: rest) x'.2.
Proof.
  unfold same, footprint. intros [= He Hs Ha Hf Hh Ht] [Hw Hq].
  apply Forall_cons in Hq. destruct Hq as [Hp Hrest].
  split.
  - destruct Hw as (t & Hst & Hwr & Hb & Hhon). exists t.
    rewrite Ht, Hh. auto.
  - apply Forall_cons. split.
    + destruct Hp as (He' & Hs' & Hapi & Hfr).
      split; [congruence|]. split; [congruence|].
      rewrite Ha, Hf, Hh. auto.
    + eapply Forall_impl; [exact Hrest|]. intros p.
      apply unit_ok_extends. exists []. now rewrite app_nil_r.
Qed.

Lemma cur_execute_delete cur t column value :
  conversations_table (view cur) = Some t ->
  cur_execute (DeleteWhere "intercom" "conversations" column value) cur
  = if bool_decide (column ∈ t_columns t)
    then (Ok [],
          {| view :=
               store (view cur) (Some "intercom") "conversations"
                     (with_rows t
                        (List.filter
                           (fun r => negb (sql_eq (cell (t_columns t) r column) value))
                           (t_rows t)));
             issued := issued cur
                       ++ [DeleteWhere "intercom" "conversations" column value] |})
    else (Raise (DatabaseError "undefined_column"),
          {| view := view cur;
             issued := issued cur
                       ++ [DeleteWhere "intercom" "conversations" column value] |}).
Proof.
  unfold conversations_table. intros Ht. unfold cur_execute. simpl. rewrite Ht.
  now case_bool_decide.
Qed.

Lemma cur_execute_copy cur t cols rows :
  conversations_table (view cur) = Some t ->
  match cur_execute (Copy (Some "intercom") "conversations" cols rows) cur with
  | (Ok _, cur') =>
      subset_of cols (t_columns t) = true /\
      conversations_table (view cur')
      = Some (with_rows t (t_rows t ++ map (inserted_row (t_columns t) cols cols) rows))
  | (Raise e, _) => is_stop e = false
  | (Diverge, _) => False
  end.
Proof.
  unfold conversations_table. intros Ht. unfold cur_execute. simpl. rewrite Ht.
  case_bool_decide; [reflexivity|].
  destruct (subset_of cols (t_columns t)); simpl; [|reflexivity].
  destruct (adapts (view cur) rows); simpl; [|reflexivity].
  destruct (forallb _ rows); simpl; [|reflexivity].
  destruct (constraints_ok _ _ _ _); simpl; [|reflexivity].
  split; [reflexivity|]. apply lookup_insert_eq.
Qed.

Lemma cell_inserted_row tcols cols row c v :
  subset_of cols tcols = true ->
  cell cols row c = JNum v ->
  cell tcols (inserted_row tcols cols cols row) c = JNum v.
Proof.
  intros Hsub Hc.
  assert (Hin : c ∈ cols).
  { destruct (decide (c ∈ cols)) as [H|H]; [exact H|].
    rewrite (cell_missing cols row c H) in Hc. discriminate. }
  unfold inserted_row. rewrite cell_map.
  unfold subset_of in Hsub. rewrite forallb_forall in Hsub.
  apply list_elem_of_In in Hin as Hin'. specialize (Hsub c Hin').
  rewrite Hsub. now rewrite (bool_decide_eq_true_2 _ Hin).
Qed.

Lemma load_conversations cur t df row :
  conversations_table (view cur) = Some t ->
  df_records df = [row] ->
  match load_dataframe_to_table (Some "intercom") "conversations" df cur with
  | (Ok _, cur') =>
      subset_of (df_columns df) (t_columns t) = true /\
      conversations_table (view cur')
      = Some (with_rows t (t_rows t ++ [inserted_row (t_columns t) (df_columns df)
                                                     (df_columns df) row]))
  | (Raise e, _) => is_stop e = false
  | (Diverge, _) => True
  end.
Proof.
  intros Ht Hrec. unfold load_dataframe_to_table, len. rewrite Hrec.
  rewrite bool_decide_eq_false_2 by discriminate. unfold bind.
  pose proof (cur_execute_copy cur t (df_columns df) [row] Ht) as Hcopy.
  destruct (cur_execute _ cur) as [[r|e|] cur']; auto.
Qed.

Lemma conversations_load_preserves rest :
  preserves (fun x => run_ok (x.1 :: rest) x.2) (delete_then_load "conversations" "id").
Proof.
  intros [p w] [Hw Hq]. simpl in Hw, Hq.
  apply Forall_cons in Hq. destruct Hq as [Hp Hrest].
  destruct Hw as (t & Hst & Hwr & Hb & Hhon).
  pose proof Hp as (He & Hs & Hapi & Hfr).
  unfold session_table in Hst. destruct (conn w) as [cur|] eqn:Hc; [|discriminate].
  unfold delete_then_load. unfold bind at 1, the_payload at 1. cbn [fst snd].
  rewrite Hs. unfold bind at 1.
  rewrite (on_cursor_run _ p w cur Hc), (cur_execute_delete cur t _ _ Hst).
  case_bool_decide as Hid; [|reflexivity]. cbn [fst snd].
  unfold bind at 1, the_frame at 1, bind at 1, the_payload at 1. cbn [fst snd].
  destruct (frames p !! "conversations") as [df|] eqn:Hdf; [|reflexivity].
  unfold ret at 1.
  destruct (Hfr df eq_refl) as (row & v & Hrec & Hcell & Hv & Hlow).
  erewrite on_cursor_run by reflexivity.
  match goal with
  | |- context [load_dataframe_to_table ?sc ?tn df ?c] =>
      pose proof (load_conversations c _ df row
                    (lookup_insert_eq _ _ _) Hrec) as Hload;
      destruct (load_dataframe_to_table sc tn df c) as [[r|e|] cur2]
  end; cbn [fst snd]; [|exact Hload|exact I].
  destruct Hload as [Hsub Ht2].
  simpl in Hsub, Ht2.
  destruct Hwr as (Hcols & Hrows & Hmax).
  destruct (written_replace t
              (List.filter
                 (fun r => negb (sql_eq (cell (t_columns t) r "id")
                                        (JStr (conversation_id p))))
                 (t_rows t))
              (inserted_row (t_columns t) (df_columns df) (df_columns df) row) v)
    as [Hwr2 Hge].
  { split; [exact Hcols|]. split; [exact Hrows | exact Hmax]. }
  { intros r0 Hin. apply filter_In in Hin. apply Hin. }
  { rewrite <- Hcols. now apply cell_inserted_row. }
  { exact Hv. }
  split.
  - eexists. split; [unfold session_table; simpl; exact Ht2|].
    split; [exact Hwr2|]. split; [exact Hb|].
    simpl. intros Hh. destruct (Hhon Hh) as [Hlt _]. split; [exact Hlt|].
    specialize (Hlow Hh). lia.
  - apply Forall_cons. split; [exact Hp|exact Hrest].
Qed.

Lemma LoadToDatabase_preserves rest :
  preserves (fun x => run_ok (x.1 :: rest) x.2) LoadToDatabase_execute.
Proof.
  unfold LoadToDatabase_execute.
  apply preserves_bind; [apply conversations_load_preserves | intros _].
  eapply moves_preserves; [|apply run_ok_footprint].
  repeat (moves_bind; [apply moves_delete_then_load; discriminate | intros _]).
  moves_bind; [apply moves_the_payload | intros payload].
  moves_bind; [apply moves_the_frame | intros df].
  apply moves_on_cursor, moves_merge. congruence.
Qed.

Lemma RetrieveApiData_preserves rest :
  preserves (fun x => run_ok (x.1 :: rest) x.2) RetrieveApiData_execute.
Proof.
  intros [p w] [Hw Hq]. simpl in Hw, Hq.
  apply Forall_cons in Hq. destruct Hq as [Hp Hrest].
  unfold RetrieveApiData_execute. unfold bind at 1, the_payload at 1. cbn [fst snd].
  unfold bind at 1. unfold on_world at 1, on_remote at 1. cbn [fst snd].
  pose proof (moves_details (conversation_id p) default_retries default_backoff
                            (remote w)) as Hm.
  destruct (get_conversation_details _ _ _ (remote w)) as [[d|e|] r'] eqn:Hd;
    [|exact Hm|exact I].
  apply details_loop_ok in Hd. destruct Hd as (h & response & Hh & Hok & ->).
  unfold set_payload. cbn [fst snd].
  destruct Hw as (t & Hst & Hwr & [hb Hb] & Hhon).
  assert (Hmono : answers_honest (history r') ->
                  answers_honest (history (remote w))).
  { rewrite Hh. apply answers_honest_app. }
  split.
  - exists t. split; [exact Hst|]. split; [exact Hwr|]. simpl. split.
    + exists (hb ++ h ++ [Get (conversation_id p) response]).
      now rewrite Hh, Hb, <- app_assoc.
    + auto.
  - apply Forall_cons. split.
    + destruct Hp as (He & Hs & Hapi & Hfr).
      split; [exact He|]. split; [exact Hs|]. simpl. split.
      * intros d u [= <-] Hu [_ Hdet]. apply (Hdet (conversation_id p) response u);
          [|exact Hok|exact Hu].
        rewrite Hh, Hb, <- app_assoc, drop_app_le by exact Hn.
        apply in_or_app. right. apply in_or_app. right. apply in_or_app. right.
        now left.
      * intros df Hdf. destruct (Hfr df Hdf) as (row & v & Hr & Hc & Hv & Hlow).
        exists row, v. repeat split; auto.
    + eapply Forall_impl; [exact Hrest|]. intros q. apply unit_ok_extends.
      simpl. exists (h ++ [Get (conversation_id p) response]). exact Hh.
Qed.

Lemma ParseApiData_preserves rest :
  preserves (fun x => run_ok (x.1 :: rest) x.2) ParseApiData_execute.
Proof.
  intros [p w] [Hw Hq]. simpl in Hw, Hq.
  apply Forall_cons in Hq. destruct Hq as [Hp Hrest].
  unfold ParseApiData_execute. unfold bind at 1, the_payload at 1. cbn [fst snd].
  cbv zeta.
  unfold bind at 1. unfold the_api_data at 1, bind at 1, the_payload at 1.
  cbn [fst snd].
  destruct (api_data p) as [d|] eqn:Hd; [|reflexivity].
  unfold ret at 1. unfold bind at 1.
  match goal with
  | |- context [dict_of ?l (p, w)] =>
      assert (Hm : moves (same (fun s : Payload * World => s)) (dict_of l))
        by (repeat pure_step);
      specialize (Hm (p, w));
      destruct (dict_of l (p, w)) as [[conv|e|] s1] eqn:Hdict;
      [|exact Hm|exact I]
  end.
  unfold same in Hm. subst s1.
  apply conversations_record in Hdict. destruct Hdict as (u & Hu & Hcell).
  unfold bind at 1. unfold attach at 1, set_payload at 1. cbn [fst snd].
  destruct Hp as (He & Hs & Hapi & Hfr).
  lazymatch goal with
  | |- match ?m ?s with _ => _ end =>
      assert (Hrest_moves : moves (same footprint) m) by (repeat pure_step);
      refine (moves_preserves _ (fun x => run_ok (x.1 :: rest) x.2) m Hrest_moves
                              (run_ok_footprint rest) s _)
  end.
  split; [exact Hw|]. apply Forall_cons. split; [|exact Hrest].
  cbn [fst snd]. split; [exact He|]. split; [exact Hs|]. split.
  - exact Hapi.
  - simpl. rewrite lookup_insert_eq. intros df [= <-].
    eexists _, _. split; [reflexivity|]. split; [exact Hcell|].
    split; [lia|]. intros Hh.
    destruct Hw as (t & _ & _ & _ & Hhon). destruct (Hhon Hh) as [Hlt _].
    specialize (Hapi d u Hd Hu Hh). lia.
Qed.

Lemma pipeline_steps_preserve st :
  In st pipeline_steps ->
  forall rest, preserves (fun x => run_ok (x.1 :: rest) x.2) (step_execute st).
Proof.
  intros [<- | [<- | [<- | []]]] rest.
  - apply RetrieveApiData_preserves.
  - apply ParseApiData_preserves.
  - apply LoadToDatabase_preserves.
Qed.

Lemma run_ok_tail p rest a : run_ok (p :: rest) a -> run_ok rest a.
Proof. intros [Hw Hq]. split; [exact Hw | exact (Forall_inv_tail Hq)]. Qed.

End Invariant.
End WatermarkProperties.

Section RunProperties.
Import Postgres DatabaseOperations Intercom PipelineEngine Conversation.

Lemma pre_steps_run source stored :
  run_pre_execution_steps pre_execution_steps
                          (IntercomConversationPipeline source stored)
  = match GetPayloads_execute (connected source stored) with
    | (Ok _, p') =>
        (Ok tt,
         {| self := p';
            logged := [LogPreStepsToExecute 2;
                       LogStartingPreStep "GetDatabaseConnection";
                       LogStartingPreStep "GetPayloads"; LogPreStepsDone] |})
    | (Raise e, p') =>
        (Raise e,
         {| self := p';
            logged := [LogPreStepsToExecute 2;
                       LogStartingPreStep "GetDatabaseConnection";
                       LogStartingPreStep "GetPayloads"] |})
    | (Diverge, p') =>
        (Diverge,
         {| self := p';
            logged := [LogPreStepsToExecute 2;
                       LogStartingPreStep "GetDatabaseConnection";
                       LogStartingPreStep "GetPayloads"] |})
    end.
Proof.
  unfold run_pre_execution_steps, pre_execution_steps, run_steps, bind,
    PipelineEngine.logger, execute_on_self.
  cbn [self logged step_execute step_name length
       GetDatabaseConnection GetPayloads IntercomConversationPipeline].
  unfold GetDatabaseConnection_execute, on_attrs, get_db_connection.
  cbn [attrs payloads committed remote connection_log].
  change {| payloads := None; attrs := _ |} with (connected source stored).
  cbn [self logged app].
  now destruct (GetPayloads_execute (connected source stored)) as [[[]|e|] p'].
Qed.

Lemma post_steps_run (s0 : Run Payload World) cur :
  conn (attrs (self s0)) = Some cur ->
  run_post_execution_steps post_execution_steps s0
  = (Ok tt,
     {| self :=
          {| payloads := payloads (self s0);
             attrs := {| remote := remote (attrs (self s0));
                         committed := session_view (view cur);
                         conn := Some {| view := session_view (view cur);
                                         issued := issued cur |};
                         connection_log :=
                           connection_log (attrs (self s0)) ++ [Committed] |} |};
        logged := logged s0 ++ [LogPostStepsToExecute 1;
                                LogStartingPostStep "CommitTransaction";
                                LogPostStepsDone] |}).
Proof.
  intros Hc.
  unfold run_post_execution_steps, post_execution_steps, run_steps, bind,
    PipelineEngine.logger, execute_on_self.
  cbn [self logged step_execute step_name length CommitTransaction].
  unfold CommitTransaction_execute, on_attrs, conn_commit. rewrite Hc.
  unfold ret. cbn [self logged]. rewrite <- !app_assoc. reflexivity.
Qed.

Lemma GetPayloads_outcome (p : Pipeline Payload World) cur start :
  conn (attrs p) = Some cur ->
  watermark (view cur) = Some start ->
  let asked :=
    {| view := view cur; issued := issued cur ++ [SelectMaxUpdatedAt "intercom"] |} in
  match GetPayloads_execute p with
  | (Ok _, p') =>
      exists end_ r1 ids r2,
        get_conversation_max_updated_timestamp start default_retries default_backoff
                                               (remote (attrs p))
        = (Ok (Some end_), r1) /\
        get_conversation_ids_last_updated_between_timestamps
          start end_ default_retries default_backoff r1 = (Ok ids, r2) /\
        p' = {| payloads := Some (map (new_unit start end_) ids);
                attrs := {| remote := r2; committed := committed (attrs p);
                            conn := Some asked;
                            connection_log := connection_log (attrs p) |} |}
  | (Raise e, p') =>
      is_stop e = true ->
      exists r1,
        get_conversation_max_updated_timestamp start default_retries default_backoff
                                               (remote (attrs p))
        = (Ok None, r1) /\
        p' = {| payloads := payloads p;
                attrs := {| remote := r1; committed := committed (attrs p);
                            conn := Some asked;
                            connection_log := connection_log (attrs p) |} |}
  | (Diverge, _) => True
  end.
Proof.
  intros Hconn Hw asked. unfold GetPayloads_execute.
  unfold bind at 1. unfold on_attrs at 1, on_cursor at 1. rewrite Hconn.
  unfold cur_execute. rewrite (watermark_exec _ _ Hw). cbn [attrs payloads].
  unfold bind at 1. unfold on_attrs at 1, on_remote at 1. cbn [attrs remote].
  pose proof (moves_max_updated start default_retries default_backoff
                                (remote (attrs p))) as Hm.
  destruct (get_conversation_max_updated_timestamp _ _ _ (remote (attrs p)))
    as [[[end_|]|e|] r1] eqn:Emax; cbn [attrs payloads committed conn connection_log].
  - unfold bind at 1. unfold on_attrs at 1, on_remote at 1. cbn [attrs remote].
    pose proof (moves_ids start end_ default_retries default_backoff r1) as Hi.
    destruct (get_conversation_ids_last_updated_between_timestamps _ _ _ _ r1)
      as [[ids|e|] r2] eqn:Eids; cbn [attrs payloads committed conn connection_log].
    + exists end_, r1, ids, r2. split; [reflexivity|]. split; [exact Eids | reflexivity].
    + intros He. congruence.
    + exact I.
  - intros _. exists r1. split; reflexivity.
  - intros He. congruence.
  - exact I.
Qed.

End RunProperties.

Section RunWatermark.
Import Postgres DatabaseOperations Intercom PipelineEngine Conversation.

Lemma watermark_table db w :
  watermark db = Some w <->
  exists t, conversations_table db = Some t /\ "updated_at" ∈ t_columns t /\
            w = default 0%Z (max_column (t_columns t) "updated_at" (t_rows t)).
Proof.
  unfold watermark, conversations_table. simpl.
  destruct (relations db !! ("intercom", "conversations")) as [t|].
  - case_bool_decide as Hin.
    + split; [intros [= <-]; eauto | intros (t' & [= <-] & _ & ->); reflexivity].
    + split; [discriminate | intros (t' & [= <-] & Hin' & _); contradiction].
  - split; [discriminate | intros (t' & Ht & _); discriminate].
Qed.

Lemma resolved_after_start start retries backoff source end_ r1 h :
  get_conversation_max_updated_timestamp start retries backoff source
  = (Ok (Some end_), r1) ->
  honours_filter (drop (length (history source)) (history r1 ++ h)) ->
  (start < end_)%Z.
Proof.
  intros Hmax Hf.
  apply max_updated_result in Hmax. destruct Hmax as (h1 & response & Hh & Hok & Hend).
  symmetry in Hend.
  destruct (max_or_None_spec
              (map conv_updated_at
                   (List.filter is_conversation (sr_conversations response))))
    as [_ Hsome].
  destruct (Hsome end_ Hend) as [Hin _].
  apply in_map_iff in Hin. destruct Hin as (conv & Hu & Hin).
  apply filter_In in Hin. destruct Hin as [Hin Hconv].
  specialize (Hf (max_updated_payload start) response conv).
  rewrite Hh, <- !app_assoc, drop_app_le, drop_ge in Hf by lia.
  simpl in Hf. rewrite Hu in Hf.
  apply Z.ltb_lt, Hf; auto.
  apply in_or_app. right. now left.
Qed.

(** C5, as the code has it.  For every run of the pipeline that returns
    normally, from a store whose watermark (the committed
    [max(updated_at)] of its conversations) is [start]:
    - the run resolves its window from that watermark: the end it resolves
      is what [get_conversation_max_updated_timestamp] answers for [start]
      on the source as the run found it, and everything the run does to the
      source comes after that call;
    - when no end is resolved, the run commits the tables as they were;
    - when [end_] is resolved, every row of the committed conversations
      table is a row the table already held or has [updated_at] at most
      [end_] (the transformer writes [min(updated_at, end_)]), and the
      committed watermark is at most the larger of [start] and [end_];
    - when moreover the answers the run got are honest (every conversation
      a search listed is selected by the filter sent, and no detail served
      reports a change before [start]), [end_] is greater than [start] and
      the committed watermark is not below [start].
    So the start of the next run is the watermark this run commits, and the
    end the next run resolves is greater than it; how it compares with the
    end this run resolved is not determined. *)
Theorem watermark_across_a_run (source : Remote) (stored : Database) (start : Z) s' :
  watermark stored = Some start ->
  IntercomConversationPipeline_execute (IntercomConversationPipeline source stored)
  = (Ok tt, s') ->
  exists resolved r1 h,
    get_conversation_max_updated_timestamp start default_retries default_backoff source
    = (Ok resolved, r1) /\
    history (remote (attrs (self s'))) = history r1 ++ h /\
    match resolved with
    | None => relations (committed (attrs (self s'))) = relations stored
    | Some end_ =>
        (forall t0 t row,
            conversations_table stored = Some t0 ->
            conversations_table (committed (attrs (self s'))) = Some t ->
            In row (t_rows t) ->
            In row (t_rows t0) \/
            exists v, cell (t_columns t) row "updated_at" = JNum v /\ (v <= end_)%Z) /\
        exists w,
          watermark (committed (attrs (self s'))) = Some w /\
          (w <= Z.max start end_)%Z /\
          (honest start (drop (length (history source))
                              (history (remote (attrs (self s'))))) ->
           (start < end_)%Z /\ (start <= w)%Z)
    end.
Proof.
  intros Hw Hrun.
  apply execute_Ok in Hrun. destruct Hrun as (s0 & Hg & Hpost).
  apply execute_guarded_Ok in Hg. unfold pre_and_payloads, bind in Hg.
  rewrite pre_steps_run in Hg.
  pose proof (GetPayloads_outcome (connected source stored)
                {| view := session_view stored; issued := [] |} start eq_refl) as Hout.
  cbn [view] in Hout. rewrite watermark_session_view in Hout.
  specialize (Hout Hw). cbv zeta in Hout.
  destruct (GetPayloads_execute (connected source stored)) as [[[]|e|] p'].
  - destruct Hout as (end_ & r1 & ids & r2 & Hmax & Hids & ->).
    cbn [connected attrs remote committed connection_log view issued] in *.
    apply watermark_table in Hw. destruct Hw as (t0 & Ht0 & Hcol & Hstart).
    pose proof (moves_max_updated start default_retries default_backoff source) as H1.
    rewrite Hmax in H1. destruct H1 as [h1 Hh1].
    pose proof (moves_ids start end_ default_retries default_backoff r1) as H2.
    rewrite Hids in H2. destruct H2 as [h2 Hh2].
    assert (Hn : (length (history source) <= length (history r1))%nat)
      by (rewrite Hh1, length_app; lia).
    match type of Hg with
    | context [run_all_payloads _ ?s] =>
        pose proof (run_all_payloads_preserves pipeline_steps
                      (run_ok start end_ t0 (history r1) (length (history source)))
                      (pipeline_steps_preserve start end_ t0 (history r1)
                                               (length (history source)) Hstart Hn)
                      (run_ok_tail start end_ t0 (history r1) (length (history source)))
                      (map (new_unit start end_) ids) s) as Hall
    end.
    assert (Hinit : queued (run_ok start end_ t0 (history r1) (length (history source)))
                           (map (new_unit start end_) ids)
                           {| self :=
                                {| payloads := Some (map (new_unit start end_) ids);
                                   attrs :=
                                     {| remote := r2; committed := stored;
                                        conn :=
                                          Some {| view := session_view stored;
                                                  issued :=
                                                    [] ++ [SelectMaxUpdatedAt "intercom"] |};
                                        connection_log := [Connected] |} |};
                              logged :=
                                [LogPreStepsToExecute 2;
                                 LogStartingPreStep "GetDatabaseConnection";
                                 LogStartingPreStep "GetPayloads"; LogPreStepsDone] |}).
    { split; [reflexivity|]. split.
      - exists t0. split; [exact Ht0|].
        split; [exact (written_t0 _ _ _ _ _ Hstart Hn)|]. split; [now exists h2|].
        cbn [attrs self remote]. intros [Hf _].
        split; [|unfold max_updated_at; rewrite <- Hstart; lia].
        rewrite Hh2 in Hf. exact (resolved_after_start _ _ _ _ _ _ _ Hmax Hf).
      - apply Forall_forall. intros q Hq. apply list_elem_of_In, in_map_iff in Hq.
        destruct Hq as (id & <- & _).
        split; [reflexivity|]. split; [reflexivity|]. split; [discriminate|].
        intros df Hdf. simpl in Hdf. now rewrite lookup_empty in Hdf. }
    specialize (Hall Hinit).
    destruct Hg as [Hg | (msg & s1 & Hg & _)]; rewrite Hg in Hall; [|discriminate].
    destruct Hall as [_ [(t & Hst & (Hcols & Hrows & Hle) & [h Hh] & Hhon) _]].
    unfold session_table in Hst.
    destruct (conn (attrs (self s0))) as [cur|] eqn:Hc; [|discriminate].
    rewrite (post_steps_run s0 cur Hc) in Hpost. injection Hpost as <-.
    cbn [self attrs remote committed].
    exists (Some end_), r1, h. split; [exact Hmax|]. split; [exact Hh|].
    change (conversations_table (session_view (view cur)))
      with (conversations_table (view cur)).
    split.
    + intros t0' t' row Ht0' Ht' Hin.
      rewrite Ht0 in Ht0'. injection Ht0' as <-.
      rewrite Hst in Ht'. injection Ht' as <-.
      rewrite Hcols. now apply Hrows.
    + exists (max_updated_at t0 (t_rows t)). split.
      * apply watermark_table. exists t. split; [exact Hst|].
        rewrite Hcols. auto.
      * split; [exact Hle|]. exact Hhon.
  - destruct Hg as [Hg | (msg & s1 & Hg & ->)]; [discriminate|].
    injection Hg as -> <-.
    destruct (Hout eq_refl) as (r1 & Hmax & ->).
    erewrite post_steps_run in Hpost by reflexivity. injection Hpost as <-.
    exists None, r1, []. split; [exact Hmax|].
    split; [cbn; now rewrite app_nil_r | reflexivity].
  - destruct Hg as [Hg | (msg & s1 & Hg & _)]; discriminate.
Qed.

End RunWatermark.

(** The first run on [Examples.churning], from an empty conversations table:
    it resolves 150. *)
Lemma watermark_across_a_run_witness :
  exists resolved r1 h,
    Intercom.get_conversation_max_updated_timestamp
      0 Conversation.default_retries Conversation.default_backoff Examples.churning
    = (Ok resolved, r1) /\
    Intercom.history
      (Conversation.remote (PipelineEngine.attrs (PipelineEngine.self Examples.first_run.2)))
    = Intercom.history r1 ++ h /\
    match resolved with
    | None =>
        Postgres.relations
          (Conversation.committed
             (PipelineEngine.attrs (PipelineEngine.self Examples.first_run.2)))
        = Postgres.relations (Examples.destination [])
    | Some end_ =>
        (forall t0 t row,
            Conversation.conversations_table (Examples.destination []) = Some t0 ->
            Conversation.conversations_table
              (Conversation.committed
                 (PipelineEngine.attrs (PipelineEngine.self Examples.first_run.2)))
            = Some t ->
            In row (Postgres.t_rows t) ->
            In row (Postgres.t_rows t0) \/
            exists v, cell (Postgres.t_columns t) row "updated_at" = JNum v /\
                      (v <= end_)%Z) /\
        exists w,
          Conversation.watermark
            (Conversation.committed
               (PipelineEngine.attrs (PipelineEngine.self Examples.first_run.2)))
          = Some w /\
          (w <= Z.max 0 end_)%Z /\
          (Conversation.honest
             0 (drop (length (Intercom.history Examples.churning))
                     (Intercom.history
                        (Conversation.remote
                           (PipelineEngine.attrs
                              (PipelineEngine.self Examples.first_run.2))))) ->
           (0 < end_)%Z /\ (0 <= w)%Z)
    end.
Proof.
  apply (watermark_across_a_run Examples.churning (Examples.destination []) 0
                                Examples.first_run.2).
  - vm_compute. reflexivity.
  - vm_compute. reflexivity.
Defined.

(** C5 as stated fails.  On [Examples.churning] the first run resolves the
    end 150 and commits the watermark 120, because the conversation that set
    the end has left the window when the pages are listed; the second run
    starts from 120 and resolves 130, less than the end of the run before it.
    On [Examples.stale], whose search ignores the filter, a run from the
    watermark 120 resolves 110, less than the watermark itself, and commits
    the watermark 110.  All three runs return normally. *)
Lemma resolved_end_goes_back :
  Examples.first_run.1 = Ok tt /\
  (Intercom.get_conversation_max_updated_timestamp
     0 Conversation.default_retries Conversation.default_backoff
     Examples.churning).1
  = Ok (Some 150%Z) /\
  Conversation.watermark
    (Conversation.committed
       (PipelineEngine.attrs (PipelineEngine.self Examples.first_run.2)))
  = Some 120%Z /\
  Examples.second_run.1 = Ok tt /\
  (Intercom.get_conversation_max_updated_timestamp
     120 Conversation.default_retries Conversation.default_backoff
     (Conversation.remote
        (PipelineEngine.attrs (PipelineEngine.self Examples.first_run.2)))).1
  = Ok (Some 130%Z) /\
  Conversation.watermark
    (Conversation.committed
       (PipelineEngine.attrs (PipelineEngine.self Examples.second_run.2)))
  = Some 130%Z /\
  Conversation.watermark (Examples.destination [Examples.conversation_row "Y" 120])
  = Some 120%Z /\
  Examples.stale_run.1 = Ok tt /\
  (Intercom.get_conversation_max_updated_timestamp
     120 Conversation.default_retries Conversation.default_backoff
     Examples.stale).1
  = Ok (Some 110%Z) /\
  Conversation.watermark
    (Conversation.committed
       (PipelineEngine.attrs (PipelineEngine.self Examples.stale_run.2)))
  = Some 110%Z.
Proof. vm_compute. repeat split. Qed.

Ltac events Hin :=
  match type of Hin with
  | In _ ?l =>
      let l' := eval vm_compute in l in
      replace l with l' in Hin by (vm_compute; reflexivity)
  end.
Ltac listed Hin Hconv :=
  injection Hin as <- <-; destruct Hconv as [<- | []]; reflexivity.
Ltac detailed Hin Hu :=
  injection Hin as <- <-; vm_compute in Hu; injection Hu as <-; lia.


(** The answers [Examples.churning] gave to the two runs are honest: the run
    before resolved a later end than the run after it although every search
    result was selected by its filter. *)
Example churning_is_honest :
  Conversation.honest
    0 (Intercom.history
         (Conversation.remote
            (PipelineEngine.attrs (PipelineEngine.self Examples.first_run.2)))) /\
  Conversation.honest
    120 (drop (length (Intercom.history
                         (Conversation.remote
                            (PipelineEngine.attrs
                               (PipelineEngine.self Examples.first_run.2)))))
              (Intercom.history
                 (Conversation.remote
                    (PipelineEngine.attrs
                       (PipelineEngine.self Examples.second_run.2))))).
Proof.
  split; split.
  - intros payload response conv Hin _ Hconv _. events Hin.
    destruct Hin as [Hin | [Hin | [Hin | [Hin | []]]]];
      [listed Hin Hconv | listed Hin Hconv | listed Hin Hconv | discriminate Hin].
  - intros id response u Hin _ Hu. events Hin.
    destruct Hin as [Hin | [Hin | [Hin | [Hin | []]]]];
      [discriminate Hin | discriminate Hin | discriminate Hin | detailed Hin Hu].
  - intros payload response conv Hin _ Hconv _. events Hin.
    destruct Hin as [Hin | [Hin | [Hin | [Hin | []]]]];
      [listed Hin Hconv | listed Hin Hconv | listed Hin Hconv | discriminate Hin].
  - intros id response u Hin _ Hu. events Hin.
    destruct Hin as [Hin | [Hin | [Hin | [Hin | []]]]];
      [discriminate Hin | discriminate Hin | discriminate Hin | detailed Hin Hu].
Qed.

(** ** Computations that settle

    The rules by which [settles] goes through the monad. *)

Section Settling.
Context {S : Type} (R : relation S) `{!PreOrder R}.

Lemma settles_ret {A} (a : A) : settles R (ret a).
Proof. intros s. split; [discriminate | reflexivity]. Qed.

Lemma settles_raise {A} e : settles R (raise (A:=A) e).
Proof. intros s. split; [discriminate | reflexivity]. Qed.

Lemma settles_bind {A B} (m : M S A) (k : A -> M S B) :
  settles R m -> (forall a, settles R (k a)) -> settles R (bind m k).
Proof.
  intros Hm Hk s. unfold bind. specialize (Hm s).
  destruct (m s) as [[a|e|] s1]; simpl in Hm; destruct Hm as [Hd Hr].
  - specialize (Hk a s1). destruct Hk as [Hd' Hr']. split; [exact Hd'|].
    now transitivity s1.
  - split; [discriminate | exact Hr].
  - contradiction.
Qed.

Lemma settles_try_except {A} (body : M S A) handler :
  settles R body ->
  (forall e h, handler e = Some h -> settles R h) ->
  settles R (try_except body handler).
Proof.
  intros Hb Hh s. unfold try_except. specialize (Hb s).
  destruct (body s) as [[a|e|] s1]; simpl in Hb; destruct Hb as [Hd Hr].
  - split; [discriminate | exact Hr].
  - destruct (handler e) as [h|] eqn:E; [|split; [discriminate | exact Hr]].
    destruct (Hh e h E s1) as [Hd' Hr']. split; [exact Hd'|]. now transitivity s1.
  - contradiction.
Qed.

End Settling.

Lemma settles_weaken {S A} (R R' : relation S) (m : M S A) :
  (forall s s', R s s' -> R' s s') -> settles R m -> settles R' m.
Proof. intros H Hm s. destruct (Hm s). auto. Qed.

#[global] Instance anywhere_preorder {S} : PreOrder (@anywhere S).
Proof. split; [intros s; exact I | intros a b c _ _; exact I]. Qed.

Lemma settles_at_bind {S A B} (R : relation S) `{!Transitive R}
      (m : M S A) (k : A -> M S B) s :
  settles_at R m s ->
  (forall a s1, m s = (Ok a, s1) -> R s s1 -> settles_at R (k a) s1) ->
  settles_at R (bind m k) s.
Proof.
  unfold settles_at, bind. intros [Hd Hr] Hk.
  destruct (m s) as [[a|e|] s1]; cbn [fst snd] in *.
  - destruct (Hk a s1 eq_refl Hr) as [Hd' Hr']. split; [exact Hd'|].
    now transitivity s1.
  - split; [discriminate | exact Hr].
  - contradiction.
Qed.

Lemma settles_settles_at {S A} (R : relation S) (m : M S A) s :
  settles R m -> settles_at R m s.
Proof. intros H. exact (H s). Qed.

(** ** The engine: one payload, the log, termination

    What [run_payload] does with its steps, what the log of a normal return
    holds, and that [execute] comes back. *)

Section EngineLog.
Import PipelineEngine.
Context {Payload Attrs : Type}.
Implicit Types s : Run Payload Attrs.
Context (pre_steps : list (PreExecutionStep Payload Attrs))
        (unit_steps : list (PipelineStep Payload Attrs))
        (post_steps : list (PostExecutionStep Payload Attrs))
        (error_steps : list (ErrorHandlingStep Payload Attrs)).

Lemma run_payload_steps_cons st rest s :
  run_payload_steps (st :: rest) s
  = match execute_on_payload st (with_record s (LogStartingPipelineStep (step_name st))) with
    | (Ok _, s1) =>
        run_payload_steps rest (with_record s1 (LogFinishedPipelineStep (step_name st)))
    | (Raise (StopPayloadException msg), s1) =>
        (Ok tt, with_record s1 (LogStoppingPayloadEarly msg))
    | (Raise e, s1) => (Raise e, s1)
    | (Diverge, s1) => (Diverge, s1)
    end.
Proof.
  simpl. unfold bind at 1. unfold logger at 1.
  change {| self := self s; logged := logged s ++ [LogStartingPipelineStep (step_name st)] |}
    with (with_record s (LogStartingPipelineStep (step_name st))).
  unfold bind at 1. unfold try_except at 1. unfold bind at 1.
  destruct (execute_on_payload st _) as [[[]|e|] s1]; try reflexivity.
  destruct e; reflexivity.
Qed.

(** X1.  [run_payload] runs the pipeline steps in order on the unit at the
    head of the queue.  When the steps [before] have completed from [s]:
    - [run_payload] with these steps alone returns, and logs the payload as
      done;
    - if the next step raises [StopPayloadException], the stop is logged,
      the steps after it are not run, and [run_payload] returns normally,
      logging the payload as done;
    - if the next step raises anything else, [run_payload] raises that
      exception from the state the step left, and the steps after it are
      not run. *)
Theorem run_payload_contract before s s1 :
  completes before s s1 ->
  run_payload before s = (Ok tt, with_record s1 LogPayloadDone) /\
  (forall st after msg s2,
      execute_on_payload st (with_record s1 (LogStartingPipelineStep (step_name st)))
      = (Raise (StopPayloadException msg), s2) ->
      run_payload (before ++ st :: after) s
      = (Ok tt, with_record (with_record s2 (LogStoppingPayloadEarly msg)) LogPayloadDone)) /\
  (forall st after e s2,
      execute_on_payload st (with_record s1 (LogStartingPipelineStep (step_name st)))
      = (Raise e, s2) ->
      (forall msg, e <> StopPayloadException msg) ->
      run_payload (before ++ st :: after) s = (Raise e, s2)).
Proof.
  intros H. unfold run_payload, bind.
  induction H as [s|st0 rest s s1 s2 Hst Hrest IH].
  - split; [reflexivity|]. split.
    + intros st after msg s2 Hst. simpl app. rewrite run_payload_steps_cons, Hst.
      reflexivity.
    + intros st after e s2 Hst Hne. simpl app. rewrite run_payload_steps_cons, Hst.
      destruct e; try reflexivity. now destruct (Hne msg).
  - destruct IH as (IH1 & IH2 & IH3).
    split; [|split].
    + rewrite run_payload_steps_cons, Hst. exact IH1.
    + intros st after msg s3 H3. simpl app. rewrite run_payload_steps_cons, Hst.
      now apply IH2.
    + intros st after e s3 H3 Hne. simpl app. rewrite run_payload_steps_cons, Hst.
      now apply IH3.
Qed.

(** X2.  [payloads] is only annotated in the class body.  When the
    pre-execution steps return without having assigned it,
    [run_all_payloads] raises [AttributeError]: the error reaches the outer
    handler of [execute] from the state the pre-execution steps left, and
    [execute] re-raises it once the error-handling steps have returned. *)
Theorem unassigned_payloads_is_an_error s s1 :
  run_pre_execution_steps pre_steps s = (Ok tt, s1) ->
  payloads (self s1) = None ->
  reaches_handler pre_steps unit_steps post_steps s (AttributeError "payloads") s1 /\
  forall s2,
    run_error_handling error_steps
      (with_record s1 (LogUnexpectedError (AttributeError "payloads"))) = (Ok tt, s2) ->
    execute pre_steps unit_steps post_steps error_steps s
    = (Raise (AttributeError "payloads"), s2).
Proof.
  intros Hpre Hnone.
  assert (Hr : reaches_handler pre_steps unit_steps post_steps s
                               (AttributeError "payloads") s1).
  { left. apply execute_guarded_other; [|discriminate].
    unfold pre_and_payloads, bind. rewrite Hpre.
    unfold run_all_payloads. now rewrite Hnone. }
  split; [exact Hr|]. intros s2 He.
  rewrite (execute_handler _ _ _ _ _ _ _ Hr).
  unfold bind at 1. unfold logger at 1.
  change {| self := self s1; logged := logged s1 ++ [LogUnexpectedError (AttributeError "payloads")] |}
    with (with_record s1 (LogUnexpectedError (AttributeError "payloads"))).
  unfold bind at 1. now rewrite He.
Qed.










End EngineLog.

(** A payload with three steps, of which the second asks to stop: the third
    is not run, and the payload is logged as done. *)
Lemma run_payload_contract_witness :
  PipelineEngine.run_payload [Examples.Touch; Examples.Skipping; Examples.Touch]
                             (Examples.flag_run (Some [false]))
  = (Ok tt,
     {| PipelineEngine.self :=
          {| PipelineEngine.payloads := Some [true]; PipelineEngine.attrs := tt |};
        PipelineEngine.logged :=
          [PipelineEngine.LogStartingPipelineStep "Touch";
           PipelineEngine.LogFinishedPipelineStep "Touch";
           PipelineEngine.LogStartingPipelineStep "Skipping";
           PipelineEngine.LogStoppingPayloadEarly "skip";
           PipelineEngine.LogPayloadDone] |}).
Proof.
  destruct (run_payload_contract
              [Examples.Touch] (Examples.flag_run (Some [false])) _
              (PipelineEngine.completes_cons
                 Examples.Touch [] (Examples.flag_run (Some [false])) _ _ eq_refl
                 (PipelineEngine.completes_nil _)))
    as (_ & Hstop & _).
  exact (Hstop Examples.Skipping [Examples.Touch] "skip" _ eq_refl).
Defined.

(** A pipeline whose only pre-execution step assigns nothing. *)
Lemma unassigned_payloads_is_an_error_witness :
  (PipelineEngine.execute [Examples.Quiet] [Examples.Touch] [Examples.Quiet]
                          [Examples.Quiet] (Examples.flag_run None)).1
  = Raise (AttributeError "payloads").
Proof.
  destruct (unassigned_payloads_is_an_error
              [Examples.Quiet] [Examples.Touch] [Examples.Quiet] [Examples.Quiet]
              (Examples.flag_run None) _ eq_refl eq_refl) as [_ H].
  exact (f_equal fst (H _ eq_refl)).
Defined.


Lemma unit_settles_intro {Payload Attrs} (Good : Payload -> Prop) (RA : relation Attrs)
      (st : PipelineEngine.PipelineStep Payload Attrs) :
  (forall p a r p' a',
      Good p -> PipelineEngine.step_execute st (p, a) = (r, (p', a')) ->
      r <> Diverge /\ Good p' /\ RA a a') ->
  PipelineEngine.unit_settles Good RA st.
Proof.
  intros H p a Hp.
  destruct (PipelineEngine.step_execute st (p, a)) as [r [p' a']] eqn:E.
  exact (H p a r p' a' Hp E).
Qed.

Section EngineSettling.
Import PipelineEngine.
Context {Payload Attrs : Type}.
Context (pre_steps : list (PreExecutionStep Payload Attrs))
        (unit_steps : list (PipelineStep Payload Attrs))
        (post_steps : list (PostExecutionStep Payload Attrs))
        (error_steps : list (ErrorHandlingStep Payload Attrs)).
Context (Good : Payload -> Prop) (RA : relation Attrs) `{!PreOrder RA}.

#[global] Instance attrs_related_preorder : PreOrder (attrs_related (Payload:=Payload) RA).
Proof.
  split; [intros p; unfold attrs_related; reflexivity|].
  intros a b c. unfold attrs_related. intros. now transitivity (attrs b).
Qed.

#[global] Instance run_related_preorder : PreOrder (run_related (Payload:=Payload) RA).
Proof.
  split; [intros p; unfold run_related; reflexivity|].
  intros a b c. unfold run_related. intros. now transitivity (attrs (self b)).
Qed.

Lemma settles_logger r : settles (run_related RA) (PipelineEngine.logger (Payload:=Payload) r).
Proof. intros s. split; [discriminate|]. unfold run_related. simpl. reflexivity. Qed.

Lemma settles_execute_on_self (st : Step (Pipeline Payload Attrs)) :
  settles (attrs_related RA) (step_execute st) ->
  settles (run_related RA) (execute_on_self st).
Proof.
  intros H s. unfold execute_on_self. specialize (H (self s)).
  destruct (step_execute st (self s)) as [r p]. exact H.
Qed.

Lemma settles_run_steps starting (steps : list (Step (Pipeline Payload Attrs))) :
  Forall (fun st => settles (attrs_related RA) (step_execute st)) steps ->
  settles (run_related RA) (run_steps starting steps).
Proof.
  induction 1 as [|st rest Hst _ IH]; simpl; [apply settles_ret; apply _|].
  apply settles_bind; [apply _ | apply settles_logger | intros _].
  apply settles_bind; [apply _ | now apply settles_execute_on_self | intros _].
  exact IH.
Qed.

Lemma run_payload_steps_settles (steps : list (PipelineStep Payload Attrs)) :
  Forall (unit_settles Good RA) steps ->
  forall s p rest r s',
    payloads (self s) = Some (p :: rest) -> Good p ->
    run_payload_steps steps s = (r, s') ->
    r <> Diverge /\
    RA (attrs (self s)) (attrs (self s')) /\
    exists p', payloads (self s') = Some (p' :: rest) /\ Good p'.
Proof.
  induction 1 as [|st more Hst _ IH]; intros s p rest r s' Hq Hp E.
  - simpl in E. injection E as <- <-.
    split; [discriminate|]. split; [reflexivity|]. eauto.
  - rewrite run_payload_steps_cons in E.
    unfold execute_on_payload, with_record in E. cbn [self logged] in E.
    rewrite Hq in E.
    destruct (Hst p (attrs (self s)) Hp) as (Hd & Hg & Hr).
    destruct (step_execute st (p, attrs (self s))) as [[[]|e|] [p1 a1]];
      cbn [fst snd] in *.
    + cbn [self logged] in E.
      match type of E with
      | run_payload_steps _ ?s1 = _ =>
          destruct (IH s1 p1 rest r s' eq_refl Hg E) as (Hd' & Hr' & p' & Hq' & Hg')
      end.
      cbn [self attrs] in Hr'.
      split; [exact Hd'|]. split; [etransitivity; [exact Hr | exact Hr']|]. eauto.
    + destruct e; injection E as <- <-; cbn [self attrs payloads];
        (split; [discriminate|]; split; [exact Hr|]; eauto).
    + contradiction.
Qed.

Lemma payloads_loop_settles :
  Forall (unit_settles Good RA) unit_steps ->
  forall fuel s q r s',
    payloads (self s) = Some q -> Forall Good q -> (length q <= fuel)%nat ->
    payloads_loop unit_steps fuel s = (r, s') ->
    r <> Diverge /\ RA (attrs (self s)) (attrs (self s')).
Proof.
  intros Hsteps. induction fuel as [|fuel IH]; intros s q r s' Hq Hg Hlen E.
  - destruct q; [|simpl in Hlen; lia]. simpl in E. rewrite Hq in E.
    injection E as <- <-. split; [discriminate | reflexivity].
  - destruct q as [|p rest].
    { simpl in E. rewrite Hq in E. injection E as <- <-.
      split; [discriminate | reflexivity]. }
    cbn [payloads_loop] in E. rewrite Hq in E.
    unfold bind at 1 in E. unfold PipelineEngine.logger at 1 in E.
    unfold bind at 1 in E. unfold run_payload at 1 in E. unfold bind at 1 in E.
    match type of E with
    | context [run_payload_steps unit_steps ?s1] =>
        destruct (run_payload_steps unit_steps s1) as [r1 s2] eqn:E1;
        destruct (run_payload_steps_settles unit_steps Hsteps s1 p rest r1 s2 Hq
                                            (Forall_inv Hg) E1)
          as (Hd & Hr & p' & Hq' & Hg')
    end.
    cbn [self attrs] in Hr.
    destruct r1 as [[]|e|]; [| |contradiction].
    + unfold PipelineEngine.logger at 1 in E. unfold bind at 1 in E.
      unfold del_payloads_0 at 1 in E. cbn [self logged] in E. rewrite Hq' in E.
      match type of E with
      | payloads_loop _ _ ?s3 = _ =>
          destruct (IH s3 rest r s' eq_refl (Forall_inv_tail Hg)
                       ltac:(simpl in Hlen; lia) E) as [Hd' Hr']
      end.
      cbn [self attrs] in Hr'. split; [exact Hd'|].
      etransitivity; [exact Hr | exact Hr'].
    + injection E as <- <-. split; [discriminate | exact Hr].
Qed.

Lemma run_all_payloads_settles s :
  Forall (unit_settles Good RA) unit_steps ->
  (forall q, payloads (self s) = Some q -> Forall Good q) ->
  (run_all_payloads unit_steps s).1 <> Diverge /\
  RA (attrs (self s)) (attrs (self (run_all_payloads unit_steps s).2)).
Proof.
  intros Hsteps Hq. unfold run_all_payloads.
  destruct (payloads (self s)) as [[|p rest]|] eqn:E.
  - simpl. split; [discriminate | reflexivity].
  - unfold bind.
    destruct (payloads_loop unit_steps _ s) as [r s1] eqn:E1.
    destruct (payloads_loop_settles Hsteps (length (p :: rest)) s (p :: rest) r s1 E
                                    (Hq _ eq_refl) ltac:(lia) E1) as [Hd Hr].
    destruct r as [[]|e|]; cbn [fst snd] in *.
    + split; [discriminate | exact Hr].
    + split; [discriminate | exact Hr].
    + contradiction.
  - simpl. split; [discriminate | reflexivity].
Qed.

End EngineSettling.

Section EngineTermination.
Import PipelineEngine.
Context {Payload Attrs : Type}.
Context (pre_steps : list (PreExecutionStep Payload Attrs))
        (unit_steps : list (PipelineStep Payload Attrs))
        (post_steps : list (PostExecutionStep Payload Attrs))
        (error_steps : list (ErrorHandlingStep Payload Attrs)).

Lemma halting_steps_settle (steps : list (Step (Pipeline Payload Attrs))) :
  Forall (fun st => forall p, (step_execute st p).1 <> Diverge) steps ->
  Forall (fun st => settles (attrs_related anywhere) (step_execute st)) steps.
Proof.
  intros H. eapply Forall_impl; [exact H|].
  intros st Hst p. split; [apply Hst | exact I].
Qed.

(** X4.  [execute] comes back: if no step of the four lists can run for
    ever, [execute] returns or raises, from any state.  The [while] loop
    over the payloads ends, as every iteration deletes one unit and a
    pipeline step, which is handed the payload alone, cannot add to the
    queue: as many iterations as there were units when the loop was entered
    are enough. *)
Theorem execute_returns_or_raises s :
  Forall (fun st => forall p, (step_execute st p).1 <> Diverge) pre_steps ->
  Forall (fun st => forall x, (step_execute st x).1 <> Diverge) unit_steps ->
  Forall (fun st => forall p, (step_execute st p).1 <> Diverge) post_steps ->
  Forall (fun st => forall p, (step_execute st p).1 <> Diverge) error_steps ->
  (execute pre_steps unit_steps post_steps error_steps s).1 <> Diverge.
Proof.
  intros Hpre Hunit Hpost Herr.
  apply halting_steps_settle in Hpre, Hpost, Herr.
  assert (Hu : Forall (unit_settles (fun _ => True) anywhere) unit_steps).
  { eapply Forall_impl; [exact Hunit|]. intros st H p a _. split; [apply H|].
    split; exact I. }
  assert (Hall : settles (run_related anywhere) (run_all_payloads unit_steps)).
  { intros s0. apply (run_all_payloads_settles unit_steps (fun _ => True) anywhere);
      [exact Hu|]. intros q _. apply Forall_forall. intros; exact I. }
  assert (H : settles (run_related anywhere)
                      (execute pre_steps unit_steps post_steps error_steps)).
  { unfold execute. apply settles_try_except; [apply _ | |].
    - apply settles_bind; [apply _ | | intros _].
      + unfold execute_guarded. apply settles_try_except; [apply _ | |].
        * apply settles_bind; [apply _ | | intros _; exact Hall].
          unfold run_pre_execution_steps.
          apply settles_bind; [apply _ | apply settles_logger; apply _ | intros _].
          apply settles_bind; [apply _ | | intros _; apply settles_logger; apply _].
          apply settles_run_steps; [apply _ | exact Hpre].
        * intros e h. destruct e; try discriminate. intros [= <-].
          apply settles_logger; apply _.
      + unfold run_post_execution_steps.
        apply settles_bind; [apply _ | apply settles_logger; apply _ | intros _].
        apply settles_bind; [apply _ | | intros _; apply settles_logger; apply _].
        apply settles_run_steps; [apply _ | exact Hpost].
    - intros e h [= <-].
      apply settles_bind; [apply _ | apply settles_logger; apply _ | intros _].
      apply settles_bind; [apply _ | | intros _; apply settles_raise; apply _].
      unfold run_error_handling.
      apply settles_bind; [apply _ | apply settles_logger; apply _ | intros _].
      apply settles_bind; [apply _ | | intros _; apply settles_logger; apply _].
      apply settles_run_steps; [apply _ | exact Herr]. }
  apply H.
Qed.

End EngineTermination.

(** Two queued units, each processed by one step. *)
Lemma execute_returns_or_raises_witness :
  (PipelineEngine.execute [Examples.QueueTwo] [Examples.Touch] [Examples.Quiet]
                          [Examples.Quiet] (Examples.flag_run None)).1
  <> Diverge.
Proof.
  apply execute_returns_or_raises;
    (apply Forall_cons_2; [intros ?; discriminate | apply Forall_nil_2]).
Defined.

(** ** The client: the calls with one retry loop

    What [get_conversation_details] and
    [get_conversation_max_updated_timestamp] do, whatever the remote source
    answers and whatever the backoff. *)

Section ClientContracts.
Import Intercom.

Lemma details_loop_spec id retries backoff :
  forall n failed r,
    n = Z.to_nat (retries + 1 - failed) ->
    exists h r' out,
      details_loop n id retries backoff failed r = (out, r') /\
      history r' = history r ++ h /\
      ((out = Raise APIErrorException /\
        exists h0, h = h0 ++ [LogUnableToQuery] /\
                   failed_rounds (is_get_of id) backoff n h0) \/
       (exists k h0,
           (k < n)%nat /\
           failed_rounds (is_get_of id) backoff k h0 /\
           let response := conversation r (history r ++ h0) id in
           (h = h0 ++ [Get id response] /\
            is_200_OK (dr_status response) = true /\
            out = Ok (dr_json response)) \/
           (h = h0 ++ [Get id response] /\
            dr_status response = None /\
            out = Raise (KeyError "status")) \/
           (h = h0 ++ [Get id response; LogQueryFailed] /\
            is_failure (dr_status response) = true /\
            (backoff < 0)%Z /\
            out = Raise (ValueError "sleep length must be non-negative")))).
Proof.
  induction n as [|n IH]; intros failed r Hn.
  - rewrite details_loop_exhausted by lia.
    exists [LogUnableToQuery], (record_event LogUnableToQuery r), (Raise APIErrorException).
    split; [reflexivity|]. split; [reflexivity|]. left. split; [reflexivity|].
    exists []. split; [reflexivity | constructor].
  - rewrite details_loop_S by lia. cbv zeta.
    set (resp := conversation r (history r) id).
    assert (Hfirst : conversation r (history r ++ []) id = resp)
      by now rewrite app_nil_r.
    destruct (dr_status resp) as [status|] eqn:Hst.
    2:{ exists [Get id resp], (record_event (Get id resp) r), (Raise (KeyError "status")).
        split; [reflexivity|]. split; [reflexivity|]. right.
        exists 0%nat, []. split; [lia|]. split; [constructor|].
        cbv zeta. rewrite Hfirst. right; left. auto. }
    destruct (String.eqb status "200 OK") eqn:Hresp.
    + exists [Get id resp], (record_event (Get id resp) r), (Ok (dr_json resp)).
      split; [reflexivity|]. split; [reflexivity|]. right.
      exists 0%nat, []. split; [lia|]. split; [constructor|].
      cbv zeta. rewrite Hfirst. left. rewrite Hst. auto.
    + assert (Hfail : is_failed_request (Get id resp) = true)
        by (simpl; rewrite Hst; simpl; now rewrite Hresp).
      destruct (Z.ltb_spec backoff 0) as [Hneg | Hpos].
      { exists [Get id resp; LogQueryFailed],
               (record_event LogQueryFailed (record_event (Get id resp) r)),
               (Raise (ValueError "sleep length must be non-negative")).
        split; [reflexivity|].
        split; [simpl; rewrite <- app_assoc; reflexivity|]. right.
        exists 0%nat, []. split; [lia|]. split; [constructor|].
        cbv zeta. rewrite Hfirst. right; right. auto. }
      set (r1 := record_event (Sleep backoff) _).
      destruct (IH (failed + 1)%Z r1) as (h & r' & out & Hrun & Hh & Hcase); [lia|].
      assert (Hr1 : history r1 = history r ++ [Get id resp; LogQueryFailed; Sleep backoff]).
      { unfold r1. simpl. rewrite <- !app_assoc. reflexivity. }
      exists (Get id resp :: LogQueryFailed :: Sleep backoff :: h), r', out.
      split; [exact Hrun|].
      split; [rewrite Hh, Hr1, <- app_assoc; reflexivity|].
      destruct Hcase as [(-> & h0 & -> & Hrounds) | (k & h0 & Hk & Hrounds & Hend)].
      * left. split; [reflexivity|].
        exists (Get id resp :: LogQueryFailed :: Sleep backoff :: h0).
        split; [reflexivity|]. constructor; [now exists resp | exact Hfail | exact Hrounds].
      * right. exists (S k), (Get id resp :: LogQueryFailed :: Sleep backoff :: h0).
        split; [lia|].
        split; [constructor; [now exists resp | exact Hfail | exact Hrounds]|].
        cbv zeta in *. rewrite Hr1, <- app_assoc in Hend.
        destruct Hend as [(-> & Hok & ->) | [(-> & Hno & ->) | (-> & Hf & Hneg & ->)]];
          [left | right; left | right; right]; auto.
Qed.

(** X5.  [get_conversation_details], for every retry budget, backoff and
    remote source.  The call halts, and all it has done to the remote
    source by then is a number of failed rounds (a request for the
    conversation that is answered with a [Status] header other than
    [200 OK], the failure logged, a sleep of [backoff]) and one more step:
    - when it returns, after [k <= retries] failed rounds, that step is a
      request answered [200 OK], and it returns the body of that response;
    - when it raises [APIErrorException], there have been [retries + 1]
      failed rounds (none when the budget is negative) and that step is the
      log record that it is unable to query;
    - when it raises the [KeyError] of the header lookup, that step is a
      request whose response has no [Status] header;
    - when it raises the [ValueError] of [time.sleep], [backoff] is
      negative and that step is a failed request and its log record. *)
Theorem get_conversation_details_contract id retries backoff r :
  let run := get_conversation_details id retries backoff r in
  run.1 <> Diverge /\
  exists h,
    history run.2 = history r ++ h /\
    (forall d,
        run.1 = Ok d ->
        exists k h0,
          (Z.of_nat k <= retries)%Z /\
          failed_rounds (is_get_of id) backoff k h0 /\
          let response := conversation r (history r ++ h0) id in
          h = h0 ++ [Get id response] /\
          is_200_OK (dr_status response) = true /\
          d = dr_json response) /\
    (run.1 = Raise APIErrorException ->
     exists h0, h = h0 ++ [LogUnableToQuery] /\
                failed_rounds (is_get_of id) backoff (Z.to_nat (retries + 1)) h0) /\
    (run.1 = Raise (KeyError "status") ->
     exists k h0,
       (Z.of_nat k <= retries)%Z /\
       failed_rounds (is_get_of id) backoff k h0 /\
       let response := conversation r (history r ++ h0) id in
       h = h0 ++ [Get id response] /\
       dr_status response = None) /\
    (run.1 = Raise (ValueError "sleep length must be non-negative") ->
     (backoff < 0)%Z /\
     exists k h0,
       (Z.of_nat k <= retries)%Z /\
       failed_rounds (is_get_of id) backoff k h0 /\
       let response := conversation r (history r ++ h0) id in
       h = h0 ++ [Get id response; LogQueryFailed] /\
       is_failure (dr_status response) = true).
Proof.
  intros run. unfold run, get_conversation_details.
  destruct (details_loop_spec id retries backoff (Z.to_nat (retries + 1)) 0 r)
    as (h & r' & out & Hrun & Hh & Hcase); [f_equal; lia|].
  rewrite Hrun. cbn [fst snd].
  assert (Hle : forall k, (k < Z.to_nat (retries + 1))%nat -> (Z.of_nat k <= retries)%Z)
    by (intros; lia).
  destruct Hcase as [(-> & Hraise) | (k & h0 & Hk & Hrounds & Hend)].
  - split; [discriminate|]. exists h. split; [exact Hh|].
    repeat split; try discriminate. intros _. exact Hraise.
  - cbv zeta in Hend.
    destruct Hend as [(-> & Hok & ->) | [(-> & Hno & ->) | (-> & Hf & Hneg & ->)]];
      (split; [discriminate|]); eexists; (split; [exact Hh|]);
      (split; [intros d Hd | split; [intros Hd | split; intros Hd]]);
      try discriminate.
    + injection Hd as <-. exists k, h0. cbv zeta. auto.
    + exists k, h0. cbv zeta. auto.
    + split; [exact Hneg|]. exists k, h0. cbv zeta. auto.
Qed.

Lemma max_updated_loop_spec start retries backoff :
  forall n failed r,
    n = Z.to_nat (retries + 1 - failed) ->
    exists h r' out,
      max_updated_loop n start retries backoff failed r = (out, r') /\
      history r' = history r ++ h /\
      ((out = Raise APIErrorException /\
        exists h0, h = h0 ++ [LogUnableToQuery] /\
                   failed_rounds (is_post_of (max_updated_payload start)) backoff n h0) \/
       (exists k h0,
           (k < n)%nat /\
           failed_rounds (is_post_of (max_updated_payload start)) backoff k h0 /\
           let response := search r (history r ++ h0) (max_updated_payload start) in
           (h = h0 ++ [Post (max_updated_payload start) response] /\
            is_200_OK (sr_status response) = true /\
            out = Ok response) \/
           (h = h0 ++ [Post (max_updated_payload start) response] /\
            sr_status response = None /\
            out = Raise (KeyError "status")) \/
           (h = h0 ++ [Post (max_updated_payload start) response; LogQueryFailed] /\
            is_failure (sr_status response) = true /\
            (backoff < 0)%Z /\
            out = Raise (ValueError "sleep length must be non-negative")))).
Proof.
  induction n as [|n IH]; intros failed r Hn.
  - rewrite max_updated_loop_exhausted by lia.
    exists [LogUnableToQuery], (record_event LogUnableToQuery r), (Raise APIErrorException).
    split; [reflexivity|]. split; [reflexivity|]. left. split; [reflexivity|].
    exists []. split; [reflexivity | constructor].
  - rewrite max_updated_loop_S by lia. cbv zeta.
    set (payload := max_updated_payload start).
    set (resp := search r (history r) payload).
    assert (Hfirst : search r (history r ++ []) payload = resp)
      by now rewrite app_nil_r.
    destruct (sr_status resp) as [status|] eqn:Hst.
    2:{ exists [Post payload resp], (record_event (Post payload resp) r),
               (Raise (KeyError "status")).
        split; [reflexivity|]. split; [reflexivity|]. right.
        exists 0%nat, []. split; [lia|]. split; [constructor|].
        cbv zeta. rewrite Hfirst. right; left. auto. }
    destruct (String.eqb status "200 OK") eqn:Hresp.
    + exists [Post payload resp], (record_event (Post payload resp) r), (Ok resp).
      split; [reflexivity|]. split; [reflexivity|]. right.
      exists 0%nat, []. split; [lia|]. split; [constructor|].
      cbv zeta. rewrite Hfirst. left. rewrite Hst. auto.
    + assert (Hfail : is_failed_request (Post payload resp) = true)
        by (simpl; rewrite Hst; simpl; now rewrite Hresp).
      destruct (Z.ltb_spec backoff 0) as [Hneg | Hpos].
      { exists [Post payload resp; LogQueryFailed],
               (record_event LogQueryFailed (record_event (Post payload resp) r)),
               (Raise (ValueError "sleep length must be non-negative")).
        split; [reflexivity|].
        split; [simpl; rewrite <- app_assoc; reflexivity|]. right.
        exists 0%nat, []. split; [lia|]. split; [constructor|].
        cbv zeta. rewrite Hfirst. right; right. auto. }
      set (r1 := record_event (Sleep backoff) _).
      destruct (IH (failed + 1)%Z r1) as (h & r' & out & Hrun & Hh & Hcase); [lia|].
      assert (Hr1 : history r1
                    = history r ++ [Post payload resp; LogQueryFailed; Sleep backoff]).
      { unfold r1. simpl. rewrite <- !app_assoc. reflexivity. }
      exists (Post payload resp :: LogQueryFailed :: Sleep backoff :: h), r', out.
      split; [exact Hrun|].
      split; [rewrite Hh, Hr1, <- app_assoc; reflexivity|].
      destruct Hcase as [(-> & h0 & -> & Hrounds) | (k & h0 & Hk & Hrounds & Hend)].
      * left. split; [reflexivity|].
        exists (Post payload resp :: LogQueryFailed :: Sleep backoff :: h0).
        split; [reflexivity|]. constructor; [now exists resp | exact Hfail | exact Hrounds].
      * right. exists (S k), (Post payload resp :: LogQueryFailed :: Sleep backoff :: h0).
        split; [lia|].
        split; [constructor; [now exists resp | exact Hfail | exact Hrounds]|].
        cbv zeta in *. rewrite Hr1, <- app_assoc in Hend.
        destruct Hend as [(-> & Hok & ->) | [(-> & Hno & ->) | (-> & Hf & Hneg & ->)]];
          [left | right; left | right; right]; auto.
Qed.

(** X6.  [get_conversation_max_updated_timestamp], for every retry budget,
    backoff and remote source: the same rounds, of the search for what
    changed after [start_timestamp], without pagination.  The call halts.
    When it returns, after [k <= retries] failed rounds the search was
    answered [200 OK], and it returns the greatest [updated_at] among the
    conversations of that response, and [None] when the response lists no
    conversation.  When it raises [APIErrorException], there have been
    [retries + 1] failed rounds, and it has logged that it is unable to
    query.  When it raises the [KeyError] of the header lookup, the
    response to its last request has no [Status] header.  When it raises
    the [ValueError] of [time.sleep], [backoff] is negative and its last
    request failed. *)
Theorem get_conversation_max_updated_timestamp_contract start retries backoff r :
  let run := get_conversation_max_updated_timestamp start retries backoff r in
  run.1 <> Diverge /\
  exists h,
    history run.2 = history r ++ h /\
    (forall v,
        run.1 = Ok v ->
        exists k h0,
          (Z.of_nat k <= retries)%Z /\
          failed_rounds (is_post_of (max_updated_payload start)) backoff k h0 /\
          let response := search r (history r ++ h0) (max_updated_payload start) in
          h = h0 ++ [Post (max_updated_payload start) response] /\
          is_200_OK (sr_status response) = true /\
          v = max_or_None
                (map conv_updated_at
                     (List.filter is_conversation (sr_conversations response)))) /\
    (run.1 = Raise APIErrorException ->
     exists h0, h = h0 ++ [LogUnableToQuery] /\
                failed_rounds (is_post_of (max_updated_payload start)) backoff
                              (Z.to_nat (retries + 1)) h0) /\
    (run.1 = Raise (KeyError "status") ->
     exists k h0,
       (Z.of_nat k <= retries)%Z /\
       failed_rounds (is_post_of (max_updated_payload start)) backoff k h0 /\
       let response := search r (history r ++ h0) (max_updated_payload start) in
       h = h0 ++ [Post (max_updated_payload start) response] /\
       sr_status response = None) /\
    (run.1 = Raise (ValueError "sleep length must be non-negative") ->
     (backoff < 0)%Z /\
     exists k h0,
       (Z.of_nat k <= retries)%Z /\
       failed_rounds (is_post_of (max_updated_payload start)) backoff k h0 /\
       let response := search r (history r ++ h0) (max_updated_payload start) in
       h = h0 ++ [Post (max_updated_payload start) response; LogQueryFailed] /\
       is_failure (sr_status response) = true).
Proof.
  intros run. unfold run, get_conversation_max_updated_timestamp, bind.
  destruct (max_updated_loop_spec start retries backoff (Z.to_nat (retries + 1)) 0 r)
    as (h & r' & out & Hrun & Hh & Hcase); [f_equal; lia|].
  rewrite Hrun.
  assert (Hle : forall k, (k < Z.to_nat (retries + 1))%nat -> (Z.of_nat k <= retries)%Z)
    by (intros; lia).
  destruct Hcase as [(-> & Hraise) | (k & h0 & Hk & Hrounds & Hend)].
  - cbn [fst snd]. split; [discriminate|]. exists h. split; [exact Hh|].
    repeat split; try discriminate. intros _. exact Hraise.
  - cbv zeta in Hend.
    destruct Hend as [(-> & Hok & ->) | [(-> & Hno & ->) | (-> & Hf & Hneg & ->)]];
      cbn [fst snd ret];
      (split; [discriminate|]); eexists; (split; [exact Hh|]);
      (split; [intros d Hd | split; [intros Hd | split; intros Hd]]);
      try discriminate.
    + injection Hd as <-. exists k, h0. cbv zeta. auto.
    + exists k, h0. cbv zeta. auto.
    + split; [exact Hneg|]. exists k, h0. cbv zeta. auto.
Qed.

(** X7.  With a negative retry budget none of the three calls sends a
    request: each logs that it is unable to query and raises
    [APIErrorException]. *)
Theorem negative_budget_makes_no_request (retries backoff : Z) r :
  (retries < 0)%Z ->
  (forall id,
      get_conversation_details id retries backoff r
      = (Raise APIErrorException, record_event LogUnableToQuery r)) /\
  (forall start,
      get_conversation_max_updated_timestamp start retries backoff r
      = (Raise APIErrorException, record_event LogUnableToQuery r)) /\
  (forall start end_,
      get_conversation_ids_last_updated_between_timestamps start end_ retries backoff r
      = (Raise APIErrorException, record_event LogUnableToQuery r)).
Proof.
  intros H.
  assert (Hf : Z.to_nat (retries + 1) = 0%nat) by lia.
  assert (Hc : (0 <=? retries)%Z = false) by lia.
  split; [|split].
  - intros id. unfold get_conversation_details. rewrite Hf. simpl. now rewrite Hc.
  - intros start. unfold get_conversation_max_updated_timestamp, bind. rewrite Hf.
    simpl. now rewrite Hc.
  - intros start end_. unfold get_conversation_ids_last_updated_between_timestamps, bind.
    rewrite Hf. simpl. now rewrite Hc.
Qed.

End ClientContracts.

(** A budget of [-1] against a source that would answer. *)
Lemma negative_budget_makes_no_request_witness :
  Intercom.get_conversation_details "A" (-1) 5 Examples.two_pages
  = (Raise APIErrorException,
     Intercom.record_event Intercom.LogUnableToQuery Examples.two_pages).
Proof.
  destruct (negative_budget_makes_no_request (-1) 5 Examples.two_pages) as (H & _);
    [lia|].
  exact (H "A").
Defined.

(** ** The loader: a merge that goes through

    The statements it issued and the rows it left; and the tables a load or
    a merge can change at all. *)

Section MergeOutcome.
Import Postgres DatabaseOperations.

Lemma subset_of_spec xs ys : subset_of xs ys = true <-> forall c, c ∈ xs -> c ∈ ys.
Proof.
  unfold subset_of. rewrite forallb_forall. split; intros H c Hc.
  - apply list_elem_of_In in Hc. specialize (H c Hc). now apply bool_decide_eq_true in H.
  - apply bool_decide_eq_true, H, list_elem_of_In, Hc.
Qed.

Lemma cell_inserted tcols scols ins s c :
  c ∈ ins -> c ∈ tcols -> cell tcols (inserted_row tcols scols ins s) c = cell scols s c.
Proof.
  intros Hi Ht. unfold inserted_row. rewrite cell_map.
  now rewrite (bool_decide_eq_true_2 _ Ht), (bool_decide_eq_true_2 _ Hi).
Qed.

Lemma cell_updated tcols scols upd t s c :
  c ∈ upd -> c ∈ tcols -> cell tcols (updated_row tcols scols upd t s) c = cell scols s c.
Proof.
  intros Hu Ht. unfold updated_row. rewrite cell_map.
  now rewrite (bool_decide_eq_true_2 _ Ht), (bool_decide_eq_true_2 _ Hu).
Qed.

(** X11.  After a merge of a non-empty row-set that went through, the
    table, with the columns it had, holds
    - for every record of the row-set, a row with the record's value in
      every column of the row-set;
    - for every row it held before, a row with that row's values in the
      columns of the primary key and in the columns the row-set does not
      have. *)
Theorem merge_upserts schema table_name df cur cur1 :
  merge_dataframe_into_table schema table_name df cur = (Ok tt, cur1) ->
  len df <> 0%nat ->
  exists name pk t t1,
    constraints_on (view cur) schema table_name = [((schema, name), pk)] /\
    relations (view cur) !! (schema, table_name) = Some t /\
    relations (view cur1) !! (schema, table_name) = Some t1 /\
    t_columns t1 = t_columns t /\
    (forall rec, rec ∈ df_records df ->
       exists row, row ∈ t_rows t1 /\ agrees (t_columns t) (df_columns df) row rec) /\
    (forall row, row ∈ t_rows t ->
       exists row', row' ∈ t_rows t1 /\
                    forall c, c ∈ pk_columns pk \/ c ∉ df_columns df ->
                              cell (t_columns t) row' c = cell (t_columns t) row c).
Proof.
  intros H Hlen.
  destruct (merge_Ok_inv _ _ _ _ _ H Hlen)
    as (name & pk & t & Hcons & Ht & kept & Hcopy & _ & _ & Hacc & Hkept & _ & Hcur1).
  cbv zeta in *.
  destruct (constraints_on_one _ _ _ _ Hcons) as [_ Hpk]. cbn [fst snd] in Hpk.
  set (s0 := staging (view cur) schema table_name ("tmp_" ++ table_name)%string t) in *.
  set (K := key_columns_listed (view cur) schema name) in *.
  assert (HpkK : forall c, c ∈ pk_columns pk -> c ∈ K)
    by (intros c; apply pk_columns_listed, Hpk).
  set (cols := df_columns df) in *.
  set (upd := List.filter (fun col => negb (bool_decide (col ∈ K))) cols) in *.
  set (S := t_rows s0 ++ map (inserted_row (t_columns s0) cols cols) (df_records df)) in *.
  set (T1 := kept ++ merge_not_matched (t_columns t) (t_columns s0) K cols S (t_rows t)) in *.
  exists name, pk, t, (with_rows t T1).
  split; [exact Hcons|]. split; [exact Ht|].
  split; [rewrite Hcur1; simpl; apply lookup_insert_eq|]. split; [reflexivity|].
  destruct Hcopy as (_ & Hsub_s & _). rewrite subset_of_spec in Hsub_s.
  destruct Hacc as (_ & Hsub). apply andb_true_iff in Hsub. destruct Hsub as [Hsub_t _].
  rewrite subset_of_spec in Hsub_t.
  assert (Hupd_cols : forall c, c ∈ upd -> c ∈ cols).
  { intros c Hc. apply list_elem_of_In, filter_In in Hc. now apply list_elem_of_In. }
  assert (Hupd_K : forall c, c ∈ cols -> c ∉ upd -> c ∈ K).
  { intros c Hc Hn. destruct (decide (c ∈ K)) as [Hk|Hk]; [exact Hk|].
    exfalso. apply Hn. apply list_elem_of_In, filter_In. split.
    - now apply list_elem_of_In.
    - now apply negb_true_iff, bool_decide_eq_false. }
  assert (Hcols_t : forall c, c ∈ cols -> c ∈ t_columns t).
  { intros c Hc. apply Hsub_t. rewrite !elem_of_app. auto. }
  apply merge_matched_inv in Hkept.
  split.
  - intros rec Hrec.
    set (s := inserted_row (t_columns s0) cols cols rec).
    assert (Hs : s ∈ S).
    { apply elem_of_app. right. apply list_elem_of_In, in_map, list_elem_of_In, Hrec. }
    assert (Hs_rec : forall c, c ∈ cols -> cell (t_columns s0) s c = cell cols rec c).
    { intros c Hc. apply cell_inserted; [exact Hc | now apply Hsub_s]. }
    destruct (existsb (fun t0 => row_matches (t_columns t) (t_columns s0) K t0 s) (t_rows t))
      eqn:Hex.
    + apply existsb_exists in Hex. destruct Hex as (t0 & Ht0 & Hm).
      apply list_elem_of_In in Ht0.
      destruct (Forall2_elem_of_l _ _ _ _ Hkept Ht0) as (y & Hy & Hkind).
      assert (Hin : In s (List.filter (row_matches (t_columns t) (t_columns s0) K t0) S)).
      { apply filter_In. split; [now apply list_elem_of_In | exact Hm]. }
      destruct Hkind as [[Hf _] | (s' & Hf & ->)]; rewrite Hf in Hin; [destruct Hin|].
      destruct Hin as [<- | []].
      exists (updated_row (t_columns t) (t_columns s0) upd t0 s').
      split; [apply elem_of_app; now left|].
      intros c Hc. rewrite <- Hs_rec by exact Hc.
      destruct (decide (c ∈ upd)) as [Hu|Hu].
      * apply cell_updated; [exact Hu | now apply Hcols_t].
      * rewrite cell_updated_row by exact Hu.
        rewrite row_matches_spec in Hm.
        destruct (sql_eq_true _ _ (Hm c (Hupd_K c Hc Hu))) as [Heq _]. now symmetry.
    + exists (inserted_row (t_columns t) (t_columns s0) cols s).
      split.
      * apply elem_of_app. right. unfold merge_not_matched.
        apply list_elem_of_In, in_map, filter_In.
        split; [now apply list_elem_of_In | now rewrite Hex].
      * intros c Hc. rewrite <- Hs_rec by exact Hc.
        apply cell_inserted; [exact Hc | now apply Hcols_t].
  - intros row Hrow.
    destruct (Forall2_elem_of_l _ _ _ _ Hkept Hrow) as (y & Hy & Hkind).
    exists y. split; [apply elem_of_app; now left|].
    destruct Hkind as [[_ ->] | (s' & _ & ->)]; [reflexivity|].
    intros c Hc. apply cell_updated_row. intros Hu.
    destruct Hc as [Hk | Hn]; [|apply Hn, Hupd_cols, Hu].
    apply list_elem_of_In, filter_In in Hu. destruct Hu as [_ Hu].
    apply negb_true_iff, bool_decide_eq_false in Hu. apply Hu, HpkK, Hk.
Qed.

(** X9.  A merge of a non-empty row-set that went through has issued six
    statements, in this order: the two catalog queries, the creation of the
    staging table [tmp_<table>], the copy of the row-set into it, the merge
    on the columns the key-column query listed under the name of the
    table's primary key, and the truncation of the staging table.  The
    columns of the primary key are among the columns of the merge; they are
    all of them when no foreign key of the schema bears the name of the
    key.  The merge leaves the staging table in the session, empty, and the
    primary keys as they were. *)
Theorem merge_issues_its_statements schema table_name df cur cur1 :
  merge_dataframe_into_table schema table_name df cur = (Ok tt, cur1) ->
  len df <> 0%nat ->
  exists name pk,
    constraints_on (view cur) schema table_name = [((schema, name), pk)] /\
    issued cur1
    = issued cur
      ++ merge_statements schema table_name df name
                          (key_columns_listed (view cur) schema name) /\
    (forall c, c ∈ pk_columns pk -> c ∈ key_columns_listed (view cur) schema name) /\
    (key_listed_alone (view cur) schema table_name ->
     key_columns_listed (view cur) schema name = pk_columns pk) /\
    (exists s, temporary (view cur1) !! ("tmp_" ++ table_name)%string = Some s /\
               t_rows s = []) /\
    primary_keys (view cur1) = primary_keys (view cur).
Proof.
  intros H Hlen.
  destruct (merge_Ok_inv _ _ _ _ _ H Hlen)
    as (name & pk & t & Hcons & Ht & kept & _ & _ & _ & _ & _ & _ & Hcur1).
  cbv zeta in *.
  destruct (constraints_on_one _ _ _ _ Hcons) as [_ Hpk]. cbn [fst snd] in Hpk.
  exists name, pk. split; [exact Hcons|].
  split; [now rewrite Hcur1|].
  split; [intros c; apply pk_columns_listed, Hpk|].
  split; [now apply key_columns_listed_alone|].
  rewrite Hcur1. simpl. split; [|reflexivity].
  eexists. split; [apply lookup_insert_eq | reflexivity].
Qed.

(** X10.  A merge of a non-empty row-set goes through only if the table has
    exactly one primary key, that key has a column, every column of the key
    is a column of the row-set, and the row-set has a column outside the
    key. *)
Theorem merge_needs_a_column_outside_the_key schema table_name df cur cur1 :
  merge_dataframe_into_table schema table_name df cur = (Ok tt, cur1) ->
  len df <> 0%nat ->
  exists name pk,
    constraints_on (view cur) schema table_name = [((schema, name), pk)] /\
    pk_columns pk <> [] /\
    (forall c, c ∈ pk_columns pk -> c ∈ df_columns df) /\
    exists c, c ∈ df_columns df /\ c ∉ pk_columns pk.
Proof.
  intros H Hlen.
  destruct (merge_Ok_inv _ _ _ _ _ H Hlen)
    as (name & pk & t & Hcons & Ht & kept & Hcopy & _ & _ & Hacc & Hkept & Hc5 & _).
  cbv zeta in *.
  destruct (constraints_on_one _ _ _ _ Hcons) as [_ Hpk]. cbn [fst snd] in Hpk.
  set (s0 := staging (view cur) schema table_name ("tmp_" ++ table_name)%string t) in *.
  set (K := key_columns_listed (view cur) schema name) in *.
  assert (HpkK : forall c, c ∈ pk_columns pk -> c ∈ K)
    by (intros c; apply pk_columns_listed, Hpk).
  destruct (constraints_ok_one _ _ _ _ Hc5) as [Hnn Hnd].
  exists name, pk. split; [exact Hcons|].
  destruct Hacc as (Hsyn & Hsub).
  apply orb_false_iff in Hsyn. destruct Hsyn as [Hsyn _].
  apply orb_false_iff in Hsyn. destruct Hsyn as [HK Hupd].
  apply bool_decide_eq_false in HK. apply bool_decide_eq_false in Hupd.
  split; [discriminate|]. split.
  - intros c Hc. destruct (decide (c ∈ df_columns df)) as [Hin|Hout]; [exact Hin|].
    exfalso.
    destruct (df_records df) as [|rec recs] eqn:Hrecs; [now apply Hlen; unfold len; rewrite Hrecs|].
    set (s := inserted_row (t_columns s0) (df_columns df) (df_columns df) rec).
    assert (Hnull : cell (t_columns s0) s c = JNull).
    { unfold s, inserted_row. rewrite cell_map.
      rewrite (bool_decide_eq_false_2 (c ∈ df_columns df)) by exact Hout.
      now case_bool_decide. }
    assert (Hun : existsb (fun t0 => row_matches (t_columns t) (t_columns s0)
                                                 K t0 s) (t_rows t) = false).
    { apply not_true_is_false. intros Hex. apply existsb_exists in Hex.
      destruct Hex as (t0 & _ & Hm). rewrite row_matches_spec in Hm.
      specialize (Hm c (HpkK c Hc)). rewrite Hnull in Hm. discriminate. }
    rewrite Forall_forall in Hnn.
    specialize (Hnn (inserted_row (t_columns t) (t_columns s0) (df_columns df) s)).
    apply (fun H => Hnn H c Hc).
    + apply elem_of_app. right. unfold merge_not_matched.
      apply list_elem_of_In, in_map, filter_In. split; [|now rewrite Hun].
      apply in_or_app. right. now left.
    + unfold inserted_row at 1. rewrite cell_map.
      rewrite (bool_decide_eq_false_2 (c ∈ df_columns df)) by exact Hout.
      now case_bool_decide.
  - destruct (List.filter _ (df_columns df)) as [|c l] eqn:E; [contradiction|].
    assert (Hin : In c (List.filter
                          (fun col => negb (bool_decide (col ∈ K)))
                          (df_columns df))) by (rewrite E; now left).
    apply filter_In in Hin. destruct Hin as [Hin Hn].
    exists c. split; [now apply list_elem_of_In|].
    apply negb_true_iff, bool_decide_eq_false in Hn. intros Hc. apply Hn, HpkK, Hc.
Qed.

(** X8.  The two catalog queries of a merge.  [get_primary_key_name]
    returns only for a table with exactly one primary-key constraint, and
    then returns the name of that constraint.  On such a table, the name
    handed to [get_key_columns] gives the columns, by position, of every
    constraint of the schema that has rows in [key_column_usage] under that
    name: the key, and the foreign keys of the schema that bear its name,
    whatever table they are on.  The columns of the key are among them, and
    they are the columns of the key, in their order, when no foreign key of
    the schema bears the name.  The two selects have been issued and the
    database is as it was. *)
Theorem primary_key_lookup schema table_name cur :
  (forall n cur',
      get_primary_key_name schema table_name cur = (Ok n, cur') ->
      exists name pk,
        constraints_on (view cur) schema table_name = [((schema, name), pk)] /\
        n = JStr name) /\
  (forall name pk,
      constraints_on (view cur) schema table_name = [((schema, name), pk)] ->
      (let* n := get_primary_key_name schema table_name in get_key_columns schema n) cur
      = (Ok (key_columns_listed (view cur) schema name),
         {| view := view cur;
            issued := issued cur ++ [SelectPrimaryKeyCount schema table_name;
                                     SelectKeyColumns schema (JStr name)] |}) /\
      (forall c, c ∈ pk_columns pk -> c ∈ key_columns_listed (view cur) schema name) /\
      (key_listed_alone (view cur) schema table_name ->
       key_columns_listed (view cur) schema name = pk_columns pk)).
Proof.
  split.
  - intros n cur' H. now apply get_primary_key_name_ok in H as (_ & H).
  - intros name pk Hcons.
    destruct (constraints_on_one _ _ _ _ Hcons) as [_ Hpk]. cbn [fst snd] in Hpk.
    split; [|split].
    + unfold bind.
      rewrite (get_primary_key_name_one _ _ _ name pk Hcons), get_key_columns_eq.
      cbn [view issued]. rewrite <- app_assoc. reflexivity.
    + intros c. apply pk_columns_listed, Hpk.
    + now apply key_columns_listed_alone.
Qed.

End MergeOutcome.

(** The merge of the two parts into the store with a key on [id]. *)
Lemma merge_upserts_witness :
  exists name pk t t1,
    Postgres.constraints_on
      (Postgres.view (Examples.fresh_cursor Examples.store_with_key))
      "intercom" "conversation_parts"
    = [(("intercom", name), pk)] /\
    Postgres.relations (Postgres.view (Examples.fresh_cursor Examples.store_with_key))
    !! ("intercom", "conversation_parts") = Some t /\
    Postgres.relations (Postgres.view Examples.merged)
    !! ("intercom", "conversation_parts") = Some t1 /\
    Postgres.t_columns t1 = Postgres.t_columns t /\
    (forall rec, rec ∈ df_records Examples.parts_frame ->
       exists row, row ∈ Postgres.t_rows t1 /\
                   DatabaseOperations.agrees (Postgres.t_columns t)
                                             (df_columns Examples.parts_frame) row rec) /\
    (forall row, row ∈ Postgres.t_rows t ->
       exists row', row' ∈ Postgres.t_rows t1 /\
                    forall c, c ∈ Postgres.pk_columns pk \/
                              c ∉ df_columns Examples.parts_frame ->
                              cell (Postgres.t_columns t) row' c
                              = cell (Postgres.t_columns t) row c).
Proof.
  apply (merge_upserts "intercom" "conversation_parts" Examples.parts_frame
                       (Examples.fresh_cursor Examples.store_with_key)
                       Examples.merged).
  - vm_compute. reflexivity.
  - vm_compute. lia.
Defined.

Lemma merge_issues_its_statements_witness :
  exists name pk,
    Postgres.constraints_on
      (Postgres.view (Examples.fresh_cursor Examples.store_with_key))
      "intercom" "conversation_parts"
    = [(("intercom", name), pk)] /\
    Postgres.issued Examples.merged
    = Postgres.issued (Examples.fresh_cursor Examples.store_with_key)
      ++ DatabaseOperations.merge_statements
           "intercom" "conversation_parts" Examples.parts_frame name
           (Postgres.key_columns_listed
              (Postgres.view (Examples.fresh_cursor Examples.store_with_key))
              "intercom" name) /\
    (forall c, c ∈ Postgres.pk_columns pk ->
               c ∈ Postgres.key_columns_listed
                     (Postgres.view (Examples.fresh_cursor Examples.store_with_key))
                     "intercom" name) /\
    (Postgres.key_listed_alone
       (Postgres.view (Examples.fresh_cursor Examples.store_with_key))
       "intercom" "conversation_parts" ->
     Postgres.key_columns_listed
       (Postgres.view (Examples.fresh_cursor Examples.store_with_key))
       "intercom" name
     = Postgres.pk_columns pk) /\
    (exists s, Postgres.temporary (Postgres.view Examples.merged)
               !! ("tmp_" ++ "conversation_parts")%string = Some s /\
               Postgres.t_rows s = []) /\
    Postgres.primary_keys (Postgres.view Examples.merged)
    = Postgres.primary_keys (Postgres.view (Examples.fresh_cursor Examples.store_with_key)).
Proof.
  apply (merge_issues_its_statements
           "intercom" "conversation_parts" Examples.parts_frame
           (Examples.fresh_cursor Examples.store_with_key) Examples.merged).
  - vm_compute. reflexivity.
  - vm_compute. lia.
Defined.

Lemma merge_needs_a_column_outside_the_key_witness :
  exists name pk,
    Postgres.constraints_on
      (Postgres.view (Examples.fresh_cursor Examples.store_with_key))
      "intercom" "conversation_parts"
    = [(("intercom", name), pk)] /\
    Postgres.pk_columns pk <> [] /\
    (forall c, c ∈ Postgres.pk_columns pk -> c ∈ df_columns Examples.parts_frame) /\
    exists c, c ∈ df_columns Examples.parts_frame /\ c ∉ Postgres.pk_columns pk.
Proof.
  apply (merge_needs_a_column_outside_the_key
           "intercom" "conversation_parts" Examples.parts_frame
           (Examples.fresh_cursor Examples.store_with_key) Examples.merged).
  - vm_compute. reflexivity.
  - vm_compute. lia.
Defined.

Section StoreFootprint.
Import Postgres DatabaseOperations.

#[global] Instance outside_preorder P : PreOrder (outside P).
Proof.
  split.
  - intros db. split; reflexivity.
  - intros a b c [H1 H2] [H3 H4]. split; [congruence|].
    intros k Hk. rewrite H4, H2 by exact Hk. reflexivity.
Qed.

#[global] Instance session_outside_preorder P : PreOrder (session_outside P).
Proof.
  split.
  - intros cur. unfold session_outside. reflexivity.
  - intros a b c. unfold session_outside. intros H1 H2. now transitivity (view b).
Qed.

Lemma exec_primary_keys stmt db : primary_keys (exec stmt db).2 = primary_keys db.
Proof.
  destruct stmt as [schema tn|schema key|tmp schema tn|schema tn cols rows
                    |schema tn tmp on upd ins|tmp|schema tn column value|schema];
    simpl.
  - reflexivity.
  - now destruct key.
  - destruct (temporary db !! tmp); [reflexivity|].
    now destruct (relations db !! _).
  - destruct (resolve db schema tn) as [t|]; [|reflexivity].
    case_bool_decide; [reflexivity|].
    destruct (negb (subset_of _ _)); [reflexivity|].
    destruct (negb (adapts db rows)); [reflexivity|].
    destruct (negb (forallb _ _)); [reflexivity|].
    destruct (constraints_ok _ _ _ _); [|reflexivity].
    now destruct schema.
  - destruct (relations db !! _) as [t|]; [|reflexivity].
    destruct (temporary db !! _) as [s|]; [|reflexivity].
    destruct (_ || _); [reflexivity|].
    destruct (negb _); [reflexivity|].
    destruct (merge_matched _ _ _ _ _ _); [|reflexivity].
    now destruct (constraints_ok _ _ _ _).
  - now destruct (temporary db !! tmp).
  - destruct (relations db !! _) as [t|]; [|reflexivity].
    now case_bool_decide.
  - destruct (relations db !! _) as [t|]; [|reflexivity].
    now case_bool_decide.
Qed.

Lemma settles_cur_execute (P : string * string -> Prop) stmt :
  (forall k, target stmt = Some k -> P k) ->
  settles (session_outside P) (cur_execute stmt).
Proof.
  intros HP cur. unfold cur_execute.
  pose proof (exec_outcome stmt (view cur)) as H.
  pose proof (exec_primary_keys stmt (view cur)) as Hpk.
  destruct (exec stmt (view cur)) as [[r|e|] db']; simpl in *.
  - split; [discriminate|]. split; [exact Hpk|]. intros k Hk. apply H.
    intros Ht. apply Hk, HP, Ht.
  - destruct H as [_ ->]. split; [discriminate|]. split; reflexivity.
  - contradiction.
Qed.

Lemma settles_load P schema table_name df :
  (forall s, schema = Some s -> P (s, table_name)) ->
  settles (session_outside P) (load_dataframe_to_table schema table_name df).
Proof.
  intros HP. unfold load_dataframe_to_table.
  case_bool_decide; [apply settles_ret; apply _|].
  apply settles_bind; [apply _ | | intros; apply settles_ret; apply _].
  apply settles_cur_execute. destruct schema as [s|]; simpl; [|discriminate].
  intros k [= <-]. now apply HP.
Qed.

Lemma settles_merge P schema table_name df :
  P (schema, table_name) ->
  settles (session_outside P) (merge_dataframe_into_table schema table_name df).
Proof.
  intros HP. unfold merge_dataframe_into_table.
  case_bool_decide; [apply settles_ret; apply _|].
  apply settles_bind; [apply _ | |].
  { unfold get_primary_key_name. apply settles_bind; [apply _ | |].
    - apply settles_cur_execute. discriminate.
    - intros [|row rows]; [apply settles_raise; apply _|].
      destruct (negb _); [apply settles_raise | apply settles_ret]; apply _. }
  intros pk_name. apply settles_bind; [apply _ | |].
  { unfold get_key_columns.
    apply settles_bind; [apply _ | | intros; apply settles_ret; apply _].
    apply settles_cur_execute. discriminate. }
  intros pk_columns.
  apply settles_bind; [apply _ | apply settles_cur_execute; discriminate |]. intros _.
  apply settles_bind; [apply _ | apply settles_load; discriminate |]. intros _.
  apply settles_bind; [apply _ | apply settles_cur_execute; simpl; now intros k [= <-] |].
  intros _.
  apply settles_bind; [apply _ | apply settles_cur_execute; discriminate |]. intros _.
  apply settles_ret; apply _.
Qed.

(** X12.  Whatever their outcome, [merge_dataframe_into_table] and
    [load_dataframe_to_table] return or raise, and leave every primary key
    and every permanent table but the one they are given as they were. *)
Theorem loaders_change_only_their_table df cur :
  (forall schema table_name,
      let done := merge_dataframe_into_table schema table_name df cur in
      done.1 <> Diverge /\
      primary_keys (view done.2) = primary_keys (view cur) /\
      forall k, k <> (schema, table_name) ->
                relations (view done.2) !! k = relations (view cur) !! k) /\
  (forall schema table_name,
      let done := load_dataframe_to_table schema table_name df cur in
      done.1 <> Diverge /\
      primary_keys (view done.2) = primary_keys (view cur) /\
      forall k, schema <> Some k.1 \/ table_name <> k.2 ->
                relations (view done.2) !! k = relations (view cur) !! k).
Proof.
  split; intros schema table_name done.
  - destruct (settles_merge (fun k => k = (schema, table_name)) schema table_name df
                            eq_refl cur) as [Hd [Hpk Hrel]].
    split; [exact Hd|]. split; [exact Hpk|]. intros k Hk. now apply Hrel.
  - destruct (settles_load (fun k => schema = Some k.1 /\ table_name = k.2)
                           schema table_name df) with (s := cur) as [Hd [Hpk Hrel]].
    { intros s ->. auto. }
    split; [exact Hd|]. split; [exact Hpk|]. intros k Hk. apply Hrel. tauto.
Qed.

End StoreFootprint.

(** ** The steps of the conversation pipeline *)

Section ReplaceLoad.
Import Postgres DatabaseOperations Intercom PipelineEngine Conversation.

(** X13.  One [delete] and [load_dataframe_to_table] pair of
    [LoadToDatabase], on an open connection, when it returns.  The table
    exists in the payload's schema and has the column, and the payload has
    the dataframe.  The rows of the table are now the rows it had whose
    [column] is not the payload's conversation id, in their order, followed
    by the records of the dataframe, with NULL in the columns the dataframe
    does not have.  No other permanent table changed, the payload and the
    rest of the world are as they were, and the cursor has issued the
    delete, followed by one copy unless the dataframe has no row. *)
Theorem delete_then_load_replaces table_name column p w cur x' :
  conn w = Some cur ->
  delete_then_load table_name column (p, w) = (Ok tt, x') ->
  exists t df cur',
    relations (view cur) !! (db_schema p, table_name) = Some t /\
    frames p !! table_name = Some df /\
    x' = (p, {| remote := remote w; committed := committed w; conn := Some cur';
                connection_log := connection_log w |}) /\
    column ∈ t_columns t /\
    relations (view cur') !! (db_schema p, table_name)
    = Some (with_rows t
              (List.filter
                 (fun r => negb (sql_eq (cell (t_columns t) r column)
                                        (JStr (conversation_id p))))
                 (t_rows t)
               ++ map (inserted_row (t_columns t) (df_columns df) (df_columns df))
                      (df_records df))) /\
    (forall k, k <> (db_schema p, table_name) ->
               relations (view cur') !! k = relations (view cur) !! k) /\
    issued cur'
    = issued cur
      ++ DeleteWhere (db_schema p) table_name column (JStr (conversation_id p))
      :: (if bool_decide (len df = 0%nat) then []
          else [Copy (Some (db_schema p)) table_name (df_columns df) (df_records df)]).
Proof.
  intros Hc H. unfold delete_then_load in H.
  unfold bind at 1, the_payload at 1 in H. cbn [fst snd] in H.
  apply bind_Ok in H. destruct H as (rows & x1 & Hdel & H).
  rewrite (on_cursor_run _ p w cur Hc) in Hdel.
  unfold cur_execute in Hdel. cbn [exec] in Hdel.
  destruct (relations (view cur) !! (db_schema p, table_name)) as [t|] eqn:Ht;
    [|discriminate].
  case_bool_decide as Hcol; [|discriminate].
  cbn [fst snd] in Hdel. injection Hdel as <- <-.
  apply bind_Ok in H. destruct H as (df & x2 & Hdf & H).
  unfold the_frame, bind, the_payload in Hdf. cbn [fst snd] in Hdf.
  destruct (frames p !! table_name) as [df'|] eqn:Hfr; [|discriminate].
  injection Hdf as <- <-.
  erewrite on_cursor_run in H by reflexivity.
  cbn [remote committed connection_log] in H.
  unfold load_dataframe_to_table in H.
  exists t, df'.
  case_bool_decide as Hlen.
  - unfold ret in H. cbn [fst snd] in H. injection H as <-.
    eexists. split; [reflexivity|]. split; [reflexivity|]. split; [reflexivity|].
    split; [exact Hcol|]. cbn [view issued store relations].
    split.
    { rewrite lookup_insert_eq. unfold len in Hlen.
      destruct (df_records df'); [|discriminate]. simpl. now rewrite app_nil_r. }
    split; [|reflexivity].
    intros k Hk. now rewrite lookup_insert_ne by congruence.
  - unfold bind, cur_execute in H. cbn [exec view issued resolve store relations] in H.
    rewrite lookup_insert_eq in H.
    case_bool_decide; [discriminate|].
    cbn [t_columns with_rows t_rows t_not_null] in H.
    destruct (negb (subset_of _ _)); [discriminate|].
    cbn [adapts] in H.
    destruct (negb (adapts (view cur) (df_records df'))); [discriminate|].
    destruct (negb (forallb _ _)); [discriminate|].
    destruct (constraints_ok _ _ _ _); [|discriminate].
    unfold ret in H. cbn [fst snd] in H. injection H as <-.
    eexists. split; [reflexivity|]. split; [reflexivity|]. split; [reflexivity|].
    split; [exact Hcol|]. cbn [view issued store relations].
    split; [now rewrite lookup_insert_eq|]. split.
    + intros k Hk. now rewrite !lookup_insert_ne by congruence.
    + rewrite <- app_assoc. reflexivity.
Qed.

End ReplaceLoad.

(** The conversations table reloaded for the conversation [Y], which the
    store held as it was at 120. *)
Lemma delete_then_load_replaces_witness :
  exists t df cur',
    Postgres.relations (Postgres.view Examples.session)
    !! (Conversation.db_schema Examples.parsed, "conversations") = Some t /\
    Conversation.frames Examples.parsed !! "conversations" = Some df /\
    Examples.reloaded
    = (Examples.parsed,
       {| Conversation.remote := Conversation.remote Examples.open_session;
          Conversation.committed := Conversation.committed Examples.open_session;
          Conversation.conn := Some cur';
          Conversation.connection_log :=
            Conversation.connection_log Examples.open_session |}) /\
    "id" ∈ Postgres.t_columns t /\
    Postgres.relations (Postgres.view cur')
    !! (Conversation.db_schema Examples.parsed, "conversations")
    = Some (Postgres.with_rows t
              (List.filter
                 (fun r => negb (sql_eq (cell (Postgres.t_columns t) r "id")
                                        (JStr (Conversation.conversation_id
                                                 Examples.parsed))))
                 (Postgres.t_rows t)
               ++ map (Postgres.inserted_row (Postgres.t_columns t) (df_columns df)
                                             (df_columns df))
                      (df_records df))) /\
    (forall k, k <> (Conversation.db_schema Examples.parsed, "conversations") ->
               Postgres.relations (Postgres.view cur') !! k
               = Postgres.relations (Postgres.view Examples.session) !! k) /\
    Postgres.issued cur'
    = Postgres.issued Examples.session
      ++ Postgres.DeleteWhere (Conversation.db_schema Examples.parsed)
                              "conversations" "id"
                              (JStr (Conversation.conversation_id Examples.parsed))
      :: (if bool_decide (len df = 0%nat) then []
          else [Postgres.Copy (Some (Conversation.db_schema Examples.parsed))
                              "conversations" (df_columns df) (df_records df)]).
Proof.
  apply (delete_then_load_replaces "conversations" "id" Examples.parsed
                                   Examples.open_session Examples.session
                                   Examples.reloaded).
  - reflexivity.
  - vm_compute. reflexivity.
Defined.

Section StepsSettling.
Import Postgres DatabaseOperations Intercom PipelineEngine Conversation.

Lemma details_loop_halts id retries backoff :
  forall n failed r,
    (Z.to_nat (retries + 1 - failed) <= n)%nat ->
    (details_loop n id retries backoff failed r).1 <> Diverge.
Proof.
  induction n as [|n IH]; intros failed r Hn;
    (destruct (Z.leb_spec failed retries);
     [|rewrite details_loop_exhausted by lia; discriminate]); [lia|].
  rewrite details_loop_S by lia. cbv zeta.
  destruct (dr_status _) as [status|]; [|discriminate].
  destruct (String.eqb status "200 OK"); [discriminate|].
  destruct (backoff <? 0)%Z; [discriminate|]. apply IH. lia.
Qed.

Lemma max_updated_loop_halts start retries backoff :
  forall n failed r,
    (Z.to_nat (retries + 1 - failed) <= n)%nat ->
    (max_updated_loop n start retries backoff failed r).1 <> Diverge.
Proof.
  induction n as [|n IH]; intros failed r Hn;
    (destruct (Z.leb_spec failed retries);
     [|rewrite max_updated_loop_exhausted by lia; discriminate]); [lia|].
  rewrite max_updated_loop_S by lia. cbv zeta.
  destruct (sr_status _) as [status|]; [|discriminate].
  destruct (String.eqb status "200 OK"); [discriminate|].
  destruct (backoff <? 0)%Z; [discriminate|]. apply IH. lia.
Qed.

Lemma get_conversation_details_halts id retries backoff r :
  (get_conversation_details id retries backoff r).1 <> Diverge.
Proof. apply details_loop_halts. lia. Qed.

Lemma get_conversation_max_updated_timestamp_halts start retries backoff r :
  (get_conversation_max_updated_timestamp start retries backoff r).1 <> Diverge.
Proof.
  unfold get_conversation_max_updated_timestamp, bind.
  pose proof (max_updated_loop_halts start retries backoff (Z.to_nat (retries + 1))
                                     0 r ltac:(lia)) as H.
  destruct (max_updated_loop _ _ _ _ _ r) as [[resp|e|] r']; simpl in *;
    [discriminate | discriminate | contradiction].
Qed.

Lemma get_conversation_ids_halts start end_ retries backoff r :
  (get_conversation_ids_last_updated_between_timestamps start end_ retries backoff r).1
  <> Diverge.
Proof.
  destruct (paginated_search_history start end_ retries backoff r)
    as (h & r' & out & -> & _ & _
        & [[-> _] | [(first & pages & -> & _) | [[-> _] | [-> _]]]]);
    discriminate.
Qed.

#[global] Instance in_transaction_preorder P : PreOrder (in_transaction P).
Proof.
  split.
  - intros w. split; [reflexivity|]. split; [reflexivity|].
    destruct (conn w); [reflexivity | exact I].
  - intros a b c (H1 & H2 & H3) (H4 & H5 & H6).
    split; [congruence|]. split; [congruence|].
    destruct (conn a), (conn b), (conn c); try contradiction; try exact I.
    etransitivity; eassumption.
Qed.

#[global] Instance keeping_payload_preorder RW `{!PreOrder RW} :
  PreOrder (keeping_payload RW).
Proof.
  split.
  - intros x. split; reflexivity.
  - intros a b c [H1 H2] [H3 H4]. split; [congruence|]. etransitivity; eassumption.
Qed.

Lemma settles_on_remote P {A} (m : M Remote A) :
  (forall r, (m r).1 <> Diverge) -> settles (in_transaction P) (on_remote m).
Proof.
  intros H w. unfold on_remote. specialize (H (remote w)).
  destruct (m (remote w)) as [r rm]. split; [exact H|].
  split; [reflexivity|]. split; [reflexivity|]. simpl.
  destruct (conn w); [reflexivity | exact I].
Qed.

Lemma settles_on_cursor P {A} (m : M Cursor A) :
  settles (session_outside P) m -> settles (in_transaction P) (on_cursor m).
Proof.
  intros H w. unfold on_cursor. destruct (conn w) as [cur|] eqn:Hc.
  - destruct (H cur) as [Hd Hr]. destruct (m cur) as [r cur'].
    split; [exact Hd|]. split; [reflexivity|]. split; [reflexivity|].
    simpl. rewrite Hc. exact Hr.
  - split; [discriminate|]. reflexivity.
Qed.

Lemma settles_on_attrs (RW : relation World) {A} (m : M World A) :
  settles RW m -> settles (attrs_related (Payload:=Payload) RW) (on_attrs m).
Proof.
  intros H p. unfold on_attrs. destruct (H (attrs p)) as [Hd Hr].
  destruct (m (attrs p)) as [r w]. split; [exact Hd | exact Hr].
Qed.

Lemma settles_on_world (RW : relation World) {A} (m : M World A) :
  settles RW m -> settles (keeping_payload RW) (on_world m).
Proof.
  intros H x. unfold on_world. destruct (H x.2) as [Hd Hr].
  destruct (m x.2) as [r w]. split; [exact Hd|]. split; [reflexivity | exact Hr].
Qed.

Lemma settles_the_payload (R : relation (Payload * World)) `{!Reflexive R} :
  settles R the_payload.
Proof. intros x. split; [discriminate | reflexivity]. Qed.

Lemma settles_the_frame (R : relation (Payload * World)) `{!PreOrder R} name :
  settles R (the_frame name).
Proof.
  unfold the_frame. apply settles_bind; [apply _ | apply settles_the_payload; apply _|].
  intros payload. destruct (frames payload !! name);
    [apply settles_ret | apply settles_raise]; apply _.
Qed.

Lemma GetPayloads_settles P :
  settles (attrs_related (in_transaction P)) GetPayloads_execute.
Proof.
  unfold GetPayloads_execute.
  apply settles_bind; [apply _ | |].
  { apply settles_on_attrs, settles_on_cursor, settles_cur_execute. discriminate. }
  intros fetched.
  destruct fetched as [|[|[] ?] ?]; try (apply settles_raise; apply _).
  apply settles_bind; [apply _ | |].
  { apply settles_on_attrs, settles_on_remote.
    apply get_conversation_max_updated_timestamp_halts. }
  intros [end_|]; [|apply settles_raise; apply _].
  apply settles_bind; [apply _ | |].
  { apply settles_on_attrs, settles_on_remote. apply get_conversation_ids_halts. }
  intros ids p. split; [discriminate|]. unfold attrs_related. simpl. reflexivity.
Qed.

Lemma GetPayloads_queue p r p' :
  GetPayloads_execute p = (Ok r, p') ->
  exists q, payloads p' = Some q /\ Forall (fun u => db_schema u = "intercom") q.
Proof.
  unfold GetPayloads_execute. unfold bind at 1.
  destruct (on_attrs _ p) as [[fetched|?|] p1]; try discriminate.
  destruct fetched as [|[|[] ?] ?]; try discriminate.
  unfold bind at 1.
  destruct (on_attrs _ p1) as [[[end_|]|?|] p2]; try discriminate.
  unfold bind at 1.
  destruct (on_attrs _ p2) as [[ids|?|] p3]; try discriminate.
  intros [= <- <-]. eexists. split; [reflexivity|].
  apply Forall_map, Forall_forall. reflexivity.
Qed.

Lemma RetrieveApiData_settles P :
  unit_settles (fun u => db_schema u = "intercom") (in_transaction P) RetrieveApiData.
Proof.
  apply unit_settles_intro. intros p a r p' a' Hp.
  cbn [step_execute RetrieveApiData].
  unfold RetrieveApiData_execute. unfold bind at 1, the_payload at 1. cbn [fst snd].
  unfold bind at 1.
  destruct (settles_on_world _ (on_remote (get_conversation_details
                                             (conversation_id p) default_retries
                                             default_backoff))
                             (settles_on_remote P _
                                (get_conversation_details_halts _ _ _)) (p, a))
    as [Hd [Hp' Hr]].
  destruct (on_world _ (p, a)) as [[d|e|] [p1 a1]]; cbn [fst snd] in *.
  - subst p1. unfold set_payload. cbn [fst snd]. intros [= <- <- <-]. auto.
  - subst p1. intros [= <- <- <-]. split; [discriminate|]. auto.
  - contradiction.
Qed.

Section Pure.
Context {S : Type} (R : relation S) `{!PreOrder R}.

Lemma settles_getitem obj key : settles R (getitem obj key).
Proof.
  unfold getitem. destruct obj; try (apply settles_raise; apply _).
  destruct (List.find _ _); [apply settles_ret | apply settles_raise]; apply _.
Qed.

Lemma settles_py_min x y : settles R (py_min x y).
Proof.
  unfold py_min. destruct x; try (apply settles_raise; apply _).
  apply settles_ret; apply _.
Qed.

Lemma settles_dict_of (items : list (string * M S json)) :
  Forall (fun kv => settles R kv.2) items -> settles R (dict_of items).
Proof.
  induction 1 as [|[k e] rest He Hrest IH]; simpl; [apply settles_ret; apply _|].
  apply settles_bind; [apply _ | exact He | intros v].
  apply settles_bind; [apply _ | exact IH | intros others]. apply settles_ret; apply _.
Qed.

Lemma settles_comprehension {A} (f : json -> M S A) items :
  (forall x, settles R (f x)) -> settles R (comprehension f items).
Proof.
  intros Hf. induction items as [|x rest IH]; simpl; [apply settles_ret; apply _|].
  apply settles_bind; [apply _ | apply Hf | intros r].
  apply settles_bind; [apply _ | exact IH | intros others]. apply settles_ret; apply _.
Qed.

Lemma settles_copied obj keys :
  Forall (fun kv : string * M S json => settles R kv.2) (copied obj keys).
Proof.
  unfold copied. apply Forall_map, Forall_forall. intros k _. apply settles_getitem.
Qed.

Lemma settles_flattened obj key : settles R (flattened (S:=S) obj key).2.
Proof.
  simpl. apply settles_bind; [apply _ | apply settles_getitem | intros v].
  apply settles_ret; apply _.
Qed.

Lemma settles_optional_record api_data key items :
  (forall sub, Forall (fun kv => settles R kv.2) (items sub)) ->
  settles R (optional_record api_data key items).
Proof.
  intros Hitems. unfold optional_record.
  apply settles_bind; [apply _ | apply settles_getitem | intros sub].
  case_bool_decide; [apply settles_ret; apply _|].
  apply settles_bind; [apply _ | apply settles_dict_of, Hitems | intros r].
  apply settles_ret; apply _.
Qed.

End Pure.

Lemma settles_attach name df : settles (same beside_frames) (attach name df).
Proof. intros [p w]. split; [discriminate | reflexivity]. Qed.

Lemma settles_the_api_data (R : relation (Payload * World)) `{!PreOrder R} :
  settles R the_api_data.
Proof.
  unfold the_api_data. apply settles_bind; [apply _ | apply settles_the_payload; apply _|].
  intros payload. destruct (api_data payload);
    [apply settles_ret | apply settles_raise]; apply _.
Qed.

End StepsSettling.

Ltac settled_step :=
  first
    [ apply settles_ret; apply _
    | apply settles_raise; apply _
    | apply settles_getitem; apply _
    | apply settles_py_min; apply _
    | apply settles_copied; apply _
    | apply settles_flattened; apply _
    | apply Forall_nil_2
    | apply Forall_cons_2
    | apply Forall_app_2
    | apply settles_dict_of; [apply _|]
    | apply settles_optional_record; [apply _ | intros ?]
    | apply settles_comprehension; [apply _ | intros ?]
    | apply settles_attach
    | apply settles_the_payload; apply _
    | apply settles_the_api_data; apply _
    | apply settles_bind; [apply _ | | intros ?]
    | match goal with
      | |- settles _ (if ?b then _ else _) => destruct b
      | |- settles _ (match ?x with _ => _ end) => destruct x
      end
    | progress cbn [snd] ].

Section ParseSettling.
Import Postgres DatabaseOperations Intercom PipelineEngine Conversation.

Lemma ParseApiData_settles : settles (same beside_frames) ParseApiData_execute.
Proof. unfold ParseApiData_execute. repeat settled_step. Qed.

End ParseSettling.

Section ParseFrames.
Import Postgres DatabaseOperations Intercom PipelineEngine Conversation.

Lemma len_pd_DataFrame l : len (pd_DataFrame l) = length l.
Proof. destruct l; [reflexivity|]. unfold len. simpl. now rewrite length_map. Qed.

Lemma item_getitem {S} d key (s s' : S) v :
  getitem d key s = (Ok v, s') -> s' = s /\ item d key = Some v.
Proof.
  intros H. apply getitem_Ok in H. destruct H as [-> H]. split; [reflexivity|].
  unfold item. now rewrite H.
Qed.

Lemma settled_state {S A} (m : M S A) s r s' :
  settles (same (fun x : S => x)) m -> m s = (r, s') -> s' = s.
Proof. intros H E. destruct (H s) as [_ Hs]. rewrite E in Hs. exact Hs. Qed.

Lemma optional_record_Ok {S} d key items (s s' : S) l :
  (forall sub, Forall (fun kv => settles (same (fun x : S => x)) kv.2) (items sub)) ->
  optional_record d key items s = (Ok l, s') ->
  s' = s /\
  exists v, item d key = Some v /\
            length l = if bool_decide (v = JNull) then 0%nat else 1%nat.
Proof.
  intros Hitems H. split.
  { eapply settled_state; [|exact H]. apply settles_optional_record; [apply _|].
    exact Hitems. }
  unfold optional_record in H. apply bind_Ok in H. destruct H as (v & s1 & Hv & H).
  apply item_getitem in Hv. destruct Hv as [-> Hv]. exists v. split; [exact Hv|].
  case_bool_decide.
  - injection H as <- <-. reflexivity.
  - apply bind_Ok in H. destruct H as (rec & s2 & _ & H). injection H as <- <-.
    reflexivity.
Qed.

Lemma comprehension_length {S A} (f : json -> M S A) items (s s' : S) l :
  comprehension f items s = (Ok l, s') -> length l = length items.
Proof.
  revert s l. induction items as [|x rest IH]; intros s l; simpl.
  - intros [= <- <-]. reflexivity.
  - intros H. apply bind_Ok in H. destruct H as (r & s1 & _ & H).
    apply bind_Ok in H. destruct H as (others & s2 & Hrest & H).
    injection H as <- <-. simpl. f_equal. exact (IH _ _ Hrest).
Qed.

Ltac attached H :=
  apply bind_Ok in H; destruct H as ([] & ? & Hatt & H);
  unfold attach, set_payload in Hatt; cbn [fst snd] in Hatt;
  injection Hatt as <-;
  cbn [conversation_id start_timestamp end_timestamp db_schema api_data frames] in H.

Ltac section_of H l Hstate Hv Hlen :=
  let s := fresh "s" in
  let v := fresh "v" in
  apply bind_Ok in H; destruct H as (l & s & Hopt & H);
  apply optional_record_Ok in Hopt;
  [destruct Hopt as (Hstate & v & Hv & Hlen); subst s
  | intros ?; repeat settled_step].

(** X14.  [ParseApiData], when it returns.  It changed nothing of the world
    and nothing of the payload but the ten dataframes it assigns.  The
    detail has all the keys the step reads.  The conversations dataframe
    has one row, under the thirteen columns in the order of the source:
    [updated_at] is the detail's, capped at the payload's [end_timestamp],
    and every other column is the detail's.  Each of the eight dataframes
    of an object that can be null has no row when the object is null and
    one row otherwise.  The parts dataframe has no row when the parts
    object is null, and otherwise one row for each listed part. *)
Theorem ParseApiData_frames p w r p' w' :
  ParseApiData_execute (p, w) = (Ok r, (p', w')) ->
  w' = w /\
  beside_frames (p', w') = beside_frames (p, w) /\
  (forall name, name ∉ loaded_tables -> frames p' !! name = frames p !! name) /\
  exists d,
    api_data p = Some d /\
    (exists row u,
        frames p' !! "conversations"
        = Some {| df_columns := conversation_keys; df_records := [row] |} /\
        item d "updated_at" = Some (JNum u) /\
        cell conversation_keys row "updated_at"
        = JNum (Z.min u (end_timestamp p)) /\
        forall c, c ∈ conversation_keys -> c <> "updated_at" ->
                  item d c = Some (cell conversation_keys row c)) /\
    Forall (fun nk =>
              exists v df,
                item d nk.2 = Some v /\
                frames p' !! nk.1 = Some df /\
                len df = if bool_decide (v = JNull) then 0%nat else 1%nat)
           optional_frames /\
    exists parts df,
      item d "conversation_parts" = Some parts /\
      frames p' !! "conversation_parts" = Some df /\
      (parts = JNull -> len df = 0%nat) /\
      (parts <> JNull ->
       exists items, item parts "conversation_parts" = Some (JArr items) /\
                     len df = length items).
Proof.
  intros H. unfold ParseApiData_execute in H.
  unfold bind at 1, the_payload at 1 in H. cbn [fst snd] in H. cbv zeta in H.
  apply bind_Ok in H. destruct H as (d & s1 & Hd & H).
  unfold the_api_data, bind, the_payload in Hd. cbn [fst snd] in Hd.
  destruct (api_data p) as [d'|] eqn:Hapi; [|discriminate]. injection Hd as <- <-.
  apply bind_Ok in H. destruct H as (conv & s2 & Hconv & H).
  assert (s2 = (p, w)) as ->.
  { eapply settled_state; [|exact Hconv]. repeat settled_step. }
  cbn [copied map app] in Hconv.
  apply dict_of_cons_Ok in Hconv; destruct Hconv as (v1 & ? & ? & G1 & Hconv & ->).
  apply item_getitem in G1; destruct G1 as [-> G1].
  apply dict_of_cons_Ok in Hconv; destruct Hconv as (v2 & ? & ? & G2 & Hconv & ->).
  apply item_getitem in G2; destruct G2 as [-> G2].
  apply dict_of_cons_Ok in Hconv; destruct Hconv as (v3 & ? & ? & G3 & Hconv & ->).
  apply item_getitem in G3; destruct G3 as [-> G3].
  apply dict_of_cons_Ok in Hconv; destruct Hconv as (v4 & ? & ? & G4 & Hconv & ->).
  apply item_getitem in G4; destruct G4 as [-> G4].
  apply dict_of_cons_Ok in Hconv; destruct Hconv as (v5 & ? & ? & G5 & Hconv & ->).
  apply bind_Ok in G5. destruct G5 as (u0 & ? & G5 & Hmin).
  apply item_getitem in G5; destruct G5 as [-> G5].
  unfold py_min in Hmin. destruct u0 as [| |u| | |]; try discriminate.
  injection Hmin as <- <-.
  apply dict_of_cons_Ok in Hconv; destruct Hconv as (v6 & ? & ? & G6 & Hconv & ->).
  apply item_getitem in G6; destruct G6 as [-> G6].
  apply dict_of_cons_Ok in Hconv; destruct Hconv as (v7 & ? & ? & G7 & Hconv & ->).
  apply item_getitem in G7; destruct G7 as [-> G7].
  apply dict_of_cons_Ok in Hconv; destruct Hconv as (v8 & ? & ? & G8 & Hconv & ->).
  apply item_getitem in G8; destruct G8 as [-> G8].
  apply dict_of_cons_Ok in Hconv; destruct Hconv as (v9 & ? & ? & G9 & Hconv & ->).
  apply item_getitem in G9; destruct G9 as [-> G9].
  apply dict_of_cons_Ok in Hconv; destruct Hconv as (v10 & ? & ? & G10 & Hconv & ->).
  apply item_getitem in G10; destruct G10 as [-> G10].
  apply dict_of_cons_Ok in Hconv; destruct Hconv as (v11 & ? & ? & G11 & Hconv & ->).
  apply item_getitem in G11; destruct G11 as [-> G11].
  apply dict_of_cons_Ok in Hconv; destruct Hconv as (v12 & ? & ? & G12 & Hconv & ->).
  apply item_getitem in G12; destruct G12 as [-> G12].
  apply dict_of_cons_Ok in Hconv; destruct Hconv as (v13 & ? & ? & G13 & Hconv & ->).
  apply item_getitem in G13; destruct G13 as [-> G13].
  simpl in Hconv. injection Hconv as <-.
  attached H.
  section_of H tags Stags Vtags Ltags. attached H.
  section_of H ratings Sratings Vratings Lratings. attached H.
  section_of H sources Ssources Vsources Lsources. attached H.
  section_of H contacts Scontacts Vcontacts Lcontacts. attached H.
  section_of H teammates Steammates Vteammates Lteammates. attached H.
  section_of H replies Sreplies Vreplies Lreplies. attached H.
  section_of H sla Ssla Vsla Lsla. attached H.
  section_of H statistics Sstatistics Vstatistics Lstatistics. attached H.
  apply bind_Ok in H. destruct H as (parts & s3 & Hparts & H).
  apply item_getitem in Hparts. destruct Hparts as [-> Hparts].
  apply bind_Ok in H. destruct H as (plist & s4 & Hplist & H).
  match type of Hplist with
  | ?m ?s = _ =>
      assert (Hm : settles (same (fun x : Payload * World => x)) m)
        by (repeat settled_step);
      pose proof (settled_state m s _ s4 Hm Hplist) as Hs4; clear Hm
  end.
  subst s4.
  unfold attach, set_payload in H. cbn [fst snd] in H.
  cbn [conversation_id start_timestamp end_timestamp db_schema api_data frames] in H.
  destruct r. injection H as <- <-.
  split; [reflexivity|]. split; [reflexivity|]. split.
  { intros name Hname. cbn [frames].
    rewrite !lookup_insert_ne; [reflexivity|..];
      intros <-; apply Hname, list_elem_of_In; simpl; tauto. }
  exists d'. split; [reflexivity|]. split.
  { eexists _, u. split; [cbn [frames]; rewrite !lookup_insert_ne by discriminate;
                          rewrite lookup_insert_eq; reflexivity|].
    split; [exact G5|]. split; [reflexivity|].
    intros c Hc Hne. apply list_elem_of_In in Hc. simpl in Hc.
    repeat (destruct Hc as [<- | Hc]; [first [contradiction | assumption]|]).
    destruct Hc. }
  split.
  { unfold optional_frames.
    repeat (apply Forall_cons_2;
            [eexists _, _; split; [eassumption|]; split;
             [cbn [frames fst]; rewrite ?lookup_insert_ne by discriminate;
              rewrite lookup_insert_eq; reflexivity
             |rewrite len_pd_DataFrame; assumption]|]).
    apply Forall_nil_2. }
  exists parts. eexists. split; [exact Hparts|]. split.
  { cbn [frames]. rewrite lookup_insert_eq. reflexivity. }
  rewrite len_pd_DataFrame. case_bool_decide as Hnull.
  - injection Hplist as <-. split; [reflexivity | contradiction].
  - split; [contradiction|]. intros _.
    apply bind_Ok in Hplist. destruct Hplist as (listed & s5 & Hlisted & Hplist).
    apply item_getitem in Hlisted. destruct Hlisted as [-> Hlisted].
    destruct listed as [| | | |items|]; try discriminate.
    exists items. split; [exact Hlisted|].
    exact (comprehension_length _ _ _ _ _ Hplist).
Qed.

End ParseFrames.

(** The detail of [Y], changed at 150, parsed for the window that ends at
    140. *)
Lemma ParseApiData_frames_witness :
  Examples.open_session = Examples.open_session /\
  Conversation.beside_frames (Examples.parsed, Examples.open_session)
  = Conversation.beside_frames (Examples.retrieved, Examples.open_session) /\
  (forall name, name ∉ Conversation.loaded_tables ->
                Conversation.frames Examples.parsed !! name
                = Conversation.frames Examples.retrieved !! name) /\
  exists d,
    Conversation.api_data Examples.retrieved = Some d /\
    (exists row u,
        Conversation.frames Examples.parsed !! "conversations"
        = Some {| df_columns := Conversation.conversation_keys;
                  df_records := [row] |} /\
        Conversation.item d "updated_at" = Some (JNum u) /\
        cell Conversation.conversation_keys row "updated_at"
        = JNum (Z.min u (Conversation.end_timestamp Examples.retrieved)) /\
        forall c, c ∈ Conversation.conversation_keys -> c <> "updated_at" ->
                  Conversation.item d c
                  = Some (cell Conversation.conversation_keys row c)) /\
    Forall (fun nk =>
              exists v df,
                Conversation.item d nk.2 = Some v /\
                Conversation.frames Examples.parsed !! nk.1 = Some df /\
                len df = if bool_decide (v = JNull) then 0%nat else 1%nat)
           Conversation.optional_frames /\
    exists parts df,
      Conversation.item d "conversation_parts" = Some parts /\
      Conversation.frames Examples.parsed !! "conversation_parts" = Some df /\
      (parts = JNull -> len df = 0%nat) /\
      (parts <> JNull ->
       exists items, Conversation.item parts "conversation_parts" = Some (JArr items) /\
                     len df = length items).
Proof.
  apply (ParseApiData_frames Examples.retrieved Examples.open_session tt
                             Examples.parsed Examples.open_session).
  vm_compute. reflexivity.
Defined.

(** ** A run as one transaction *)

Section RunTransaction.
Import Postgres DatabaseOperations Intercom PipelineEngine Conversation.

Lemma delete_then_load_at P table_name column p w :
  P (db_schema p, table_name) ->
  settles_at (keeping_payload (in_transaction P))
             (delete_then_load table_name column) (p, w).
Proof.
  intros HP. unfold delete_then_load.
  apply settles_at_bind;
    [apply _ | apply settles_settles_at, settles_the_payload; apply _ |].
  intros payload s1 E _. unfold the_payload in E. cbn [fst] in E.
  injection E as <- <-. apply settles_settles_at.
  apply settles_bind; [apply _ | | intros _].
  { apply settles_on_world, settles_on_cursor, settles_cur_execute.
    simpl. now intros k [= <-]. }
  apply settles_bind; [apply _ | apply settles_the_frame; apply _ | intros df].
  apply settles_on_world, settles_on_cursor, settles_load. now intros s [= <-].
Qed.

Lemma LoadToDatabase_at P p w :
  (forall t, t ∈ loaded_tables -> P (db_schema p, t)) ->
  settles_at (keeping_payload (in_transaction P)) LoadToDatabase_execute (p, w).
Proof.
  intros HP. unfold LoadToDatabase_execute.
  do 9 (apply settles_at_bind;
        [apply _
        | apply delete_then_load_at, HP, list_elem_of_In; simpl; tauto
        | intros _ [p1 w1] _ [Hp1 _]; cbn [fst] in Hp1; subst p1; clear w; rename w1 into w]).
  apply settles_at_bind;
    [apply _ | apply settles_settles_at, settles_the_payload; apply _ |].
  intros payload s1 E _. unfold the_payload in E. cbn [fst] in E.
  injection E as <- <-. apply settles_settles_at.
  apply settles_bind; [apply _ | apply settles_the_frame; apply _ | intros df].
  apply settles_on_world, settles_on_cursor, settles_merge.
  apply HP, list_elem_of_In. simpl. tauto.
Qed.

Lemma LoadToDatabase_settles :
  unit_settles (fun u => db_schema u = "intercom")
               (in_transaction (destination_table "intercom")) LoadToDatabase.
Proof.
  apply unit_settles_intro. intros p a r p' a' Hp E.
  cbn [step_execute LoadToDatabase] in E.
  destruct (LoadToDatabase_at (destination_table "intercom") p a) as [Hd [Hp' Hr]].
  { intros t Ht. split; [exact Hp | exact Ht]. }
  rewrite E in Hd, Hp', Hr. cbn [fst snd] in *. subst p'. auto.
Qed.

Lemma ParseApiData_unit_settles P :
  unit_settles (fun u => db_schema u = "intercom") (in_transaction P) ParseApiData.
Proof.
  apply unit_settles_intro. intros p a r p' a' Hp E.
  cbn [step_execute ParseApiData] in E.
  destruct (ParseApiData_settles (p, a)) as [Hd Hr].
  rewrite E in Hd, Hr. cbn [fst snd] in *.
  unfold same, beside_frames in Hr. cbn [fst snd] in Hr.
  injection Hr as _ _ _ Hs _ ->. split; [exact Hd|]. split; [congruence | reflexivity].
Qed.

Lemma pipeline_steps_settle :
  Forall (unit_settles (fun u => db_schema u = "intercom")
                       (in_transaction (destination_table "intercom")))
         pipeline_steps.
Proof.
  repeat apply Forall_cons_2; [| | |apply Forall_nil_2].
  - apply RetrieveApiData_settles.
  - apply ParseApiData_unit_settles.
  - apply LoadToDatabase_settles.
Qed.

Lemma error_steps_run (s0 : Run Payload World) cur :
  conn (attrs (self s0)) = Some cur ->
  run_error_handling error_handling_steps s0
  = (Ok tt,
     {| self :=
          {| payloads := payloads (self s0);
             attrs := {| remote := remote (attrs (self s0));
                         committed := committed (attrs (self s0));
                         conn := Some {| view := session_view
                                                   (committed (attrs (self s0)));
                                         issued := issued cur |};
                         connection_log :=
                           connection_log (attrs (self s0)) ++ [RolledBack] |} |};
        logged := logged s0 ++ [LogErrorStepsToExecute 1;
                                LogStartingErrorStep "RollbackTransaction";
                                LogErrorStepsDone] |}).
Proof.
  intros Hc.
  unfold run_error_handling, error_handling_steps, run_steps, bind,
    PipelineEngine.logger, execute_on_self.
  cbn [self logged step_execute step_name length RollbackTransaction].
  unfold RollbackTransaction_execute, on_attrs, conn_rollback. rewrite Hc.
  unfold ret. cbn [self logged]. rewrite <- !app_assoc. reflexivity.
Qed.

Lemma guarded_run source stored r s1 :
  execute_guarded pre_execution_steps pipeline_steps
                  (IntercomConversationPipeline source stored) = (r, s1) ->
  r <> Diverge /\
  in_transaction (destination_table "intercom") (attrs (connected source stored))
                 (attrs (self s1)).
Proof.
  unfold execute_guarded, try_except. unfold bind at 1. rewrite pre_steps_run.
  destruct (GetPayloads_settles (destination_table "intercom")
                                (connected source stored)) as [Hd Hr].
  destruct (GetPayloads_execute (connected source stored)) as [[[]|e|] p1] eqn:EG;
    cbn [fst snd] in Hd, Hr; [| |contradiction].
  - destruct (GetPayloads_queue _ _ _ EG) as (q & Hq & Hgood).
    match goal with
    | |- context [run_all_payloads pipeline_steps ?s] =>
        destruct (run_all_payloads_settles pipeline_steps _ _ s pipeline_steps_settle)
          as [Hd2 Hr2];
        [cbn [self]; intros q' Hq'; rewrite Hq in Hq'; now injection Hq' as <-|];
        destruct (run_all_payloads pipeline_steps s) as [[[]|e|] s2]
    end; cbn [fst snd self attrs] in *; [| |contradiction].
    + intros [= <- <-]. split; [discriminate|]. etransitivity; [exact Hr | exact Hr2].
    + assert (H : in_transaction (destination_table "intercom")
                                 (attrs (connected source stored)) (attrs (self s2)))
        by (etransitivity; [exact Hr | exact Hr2]).
      destruct e; intros [= <- <-]; (split; [discriminate | exact H]).
  - destruct e; intros [= <- <-]; (split; [discriminate | exact Hr]).
Qed.

Lemma run_outcome source stored :
  let done := IntercomConversationPipeline_execute
                (IntercomConversationPipeline source stored) in
  let w := attrs (self done.2) in
  exists cur,
    session_outside (destination_table "intercom")
                    {| view := session_view stored; issued := [] |} cur /\
    match done.1 with
    | Ok _ =>
        committed w = session_view (view cur) /\
        conn w = Some {| view := session_view (view cur); issued := issued cur |} /\
        connection_log w = [Connected; Committed]
    | Raise _ =>
        committed w = stored /\
        conn w = Some {| view := session_view stored; issued := issued cur |} /\
        connection_log w = [Connected; RolledBack]
    | Diverge => False
    end.
Proof.
  intros done w. subst w done.
  destruct (IntercomConversationPipeline_execute _) as [r' s'] eqn:Hex.
  cbn [fst snd].
  unfold IntercomConversationPipeline_execute, execute, try_except in Hex.
  unfold bind at 1 in Hex.
  destruct (execute_guarded _ _ _) as [r s1] eqn:E.
  destruct (guarded_run _ _ _ _ E) as [Hd (Hc & Hl & Hconn)].
  cbn [attrs connected committed connection_log conn] in Hc, Hl, Hconn.
  destruct (conn (attrs (self s1))) as [cur|] eqn:Hcur; [|contradiction].
  exists cur. split; [exact Hconn|].
  destruct r as [[]|e|]; [| |contradiction].
  - rewrite (post_steps_run s1 cur Hcur) in Hex. injection Hex as <- <-.
    cbn [self attrs committed conn connection_log]. rewrite Hl. auto.
  - unfold bind at 1 in Hex. unfold PipelineEngine.logger at 1 in Hex.
    unfold bind at 1 in Hex.
    erewrite error_steps_run in Hex by (cbn [self attrs]; exact Hcur).
    unfold raise in Hex. injection Hex as <- <-.
    cbn [self attrs committed conn connection_log]. rewrite Hl, Hc. auto.
Qed.

(** X15.  A run of the conversation pipeline from a new pipeline object,
    whatever the remote source answers and the store holds, with the
    connection opened as [get_db_connection] opens it.  The run returns or
    raises.  When it returns, the connection was opened once and committed
    once, and what is committed is what the session sees, without temporary
    table.  When it raises, the connection was opened once and rolled back
    once, what is committed is what was stored before the run, and the
    session is back at it. *)
Theorem run_is_one_transaction source stored :
  let done := IntercomConversationPipeline_execute
                (IntercomConversationPipeline source stored) in
  let w := attrs (self done.2) in
  match done.1 with
  | Ok _ =>
      connection_log w = [Connected; Committed] /\
      exists cur, conn w = Some cur /\ view cur = committed w /\
                  temporary (committed w) = ∅
  | Raise _ =>
      connection_log w = [Connected; RolledBack] /\
      committed w = stored /\
      exists cur, conn w = Some cur /\ view cur = session_view stored
  | Diverge => False
  end.
Proof.
  intros done w. destruct (run_outcome source stored) as (cur & _ & H).
  fold done in H. fold w in H.
  destruct done.1 as [[]|e|]; [| |exact H].
  - destruct H as (Hc & Hconn & Hl). split; [exact Hl|].
    eexists. split; [exact Hconn|]. rewrite Hc. auto.
  - destruct H as (Hc & Hconn & Hl). split; [exact Hl|]. split; [exact Hc|].
    eexists. split; [exact Hconn | reflexivity].
Qed.

(** X16.  Whatever its outcome, a run of the conversation pipeline leaves
    every primary key, and every table other than the ten tables of the
    schema [intercom] that [LoadToDatabase] writes, as they were stored. *)
Theorem run_changes_only_its_tables source stored :
  let done := IntercomConversationPipeline_execute
                (IntercomConversationPipeline source stored) in
  let db := committed (attrs (self done.2)) in
  primary_keys db = primary_keys stored /\
  forall schema table_name,
    ~ (schema = "intercom" /\ table_name ∈ loaded_tables) ->
    relations db !! (schema, table_name) = relations stored !! (schema, table_name).
Proof.
  intros done db. destruct (run_outcome source stored) as (cur & [Hpk Hrel] & H).
  fold done in H. subst db. cbn [view session_view primary_keys relations] in Hpk, Hrel.
  destruct done.1 as [[]|e|]; [| |contradiction].
  - destruct H as (-> & _). split; [exact Hpk|]. intros schema table_name Hk.
    apply (Hrel (schema, table_name)). exact Hk.
  - destruct H as (-> & _). auto.
Qed.

End RunTransaction.
